(** * Music-Recommendation: feature index, similarity engine, recommender

    A shallow embedding of [src/models/index_builder.py],
    [src/models/similarity.py] and [src/models/recommender.py], and of
    the stages that prepare their table: [src/preprocessing/data_cleaner.py]
    and, of [src/preprocessing/feature_engineer.py], the normalized and
    the derived features.

    Conventions of the embedding.
    - A float is a rational ([Q]); arithmetic is exact.  A missing value
      (pandas/numpy NaN) in a table cell is [None].  Equality of floats
      is [Qeq] ([==]).  Where a statement depends on rounding, the code
      is translated a second time over binary64 floats (module
      [Float64]).
    - A 2-D numpy array is the list of its rows, all of one length; the
      width of an array without rows is not represented, and is taken to
      fit wherever a width is asked for.
    - A Python exception is a value of [PyError]; a function that can
      raise returns a [result].
    - [np.sqrt] and [np.argsort] are library operations: the first is a
      parameter without laws, the second a parameter with numpy's
      contract (a permutation of the positions that lists the values in
      non-decreasing order; the default sort kind promises nothing about
      the order of equal values). *)

From Stdlib Require Import ZArith QArith Sorted Permutation Lia PrimFloat.
From stdpp Require Import base option list sorting gmap strings.

(** ** Exceptions *)

Inductive PyError : Set :=
  | KeyError | ValueError | IndexError | FileNotFoundError | AttributeError.

Inductive result (A : Type) : Type :=
  | Ok (a : A)
  | Raise (e : PyError).
Arguments Ok {A} a.
Arguments Raise {A} e.

Definition bind {A B} (m : result A) (f : A → result B) : result B :=
  match m with Ok a => f a | Raise e => Raise e end.

Definition rmap {A B} (f : A → B) (m : result A) : result B :=
  match m with Ok a => Ok (f a) | Raise e => Raise e end.

Notation "'let*' x ':=' m 'in' k" := (bind m (λ x, k))
  (at level 10, x name, m at level 100, k at level 200).
Notation "'let*' ' p ':=' m 'in' k" := (bind m (λ x, match x with p => k end))
  (at level 10, p strict pattern, m at level 100, k at level 200).

Definition is_Ok {A} (m : result A) : bool :=
  match m with Ok _ => true | Raise _ => false end.

(** [for x in l: ... raise], collecting the results. *)
Fixpoint traverse {A B} (f : A → result B) (l : list A) : result (list B) :=
  match l with
  | [] => Ok []
  | x :: l => let* y := f x in let* ys := traverse f l in Ok (y :: ys)
  end.

(** ** Python and numpy primitives *)

Abbreviation Vec := (list Q).
Abbreviation Matrix := (list (list Q)).

(** [l[:k]]: a negative bound counts from the end. *)
Definition py_slice_to {A} (l : list A) (k : Z) : list A :=
  if (0 <=? k)%Z then take (Z.to_nat k) l
  else take (Z.to_nat (Z.of_nat (length l) + k)) l.

(** Position designated by index [i] in an array of length [n]. *)
Definition np_index (n : nat) (i : Z) : result nat :=
  if ((0 <=? i) && (i <? Z.of_nat n))%Z then Ok (Z.to_nat i)
  else if ((- Z.of_nat n <=? i) && (i <? 0))%Z
  then Ok (Z.to_nat (Z.of_nat n + i))
  else Raise IndexError.

(** [a[idxs] = v] for a list of indices. *)
Fixpoint np_setitems (a : Vec) (idxs : list Z) (v : Q) : result Vec :=
  match idxs with
  | [] => Ok a
  | i :: idxs =>
      let* p := np_index (length a) i in np_setitems (<[p := v]> a) idxs v
  end.

(** [a[i]] for a position already known to be in range. *)
Definition np_get (a : Vec) (i : nat) : Q := nth i a 0%Q.

Definition Qlt_bool (x y : Q) : bool := negb (Qle_bool y x).

(** Truth value of an optional list ([None] and [[]] are false). *)
Definition truthy_list {A} (o : option (list A)) : bool :=
  match o with Some (_ :: _) => true | _ => false end.

(** Truth value of an optional integer ([None] and [0] are false). *)
Definition truthy_int (o : option Z) : bool :=
  match o with Some v => negb (v =? 0)%Z | None => false end.

(** [f(a, b)], element by element, for an array of shape [(m,)] and one
    of shape [(l,)]: a dimension of size one is stretched. *)
Definition np_broadcast2 {A} (f : A → A → A) (a b : list A)
    : result (list A) :=
  if length a =? length b then Ok (zip_with f a b)
  else match a, b with
       | [x], _ => Ok (f x <$> b)
       | _, [y] => Ok ((λ x, f x y) <$> a)
       | _, _ => Raise ValueError
       end.

(** [M * w] for a matrix of shape [(n, m)] and a vector of shape
    [(l,)], row by row.  A list of rows does not hold the width of a
    matrix without rows, and nothing is refused for it here, where numpy
    still compares [m] with [l]; the statements about shapes are made
    for matrices with a row, all rows of one width. *)
Definition np_mul_rows (M : Matrix) (w : Vec) : result Matrix :=
  traverse (λ row, np_broadcast2 Qmult row w) M.

(** Column [j] exists in [M]. *)
Definition has_column (M : Matrix) (j : nat) : bool :=
  match M with
  | [] => true
  | row :: _ => j <? length row
  end.

Class Sqrt := np_sqrt : Q → Q.

Class ArgSort := {
  argsort : Vec → list nat;
  argsort_perm a : argsort a ≡ₚ seq 0 (length a);
  argsort_sorted a : StronglySorted Qle (np_get a <$> argsort a)
}.

(** Insertion of a position into a list of positions ordered by value;
    the new position goes before the first one whose value is not
    smaller. *)
Fixpoint insert_pos (a : Vec) (i : nat) (s : list nat) : list nat :=
  match s with
  | [] => [i]
  | j :: s' => if Qle_bool (np_get a i) (np_get a j) then i :: s
               else j :: insert_pos a i s'
  end.

(** A stable argsort: equal values keep their positions' order. *)
Definition stable_argsort (a : Vec) : list nat :=
  foldr (insert_pos a) [] (seq 0 (length a)).

(** An argsort that lists equal values by descending position. *)
Definition backward_argsort (a : Vec) : list nat :=
  foldr (insert_pos a) [] (reverse (seq 0 (length a))).

(** Sorting of values, for the median. *)
Fixpoint insert_val (x : Q) (s : Vec) : Vec :=
  match s with
  | [] => [x]
  | y :: s' => if Qle_bool x y then x :: s else y :: insert_val x s'
  end.

Definition np_sort (a : Vec) : Vec := foldr insert_val [] a.

Definition np_mean (a : Vec) : Q :=
  (foldr Qplus 0 a / inject_Z (Z.of_nat (length a)))%Q.

(** [np.var]: the mean of the squared deviations from the mean. *)
Definition np_var (a : Vec) : Q :=
  let mu := np_mean a in
  np_mean ((λ x, (x - mu) * (x - mu))%Q <$> a).

(** [min(x, y)] of Python: [y] when it is smaller, else [x]. *)
Definition py_min (x y : Q) : Q := if Qlt_bool y x then y else x.

(** [np.median]: NaN on an empty array. *)
Definition np_median (a : Vec) : option Q :=
  let s := np_sort a in
  let n := length a in
  if n =? 0 then None
  else if Nat.even n then Some ((np_get s (n / 2 - 1) + np_get s (n / 2)) / 2)%Q
  else Some (np_get s (n / 2)).

(** The square root used to run the examples: exact on the squares of
    rationals, and below the root by less than [2^-32] otherwise. *)
Definition sqrt_fix : Sqrt := λ x,
  (Z.sqrt (Qnum x * Z.pos (Qden x) * 2 ^ 64) # (Qden x * 2 ^ 32))%Q.

(** ** sklearn primitives *)

Definition dot (u v : Vec) : Q := foldr Qplus 0%Q (zip_with Qmult u v).

(** [_handle_zeros_in_scale]: a zero scale is replaced by one. *)
Definition handle_zeros_in_scale (s : Q) : Q :=
  if Qeq_bool s 0 then 1%Q else s.

(** [check_pairwise_arrays]: at least one sample and one feature on
    each side, and the same number of features. *)
Definition check_pairwise_arrays (X Y : Matrix) : bool :=
  match X, Y with
  | x :: _, _ :: _ =>
      negb (length x =? 0)
      && forallb (λ r, length r =? length x) X
      && forallb (λ r, length r =? length x) Y
  | _, _ => false
  end.

Section Sklearn.
Context `{Sqrt}.

(** [sklearn.preprocessing.normalize], one row: division by the
    Euclidean norm, a zero vector being left as it is. *)
Definition normalize (v : Vec) : Vec :=
  let n := handle_zeros_in_scale (np_sqrt (dot v v)) in
  (λ x, x / n)%Q <$> v.

(** [sklearn.metrics.pairwise.cosine_similarity]: the products of the
    normalized rows of [X] with those of [Y]. *)
Definition cosine_similarity (X Y : Matrix) : result Matrix :=
  if check_pairwise_arrays X Y
  then Ok ((λ x, (λ y, dot (normalize x) (normalize y)) <$> Y) <$> X)
  else Raise ValueError.

End Sklearn.

(** ** similarity.py *)

Module SimilarityComputer.

Record t := { feature_weights : gmap string Q }.

Definition _get_default_weights : gmap string Q :=
  list_to_map
    [ ("danceability", 2); ("energy", 2); ("valence", 2);
      ("tempo_normalized", 2);
      ("acousticness", 3 # 2); ("instrumentalness", 3 # 2);
      ("loudness_normalized", 1);
      ("speechiness", 1 # 2); ("liveness", 1 # 2);
      ("mode", 3 # 10); ("key", 3 # 10);
      ("mood_score", 5 # 2); ("energy_danceability", 2);
      ("vocal_presence", 1); ("intensity", 3 # 2);
      ("chill_factor", 3 # 2);
      ("track_age_normalized", 1 # 2) ]%Q.

(** [feature_weights or self._get_default_weights()]: an empty
    dictionary is false. *)
Definition __init__ (feature_weights : option (gmap string Q)) : t :=
  match feature_weights with
  | Some w => if decide (w = ∅) then {| feature_weights := _get_default_weights |}
              else {| feature_weights := w |}
  | None => {| feature_weights := _get_default_weights |}
  end.

(** [[self.feature_weights.get(name, 1.0) for name in feature_names]] *)
Definition weights (self : t) (feature_names : list string) : Vec :=
  (λ name, default 1%Q (feature_weights self !! name)) <$> feature_names.

Definition apply_weights (self : t) (feature_matrix : Matrix)
    (feature_names : list string) : result Matrix :=
  np_mul_rows feature_matrix (weights self feature_names).

Section Engine.
Context `{Sqrt, ArgSort}.

Definition compute_similarity (query_vector : Vec)
    (feature_matrix : Matrix) : result Vec :=
  let* similarities := cosine_similarity [query_vector] feature_matrix in
  Ok (hd [] similarities).

Definition get_top_k_similar (query_vector : Vec) (feature_matrix : Matrix)
    (k : Z) (exclude_indices : option (list Z)) : result (list nat * Vec) :=
  let* similarities := compute_similarity query_vector feature_matrix in
  let* similarities :=
    (if truthy_list exclude_indices
     then np_setitems similarities (default [] exclude_indices) (-1)%Q
     else Ok similarities) in
  let top_k_indices := py_slice_to (reverse (argsort similarities)) k in
  let top_k_scores := np_get similarities <$> top_k_indices in
  Ok (top_k_indices, top_k_scores).

Definition compute_pairwise_similarity (feature_matrix : Matrix) : result Matrix :=
  cosine_similarity feature_matrix feature_matrix.

Definition compute_diversity_score (similarities : Vec) : Q :=
  if length similarities <? 2 then 1%Q
  else
    let std := np_sqrt (np_var similarities) in
    let mean := np_mean similarities in
    if Qlt_bool 0 mean then py_min (std / mean) 1 else 0%Q.

End Engine.

End SimilarityComputer.

(** [apply_weights] over binary64 floats, the numbers numpy computes
    with: the weight table holds floats, and [*] rounds. *)
Module Float64.

Definition np_mul_rows (M : list (list float)) (w : list float)
    : result (list (list float)) :=
  traverse (λ row, np_broadcast2 PrimFloat.mul row w) M.

Definition weights (feature_weights : gmap string float)
    (feature_names : list string) : list float :=
  (λ name, default 1%float (feature_weights !! name)) <$> feature_names.

Definition apply_weights (feature_weights : gmap string float)
    (feature_matrix : list (list float)) (feature_names : list string)
    : result (list (list float)) :=
  np_mul_rows feature_matrix (weights feature_weights feature_names).

End Float64.

(** ** pandas tables *)

(** A table with typed columns: numeric columns (a missing cell is
    [None]) and text columns (no cell is missing).  Every column has
    [n_rows] cells.  [index] holds the labels of the rows, one per row:
    the positions [0, 1, ...] in a table as [read_csv] returns it, and
    the labels of the rows kept in a selection of its rows.  The text
    columns of the catalog are [id], [name] and [artists]; all other
    columns are numeric.  A text column with rows has a cell that does
    not read as a number, as [read_csv] types the columns: an array
    that holds one cannot be converted to floats. *)
Record DataFrame := {
  n_rows : nat;
  index : list nat;
  num_cols : gmap string (list (option Q));
  str_cols : gmap string (list string)
}.

(** The label of the row at position [i]. *)
Definition label (df : DataFrame) (i : nat) : nat := default i (index df !! i).

(** A row of a table, as returned by [df.iloc[i]] and [df.iterrows()]. *)
Record Series := { frame : DataFrame; pos : nat }.

Definition iloc (df : DataFrame) (idx : nat) : result Series :=
  if idx <? n_rows df then Ok {| frame := df; pos := idx |}
  else Raise IndexError.

(** [df.iterrows()]: the rows in order, each with its label. *)
Definition iterrows (df : DataFrame) : list (nat * Series) :=
  (λ i, (label df i, {| frame := df; pos := i |})) <$> seq 0 (n_rows df).

(** [row.get(col, dflt)] on a numeric column. *)
Definition get_num (row : Series) (col : string) (dflt : option Q)
    : option Q :=
  match num_cols (frame row) !! col with
  | Some c => default None (c !! pos row)
  | None => dflt
  end.

(** [row.get(col, dflt)] on a text column. *)
Definition get_str (row : Series) (col : string) (dflt : string) : string :=
  match str_cols (frame row) !! col with
  | Some c => default dflt (c !! pos row)
  | None => dflt
  end.

(** [row[col]] on a text column. *)
Definition getitem_str (row : Series) (col : string) : result string :=
  match str_cols (frame row) !! col with
  | Some c => Ok (default EmptyString (c !! pos row))
  | None => Raise KeyError
  end.

(** [df[col]] on a text column. *)
Definition getitem_str_col (df : DataFrame) (col : string)
    : result (list string) :=
  match str_cols df !! col with
  | Some c => Ok c
  | None => Raise KeyError
  end.

(** [col in df.columns] *)
Definition in_columns (df : DataFrame) (col : string) : bool :=
  bool_decide (is_Some (num_cols df !! col))
  || bool_decide (is_Some (str_cols df !! col)).

(** A 2-D array taken from a table: an array of numbers, row by row, or
    an array of objects when a text column is part of it. *)
Inductive Values (A : Type) : Type :=
  | Numeric (m : list (list A))
  | Objects.
Arguments Numeric {A} m.
Arguments Objects {A}.

(** [df[cols].values]: [KeyError] for a name that is not a column. *)
Definition getitem_cols (df : DataFrame) (cols : list string)
    : result (Values (option Q)) :=
  if forallb (in_columns df) cols then
    if forallb (λ c, bool_decide (is_Some (num_cols df !! c))) cols
    then Ok (Numeric
               ((λ i, (λ c, default None (default [] (num_cols df !! c) !! i))
                        <$> cols)
                  <$> seq 0 (n_rows df)))
    else Ok Objects
  else Raise KeyError.

(** The rows at the positions [keep], in that order, as [df[mask]],
    [dropna] and [drop_duplicates] return them: every row keeps its
    label. *)
Definition take_rows (df : DataFrame) (keep : list nat) : DataFrame := {|
  n_rows := length keep;
  index := label df <$> keep;
  num_cols := (λ c : list (option Q), (λ i, default None (c !! i)) <$> keep)
                <$> num_cols df;
  str_cols := (λ c : list string, (λ i, default EmptyString (c !! i)) <$> keep)
                <$> str_cols df
|}.


(** [df[name] = cells] *)
Definition with_column (df : DataFrame) (name : string)
    (cells : list (option Q)) : DataFrame := {|
  n_rows := n_rows df;
  index := index df;
  num_cols := <[name := cells]> (num_cols df);
  str_cols := delete name (str_cols df)
|}.

(** [np.nan_to_num(a, nan=0.0)]: an array of objects is returned as it
    is. *)
Definition nan_to_num (a : Values (option Q)) : Values Q :=
  match a with
  | Numeric m => Numeric ((λ row : list (option Q), default 0%Q <$> row) <$> m)
  | Objects => Objects
  end.

(** [check_array], as the scaler applies it to its input: an array of
    objects that holds text is not converted to floats, and one without
    rows has no sample. *)
Definition check_array (a : Values Q) : result Matrix :=
  match a with
  | Numeric m => Ok m
  | Objects => Raise ValueError
  end.

(** [int(x)]: truncation towards zero; NaN cannot be converted. *)
Definition py_int (x : option Q) : result Z :=
  match x with
  | Some q => Ok (Z.quot (Qnum q) (Z.pos (Qden q)))
  | None => Raise ValueError
  end.

(** [enumerate(l)] *)
Definition enumerate {A} (l : list A) : list (nat * A) :=
  zip (seq 0 (length l)) l.

(** ** StandardScaler *)

Record StandardScaler := { mean_ : Vec; scale_ : Vec }.

Definition column (m : Matrix) (j : nat) : Vec := (λ r, np_get r j) <$> m.

Definition n_features (m : Matrix) : nat := length (hd [] m).

Section Scaler.
Context `{Sqrt}.

(** The scale of a column of variance [var]: its standard deviation,
    and one for a constant column. *)
Definition scale_of_var (var : Q) : Q :=
  if Qeq_bool var 0 then 1%Q else np_sqrt var.

(** [StandardScaler().fit(X)]: at least one sample and one feature are
    required; per column, the mean and the population standard
    deviation. *)
Definition fit (X : Matrix) : result StandardScaler :=
  if (length X =? 0) || (n_features X =? 0) then Raise ValueError
  else
    let cols := column X <$> seq 0 (n_features X) in
    Ok {| mean_ := np_mean <$> cols;
          scale_ := (λ c, scale_of_var (np_var c)) <$> cols |}.

Definition transform_row (s : StandardScaler) (row : Vec) : Vec :=
  zip_with (λ x ms, ((x - ms.1) / ms.2)%Q) row (zip (mean_ s) (scale_ s)).

Definition fit_transform (X : Matrix) : result (StandardScaler * Matrix) :=
  let* s := fit X in
  Ok (s, transform_row s <$> X).

End Scaler.

(** ** index_builder.py *)

Module Metadata.
Record t := {
  id : string;
  name : string;
  artists : string;
  popularity : Z;
  release_year : option Z
}.
End Metadata.

(** [idx_to_id] is keyed by the row position, [track_metadata] by the
    row label (the source uses its decimal string). *)
Record TrackIndex := {
  id_to_idx : gmap string nat;
  idx_to_id : gmap nat string;
  track_metadata : gmap nat Metadata.t
}.

Record Config := {
  feature_columns : list string;
  n_tracks : nat;
  cfg_n_features : nat;
  scaler_mean : Vec;
  scaler_scale : Vec
}.

(** The [config] argument of [save_index], a dictionary: its entries
    under the five keys of the configuration, each of the type of the
    entry it replaces.  Entries under other keys are written to the file
    as well; nothing reads them, and they are left out here. *)
Record ConfigUpdate := {
  upd_feature_columns : option (list string);
  upd_n_tracks : option nat;
  upd_n_features : option nat;
  upd_scaler_mean : option Vec;
  upd_scaler_scale : option Vec
}.

(** [config_data.update(config)] *)
Definition dict_update (config_data : Config) (config : ConfigUpdate)
    : Config := {|
  feature_columns :=
    default (feature_columns config_data) (upd_feature_columns config);
  n_tracks := default (n_tracks config_data) (upd_n_tracks config);
  cfg_n_features := default (cfg_n_features config_data) (upd_n_features config);
  scaler_mean := default (scaler_mean config_data) (upd_scaler_mean config);
  scaler_scale := default (scaler_scale config_data) (upd_scaler_scale config)
|}.

(** The three files of the model directory. *)
Record Disk := {
  feature_matrix_npy : option Matrix;
  track_index_json : option TrackIndex;
  model_config_json : option Config
}.

Module IndexBuilder.

(** [scaler] is [None] until it has been fitted or restored. *)
Record t := { scaler : option StandardScaler }.

Definition __init__ : t := {| scaler := None |}.

Definition row_metadata (row : Series) : result Metadata.t :=
  let* id := getitem_str row "id" in
  let* popularity := py_int (get_num row "popularity" (Some 0%Q)) in
  let* release_year :=
    match get_num row "release_year" None with
    | Some y => rmap Some (py_int (get_num row "release_year" (Some 0%Q)))
    | None => Ok None
    end in
  Ok {| Metadata.id := id;
        Metadata.name := get_str row "name" "Unknown";
        Metadata.artists := get_str row "artists" "Unknown";
        Metadata.popularity := popularity;
        Metadata.release_year := release_year |}.

Section Build.
Context `{Sqrt}.

Definition build_index (self : t) (df : DataFrame)
    (feature_columns : list string) : result (t * (Matrix * TrackIndex)) :=
  let* feature_matrix := getitem_cols df feature_columns in
  let feature_matrix := nan_to_num feature_matrix in
  let* '(scaler, feature_matrix) :=
    (let* X := check_array feature_matrix in fit_transform X) in
  let* ids := getitem_str_col df "id" in
  let id_to_idx :=
    foldl (λ (m : gmap string nat) p, <[p.2 := p.1]> m) ∅ (enumerate ids) in
  let idx_to_id :=
    foldl (λ (m : gmap nat string) p, <[p.1 := p.2]> m) ∅ (enumerate ids) in
  let* metadata :=
    traverse (λ p, let* md := row_metadata p.2 in Ok (p.1, md)) (iterrows df) in
  let track_metadata :=
    foldl (λ (m : gmap nat Metadata.t) p, <[p.1 := p.2]> m) ∅ metadata in
  Ok ({| scaler := Some scaler |},
      (feature_matrix,
       {| id_to_idx := id_to_idx; idx_to_id := idx_to_id;
          track_metadata := track_metadata |})).

End Build.

(** [save_index]: the disk afterwards and the outcome.  The matrix and
    the track index are written before the scaler is read, so they are
    on disk even when it is unfitted.  [config] is [None] by default; an
    empty dictionary, like [None], updates nothing. *)
Definition save_index (self : t) (feature_matrix : Matrix)
    (track_index : TrackIndex) (feature_columns : list string)
    (config : option ConfigUpdate) (disk : Disk)
    : Disk * result () :=
  let disk := {| feature_matrix_npy := Some feature_matrix;
                 track_index_json := Some track_index;
                 model_config_json := model_config_json disk |} in
  match scaler self with
  | None => (disk, Raise AttributeError)
  | Some s =>
      let config_data := {| feature_columns := feature_columns;
                            n_tracks := length feature_matrix;
                            cfg_n_features := n_features feature_matrix;
                            scaler_mean := mean_ s;
                            scaler_scale := scale_ s |} in
      let config_data :=
        match config with
        | Some config => dict_update config_data config
        | None => config_data
        end in
      ({| feature_matrix_npy := feature_matrix_npy disk;
          track_index_json := track_index_json disk;
          model_config_json := Some config_data |},
       Ok ())
  end.

Definition load_index (self : t) (disk : Disk)
    : result (t * (Matrix * TrackIndex * Config)) :=
  match feature_matrix_npy disk with
  | None => Raise FileNotFoundError
  | Some feature_matrix =>
  match track_index_json disk with
  | None => Raise FileNotFoundError
  | Some track_index =>
  match model_config_json disk with
  | None => Raise FileNotFoundError
  | Some config =>
      Ok ({| scaler := Some {| mean_ := scaler_mean config;
                               scale_ := scaler_scale config |} |},
          (feature_matrix, track_index, config))
  end end end.



End IndexBuilder.

(** ** recommender.py *)

Module Recommendation.
Record t := {
  id : string;
  name : string;
  artists : string;
  popularity : Z;
  release_year : option Z;
  similarity_score : Q;
  danceability : option Q;
  energy : option Q;
  valence : option Q;
  tempo : option Q
}.
End Recommendation.

Module FeatureRecommendation.
Record t := {
  id : string;
  name : string;
  artists : string;
  similarity_score : Q;
  danceability : option Q;
  energy : option Q;
  valence : option Q;
  tempo : option Q
}.
End FeatureRecommendation.

Module MusicRecommender.

Record t := {
  index_builder : IndexBuilder.t;
  feature_matrix : Matrix;
  track_index : TrackIndex;
  config : Config;
  df : DataFrame;
  similarity_computer : SimilarityComputer.t;
  weighted_feature_matrix : Matrix
}.

(** [csv] is the content of [data_path], [None] when the file is absent. *)
Definition __init__ (disk : Disk) (csv : option DataFrame) : result t :=
  let* '(index_builder, (feature_matrix, track_index, config)) :=
    IndexBuilder.load_index IndexBuilder.__init__ disk in
  let* df :=
    match csv with Some df => Ok df | None => Raise FileNotFoundError end in
  let similarity_computer := SimilarityComputer.__init__ None in
  let* weighted_feature_matrix :=
    SimilarityComputer.apply_weights similarity_computer feature_matrix
      (feature_columns config) in
  Ok {| index_builder := index_builder;
        feature_matrix := feature_matrix;
        track_index := track_index;
        config := config;
        df := df;
        similarity_computer := similarity_computer;
        weighted_feature_matrix := weighted_feature_matrix |}.

(** [min_popularity and track_data.get('popularity', 0) < min_popularity];
    a comparison with NaN is false. *)
Definition below_min_popularity (track_data : Series)
    (min_popularity : option Z) : bool :=
  truthy_int min_popularity &&
  match get_num track_data "popularity" (Some 0%Q), min_popularity with
  | Some p, Some m => Qlt_bool p (inject_Z m)
  | _, _ => false
  end.

(** The year test; a pair is a true value whatever its components. *)
Definition outside_year_range (track_data : Series)
    (year_range : option (Z * Z)) : bool :=
  match year_range with
  | None => false
  | Some (lo, hi) =>
      match get_num track_data "release_year" None with
      | None => true
      | Some year => Qlt_bool year (inject_Z lo) || Qlt_bool (inject_Z hi) year
      end
  end.

Definition recommendation (track_data : Series) (artist : string) (score : Q)
    : result Recommendation.t :=
  let* id := getitem_str track_data "id" in
  let* popularity := py_int (get_num track_data "popularity" (Some 0%Q)) in
  let* release_year :=
    match get_num track_data "release_year" None with
    | Some _ => rmap Some (py_int (get_num track_data "release_year" (Some 0%Q)))
    | None => Ok None
    end in
  Ok {| Recommendation.id := id;
        Recommendation.name := get_str track_data "name" "Unknown";
        Recommendation.artists := artist;
        Recommendation.popularity := popularity;
        Recommendation.release_year := release_year;
        Recommendation.similarity_score := score;
        Recommendation.danceability := get_num track_data "danceability" (Some 0%Q);
        Recommendation.energy := get_num track_data "energy" (Some 0%Q);
        Recommendation.valence := get_num track_data "valence" (Some 0%Q);
        Recommendation.tempo := get_num track_data "tempo" (Some 0%Q) |}.

(** The loop over the ranked candidates, from the state
    ([recommendations], [seen_artists]) reached so far. *)
Fixpoint collect (self : t) (n_recommendations : Z) (diversity_filter : bool)
    (min_popularity : option Z) (year_range : option (Z * Z))
    (candidates : list (nat * Q))
    (recommendations : list Recommendation.t) (seen_artists : gset string)
    : result (list Recommendation.t) :=
  match candidates with
  | [] => Ok recommendations
  | (idx, score) :: candidates =>
      let continue := collect self n_recommendations diversity_filter
                        min_popularity year_range candidates in
      let* track_data := iloc (df self) idx in
      if below_min_popularity track_data min_popularity
      then continue recommendations seen_artists
      else if outside_year_range track_data year_range
      then continue recommendations seen_artists
      else
        let artist := get_str track_data "artists" "Unknown" in
        if diversity_filter && bool_decide (artist ∈ seen_artists)
        then continue recommendations seen_artists
        else
          let seen_artists :=
            if diversity_filter then {[artist]} ∪ seen_artists else seen_artists in
          let* r := recommendation track_data artist score in
          let recommendations := recommendations ++ [r] in
          if (n_recommendations <=? Z.of_nat (length recommendations))%Z
          then Ok recommendations
          else continue recommendations seen_artists
  end.

Section Requests.
Context `{Sqrt, ArgSort}.

Definition get_recommendations (self : t) (track_id : string)
    (n_recommendations : Z) (diversity_filter : bool)
    (min_popularity : option Z) (year_range : option (Z * Z))
    : result (list Recommendation.t) :=
  match id_to_idx (track_index self) !! track_id with
  | None => Raise ValueError
  | Some track_idx =>
      let* query_vector :=
        match weighted_feature_matrix self !! track_idx with
        | Some v => Ok v
        | None => Raise IndexError
        end in
      let k := (if diversity_filter then n_recommendations * 5
                else n_recommendations)%Z in
      let* '(top_k_indices, top_k_scores) :=
        SimilarityComputer.get_top_k_similar query_vector
          (weighted_feature_matrix self)
          (Z.min k (Z.of_nat (length (feature_matrix self))))
          (Some [Z.of_nat track_idx]) in
      collect self n_recommendations diversity_filter min_popularity year_range
        (zip top_k_indices top_k_scores) [] ∅
  end.

(** One entry of the synthetic query vector, before standardization.
    The median of a column without rows is NaN, which the similarity
    computation rejects with [ValueError]. *)
Definition query_entry (self : t) (danceability energy valence tempo : Q)
    (i : nat) (feature : string) : result Q :=
  if String.eqb feature "danceability" then Ok danceability
  else if String.eqb feature "energy" then Ok energy
  else if String.eqb feature "valence" then Ok valence
  else if String.eqb feature "tempo" then Ok tempo
  else if String.eqb feature "tempo_normalized" then Ok (tempo / 250)%Q
  else if has_column (feature_matrix self) i
  then match np_median (column (feature_matrix self) i) with
       | Some m => Ok m
       | None => Raise ValueError
       end
  else Raise IndexError.

Definition raw_query_vector (self : t) (danceability energy valence tempo : Q)
    : result Vec :=
  traverse (λ p, query_entry self danceability energy valence tempo p.1 p.2)
    (enumerate (feature_columns (config self))).

(** [(query_vector - mean_) / scale_]; a zero scale makes a non-finite
    entry, which the similarity computation rejects with [ValueError]. *)
Definition standardize (s : StandardScaler) (query_vector : Vec) : result Vec :=
  let* centred := np_broadcast2 Qminus query_vector (mean_ s) in
  let* scaled := np_broadcast2 Qdiv centred (scale_ s) in
  if (length centred =? 0) || forallb (λ x, negb (Qeq_bool x 0)) (scale_ s)
  then Ok scaled else Raise ValueError.

Definition feature_recommendation (track_data : Series) (score : Q)
    : result FeatureRecommendation.t :=
  let* id := getitem_str track_data "id" in
  Ok {| FeatureRecommendation.id := id;
        FeatureRecommendation.name := get_str track_data "name" "Unknown";
        FeatureRecommendation.artists := get_str track_data "artists" "Unknown";
        FeatureRecommendation.similarity_score := score;
        FeatureRecommendation.danceability := get_num track_data "danceability" (Some 0%Q);
        FeatureRecommendation.energy := get_num track_data "energy" (Some 0%Q);
        FeatureRecommendation.valence := get_num track_data "valence" (Some 0%Q);
        FeatureRecommendation.tempo := get_num track_data "tempo" (Some 0%Q) |}.

(** The query vector handed to the similarity engine. *)
Definition feature_query (self : t) (danceability energy valence tempo : Q)
    : result Vec :=
  let* query_vector := raw_query_vector self danceability energy valence tempo in
  let* s := match IndexBuilder.scaler (index_builder self) with
            | Some s => Ok s
            | None => Raise AttributeError
            end in
  let* query_vector := standardize s query_vector in
  let* weighted :=
    SimilarityComputer.apply_weights (similarity_computer self) [query_vector]
      (feature_columns (config self)) in
  match weighted with
  | q :: _ => Ok q
  | [] => Raise IndexError
  end.

Definition get_recommendations_by_features (self : t)
    (danceability energy valence tempo : Q) (n_recommendations : Z)
    : result (list FeatureRecommendation.t) :=
  let* query_vector := feature_query self danceability energy valence tempo in
  let* '(top_k_indices, top_k_scores) :=
    SimilarityComputer.get_top_k_similar query_vector
      (weighted_feature_matrix self) n_recommendations None in
  traverse (λ p, let* track_data := iloc (df self) p.1 in
                 feature_recommendation track_data p.2)
    (zip top_k_indices top_k_scores).

End Requests.

End MusicRecommender.

(** ** data_cleaner.py

    The text cells of a table are never missing, so the replacement of
    missing track names has nothing to replace; the numeric columns are
    numeric already, so their conversion changes nothing. *)

Module DataCleaner.

Record Stats := {
  original_count : nat;
  final_count : nat;
  removed_count : Z;
  removal_percentage : Q
}.

(** [cleaning_stats] is [None] (the empty dictionary) until a cleaning
    has completed. *)
Record t := { cleaning_stats : option Stats }.

Definition __init__ : t := {| cleaning_stats := None |}.










Definition get_cleaning_report (self : t) : option Stats := cleaning_stats self.

End DataCleaner.

(** ** feature_engineer.py *)

Module FeatureEngineer.

(** [x.clip(lo, hi)] *)
Definition clip (x lo hi : Q) : Q :=
  if Qlt_bool x lo then lo else if Qlt_bool hi x then hi else x.

(** One cell of a [_normalized] column; a missing value stays missing. *)
Definition scaled (lo hi : Q) (cell : option Q) : option Q :=
  (λ x, (clip x lo hi - lo) / (hi - lo))%Q <$> cell.

(** [if feature in df.columns: ...] for a numeric column.  A text
    column cannot be clipped, and is not expected under these names;
    the statements exclude it. *)
Definition normalize_feature (df : DataFrame) (feature : string) (lo hi : Q)
    : DataFrame :=
  match num_cols df !! feature with
  | Some c => with_column df (feature +:+ "_normalized") (scaled lo hi <$> c)
  | None => df
  end.

Definition _normalize_features (df : DataFrame) : DataFrame :=
  normalize_feature (normalize_feature df "loudness" (-60) 0) "tempo" 0 250.

(** An operation on two columns, cell by cell; a missing operand gives
    a missing value. *)
Definition num2 (f : Q → Q → Q) (a b : option Q) : option Q :=
  match a, b with
  | Some x, Some y => Some (f x y)
  | _, _ => None
  end.

Definition col2 (df : DataFrame) (f : option Q → option Q → option Q)
    (a b : list (option Q)) : list (option Q) :=
  (λ i, f (default None (a !! i)) (default None (b !! i)))
    <$> seq 0 (n_rows df).

(** [(acousticness / (1 - instrumentalness + 0.001)).clip(0, 10)]: a
    division by zero gives an infinite value, clipped to a bound, or a
    missing one for [0 / 0]. *)
Definition acoustic_ratio (a i : option Q) : option Q :=
  match a, i with
  | Some a, Some i =>
      let den := (1 - i + 1 / 1000)%Q in
      if Qeq_bool den 0
      then if Qlt_bool 0 a then Some 10%Q
           else if Qlt_bool a 0 then Some 0%Q else None
      else Some (clip (a / den) 0 10)
  | _, _ => None
  end.

(** [if x in df.columns and y in df.columns: df[new] = f(df[x], df[y])]
    for numeric columns; the statements exclude a text column under
    these names. *)
Definition derive2 (df : DataFrame) (x y new : string)
    (f : option Q → option Q → option Q) : DataFrame :=
  match num_cols df !! x, num_cols df !! y with
  | Some a, Some b => with_column df new (col2 df f a b)
  | _, _ => df
  end.

(** [if x in df.columns: df[new] = f(df[x])] *)
Definition derive1 (df : DataFrame) (x new : string) (f : Q → Q) : DataFrame :=
  match num_cols df !! x with
  | Some a => with_column df new (fmap f <$> a)
  | None => df
  end.

Definition _create_derived_features (df : DataFrame) : DataFrame :=
  let df := derive2 df "energy" "danceability" "energy_danceability"
              (num2 Qmult) in
  let df := derive2 df "valence" "energy" "mood_score"
              (num2 (λ v e, (v + e) / 2)%Q) in
  let df := derive2 df "acousticness" "instrumentalness" "acoustic_ratio"
              acoustic_ratio in
  let df := derive1 df "instrumentalness" "vocal_presence" (λ x, 1 - x)%Q in
  let df := derive2 df "energy" "loudness_normalized" "intensity"
              (num2 (λ e l, (e + l) / 2)%Q) in
  derive2 df "energy" "acousticness" "chill_factor"
    (num2 (λ e a, (1 - e) * a)%Q).

(** [(release_year // 10) * 10] *)
Definition release_decade (year : Z) : Z := (year / 10 * 10)%Z.

Definition categorize_era (year : Z) : string :=
  if (year <? 1960)%Z then "vintage"
  else if (year <? 1980)%Z then "60s-70s"
  else if (year <? 2000)%Z then "80s-90s"
  else if (year <? 2010)%Z then "2000s"
  else if (year <? 2020)%Z then "2010s"
  else "2020s".

End FeatureEngineer.

(** ** A small catalog

    Four tracks, used to run the code on concrete input.  The columns
    are chosen so that every standard deviation is rational. *)

Definition demo_df : DataFrame := {|
  n_rows := 4;
  index := [0; 1; 2; 3];
  num_cols := list_to_map
    [ ("popularity", [Some 80; Some 60; Some 40; Some 20]);
      ("release_year", [Some 1975; Some 1980; Some 1976; None]);
      ("energy", [Some (9 # 10); Some (9 # 10); Some (1 # 10); Some (1 # 10)]);
      ("loudness", [Some 17; Some 3; Some 11; Some 9]) ]%Q;
  str_cols := list_to_map
    [ ("id", ["t1"; "t2"; "t3"; "t4"]);
      ("name", ["One"; "Two"; "Three"; "Four"]);
      ("artists", ["Queen"; "Queen"; "Abba"; "Abba"]) ]%string
|}.

(** A raw table of five tracks: the third repeats the id of the first,
    the fourth lacks its energy, the second has tempo zero and the
    fifth lasts five seconds. *)
Definition demo_raw : DataFrame := {|
  n_rows := 5;
  index := [0; 1; 2; 3; 4];
  num_cols := list_to_map
    [ ("danceability", [Some (1 # 2); Some (1 # 2); Some (1 # 2); Some (1 # 2); Some (1 # 2)]);
      ("energy", [Some (3 # 4); Some (1 # 2); Some (1 # 2); None; Some (1 # 4)]);
      ("loudness", [Some (-5); Some (-70); Some (-6); Some (-7); Some 3]);
      ("speechiness", [Some (1 # 10); Some (1 # 10); Some (1 # 10); Some (1 # 10); Some (1 # 10)]);
      ("acousticness", [Some (1 # 5); Some 1; Some 0; Some (1 # 2); Some (1 # 2)]);
      ("instrumentalness", [Some 0; Some 1; Some (1 # 2); Some (1 # 2); Some (1 # 2)]);
      ("liveness", [Some (1 # 10); Some (1 # 10); Some (1 # 10); Some (1 # 10); Some (1 # 10)]);
      ("valence", [Some (1 # 4); Some (1 # 2); Some (1 # 2); Some (1 # 2); Some 1]);
      ("tempo", [Some 120; Some 0; Some 100; Some 90; Some 300]);
      ("duration_ms", [Some 200000; Some 200000; Some 200000; Some 200000; Some 5000]);
      ("popularity", [Some (101 # 2); None; Some 30; Some 20; Some 10]) ]%Q;
  str_cols := list_to_map
    [ ("id", ["r1"; "r2"; "r1"; "r3"; "r4"]);
      ("name", ["One"; "Two"; "One again"; "Three"; "Four"]) ]%string
|}.

Definition empty_disk : Disk := {|
  feature_matrix_npy := None;
  track_index_json := None;
  model_config_json := None
|}.

(** The deployment path: build the index of [df], save it, and start a
    recommender from the saved files and the same table. *)
Definition deploy `{Sqrt} (df : DataFrame) (feature_columns : list string)
    : result MusicRecommender.t :=
  let* '(builder, (feature_matrix, track_index)) :=
    IndexBuilder.build_index IndexBuilder.__init__ df feature_columns in
  let '(disk, saved) :=
    IndexBuilder.save_index builder feature_matrix track_index feature_columns
      None empty_disk in
  let* _ := saved in
  MusicRecommender.__init__ disk (Some df).

(** Files that disagree with one another: two matrix rows for one
    indexed track, and no statistics for the one feature column. *)
Definition corrupt_matrix : Matrix := [[1]; [-1]]%Q.

Definition corrupt_index : TrackIndex := {|
  id_to_idx := {[ "t1"%string := 0 ]};
  idx_to_id := {[ 0 := "t1"%string ]};
  track_metadata := ∅
|}.

Definition corrupt_config : Config := {|
  feature_columns := ["energy"%string];
  n_tracks := 2;
  cfg_n_features := 1;
  scaler_mean := [];
  scaler_scale := []
|}.

Definition corrupt_disk : Disk := {|
  feature_matrix_npy := Some corrupt_matrix;
  track_index_json := Some corrupt_index;
  model_config_json := Some corrupt_config
|}.

(** The value of a computation known to succeed. *)
Definition from_Ok {A} (d : A) (m : result A) : A :=
  match m with Ok a => a | Raise _ => d end.

Definition no_recommender : MusicRecommender.t := {|
  MusicRecommender.index_builder := IndexBuilder.__init__;
  MusicRecommender.feature_matrix := [];
  MusicRecommender.track_index :=
    {| id_to_idx := ∅; idx_to_id := ∅; track_metadata := ∅ |};
  MusicRecommender.config :=
    {| feature_columns := []; n_tracks := 0; cfg_n_features := 0;
       scaler_mean := []; scaler_scale := [] |};
  MusicRecommender.df :=
    {| n_rows := 0; index := []; num_cols := ∅; str_cols := ∅ |};
  MusicRecommender.similarity_computer := SimilarityComputer.__init__ None;
  MusicRecommender.weighted_feature_matrix := []
|}.

(** The recommender deployed on the small catalog with the given
    feature columns. *)
Definition demo_recommender (feature_columns : list string) : MusicRecommender.t :=
  from_Ok no_recommender (deploy (H := sqrt_fix) demo_df feature_columns).

(** ** Vocabulary of the statements *)

(** A numeric column as it enters the normalization: missing cells
    replaced by zero. *)
Definition imputed (df : DataFrame) (i : nat) (name : string) : Q :=
  default 0%Q (get_num {| frame := df; pos := i |} name None).

Definition imputed_column (df : DataFrame) (name : string) : Vec :=
  (λ i, imputed df i name) <$> seq 0 (n_rows df).

(** The standardized table as the specification words it: each cell,
    a missing one counting as zero, minus its column's mean, divided by
    its column's standard deviation (by one in a constant column). *)
Definition column_mean (df : DataFrame) (name : string) : Q :=
  np_mean (imputed_column df name).

Definition column_scale `{Sqrt} (df : DataFrame) (name : string) : Q :=
  scale_of_var (np_var (imputed_column df name)).

Definition standardized `{Sqrt} (df : DataFrame) (cols : list string) : Matrix :=
  (λ i, (λ name, (imputed df i name - column_mean df name)
                 / column_scale df name)%Q <$> cols)
    <$> seq 0 (n_rows df).

(** The synthetic vector as the specification words it: the caller's
    values for the four named features, [tempo / 250] for
    [tempo_normalized], and for every other column the median of its
    raw (pre-normalization) values in the catalog. *)
Definition claimed_query_entry (self : MusicRecommender.t)
    (danceability energy valence tempo : Q) (feature : string) : result Q :=
  if String.eqb feature "danceability" then Ok danceability
  else if String.eqb feature "energy" then Ok energy
  else if String.eqb feature "valence" then Ok valence
  else if String.eqb feature "tempo" then Ok tempo
  else if String.eqb feature "tempo_normalized" then Ok (tempo / 250)%Q
  else match np_median (imputed_column (MusicRecommender.df self) feature) with
       | Some m => Ok m
       | None => Raise ValueError
       end.

Definition claimed_raw_query_vector (self : MusicRecommender.t)
    (danceability energy valence tempo : Q) : result Vec :=
  traverse (claimed_query_entry self danceability energy valence tempo)
    (feature_columns (MusicRecommender.config self)).

(** Order of two positions of [a] under a stable ascending sort: by
    value, and by position among equal values. *)
Definition stable_le (a : Vec) : relation nat := λ i j,
  (np_get a i <= np_get a j)%Q ∧ ((np_get a j <= np_get a i)%Q → i < j).

(** The exclusion list only names rows of an [n]-row matrix. *)
Definition indices_in_range (n : nat) (o : option (list Z)) : bool :=
  forallb (λ i, (- Z.of_nat n <=? i) && (i <? Z.of_nat n))%Z (default [] o).

(** Number of elements of [l[:k]] for a list of [n] elements. *)
Definition slice_count (n : nat) (k : Z) : nat :=
  Z.to_nat (if (0 <=? k)%Z then Z.min k (Z.of_nat n)
            else Z.max 0 (Z.of_nat n + k)).

(** Rows of equal score are listed by ascending, respectively
    descending, row index. *)
Definition ties_ascending (idxs : list nat) (scores : Vec) : Prop :=
  ∀ p1 p2 i j s t, p1 < p2 →
    idxs !! p1 = Some i → idxs !! p2 = Some j →
    scores !! p1 = Some s → scores !! p2 = Some t →
    (s == t)%Q → i < j.

Definition ties_descending (idxs : list nat) (scores : Vec) : Prop :=
  ∀ p1 p2 i j s t, p1 < p2 →
    idxs !! p1 = Some i → idxs !! p2 = Some j →
    scores !! p1 = Some s → scores !! p2 = Some t →
    (s == t)%Q → j < i.


(** Every cell of column [name], if the table has this numeric column,
    satisfies [P]. *)
Definition cells_satisfy (df : DataFrame) (name : string)
    (P : option Q → Prop) : Prop :=
  ∀ c, num_cols df !! name = Some c → Forall P c.


(** The cell is missing or holds a value between [lo] and [hi]. *)
Definition within_or_missing (lo hi : Q) (cell : option Q) : Prop :=
  ∀ x, cell = Some x → (lo <= x <= hi)%Q.

(** Two outcomes agree: the same exception, or values related by [R]. *)
Inductive result_rel {A} (R : relation A) : relation (result A) :=
  | rel_Ok a b : R a b → result_rel R (Ok a) (Ok b)
  | rel_Raise e : result_rel R (Raise e) (Raise e).

(** Equality of matrices, entry by entry. *)
Definition Meq : relation Matrix := Forall2 (Forall2 Qeq).

(** [y] is the position of [x] in the range from [lo] to [hi], on a
    scale from 0 to 1, a value outside the range being taken to the
    nearer end. *)
Definition clipped_to_unit (lo hi x y : Q) : Prop :=
  (0 <= y <= 1)%Q
  ∧ ((lo <= x <= hi)%Q → y = ((x - lo) / (hi - lo))%Q)
  ∧ ((x <= lo)%Q → (y == 0)%Q)
  ∧ ((hi <= x)%Q → (y == 1)%Q).

(** Column [c'] is column [c] cell by cell: missing where [c] is
    missing, and the position of the value in the range elsewhere. *)
Definition normalized_cells (lo hi : Q) (c c' : list (option Q)) : Prop :=
  Forall2 (λ cell cell',
             match cell, cell' with
             | None, None => True
             | Some x, Some y => clipped_to_unit lo hi x y
             | _, _ => False
             end) c c'.

(** Column [c] has [n] cells; in a row where columns [a] and [b] both
    hold a value, its cell is related to the two values by [R], and in
    any other row its cell is missing. *)
Definition combines_by (n : nat) (R : Q → Q → option Q → Prop)
    (a b c : list (option Q)) : Prop :=
  length c = n
  ∧ ∀ i, i < n →
      match a !! i, b !! i with
      | Some (Some x), Some (Some y) => ∃ cell, c !! i = Some cell ∧ R x y cell
      | _, _ => c !! i = Some None
      end.

(** [cell] is the quotient of [x] by [1 - y + 0.001], taken into the
    range from 0 to 10; where the divisor is zero the quotient is
    infinite and taken to an end of the range, or undefined and
    missing. *)
Definition acoustic_ratio_of (x y : Q) (cell : option Q) : Prop :=
  let den := (1 - y + 1 / 1000)%Q in
  (¬ (den == 0)%Q →
     ∃ z, cell = Some z
          ∧ ((0 <= x / den <= 10)%Q → z = (x / den)%Q)
          ∧ ((x / den <= 0)%Q → (z == 0)%Q)
          ∧ ((10 <= x / den)%Q → (z == 10)%Q))
  ∧ ((den == 0)%Q →
     ((0 < x)%Q → cell = Some 10%Q)
     ∧ ((x < 0)%Q → cell = Some 0%Q)
     ∧ ((x == 0)%Q → cell = None)).

(** * Proofs *)

(** ** The stable argsort meets numpy's contract *)

Lemma insert_pos_perm a i s : insert_pos a i s ≡ₚ i :: s.
Proof.
  induction s as [|j s IH]; simpl; [done|].
  destruct (Qle_bool _ _); [done|].
  rewrite IH. apply perm_swap.
Qed.

Lemma foldr_insert_pos_perm a l : foldr (insert_pos a) [] l ≡ₚ l.
Proof.
  induction l as [|i l IH]; simpl; [done|].
  by rewrite insert_pos_perm, IH.
Qed.

Lemma stable_argsort_perm a : stable_argsort a ≡ₚ seq 0 (length a).
Proof. apply foldr_insert_pos_perm. Qed.

Lemma Qle_bool_false x y : Qle_bool x y = false → (y < x)%Q.
Proof.
  intros E. apply Qnot_le_lt. intros L.
  apply Qle_bool_iff in L. congruence.
Qed.

Lemma insert_pos_stable a i s :
  StronglySorted (stable_le a) s → Forall (λ j, i < j) s →
  StronglySorted (stable_le a) (insert_pos a i s).
Proof.
  induction 1 as [|j s Hs IH Hj]; intros Hi; simpl.
  { repeat constructor. }
  apply Forall_cons in Hi as [Hij Hi].
  destruct (Qle_bool (np_get a i) (np_get a j)) eqn:E.
  - apply Qle_bool_iff in E.
    constructor; [by constructor|].
    constructor; [by split|].
    rewrite Forall_forall in Hj, Hi. apply Forall_forall. intros x Hx.
    destruct (Hj x Hx) as [Hjx _]. split; [|auto].
    by apply Qle_trans with (np_get a j).
  - apply Qle_bool_false in E.
    constructor; [auto|].
    rewrite insert_pos_perm. constructor; [|done].
    split; [by apply Qlt_le_weak|].
    intros L. by destruct (Qlt_not_le _ _ E).
Qed.

Lemma foldr_insert_pos_stable a l :
  StronglySorted lt l → StronglySorted (stable_le a) (foldr (insert_pos a) [] l).
Proof.
  induction 1 as [|i l Hl IH Hi]; simpl; [constructor|].
  apply insert_pos_stable; [done|].
  by rewrite foldr_insert_pos_perm.
Qed.

Lemma seq_StronglySorted j n : StronglySorted lt (seq j n).
Proof.
  revert j. induction n as [|n IH]; intros j; simpl; constructor; [done|].
  apply Forall_forall. intros x Hx. apply elem_of_seq in Hx. lia.
Qed.

Lemma stable_argsort_stable a : StronglySorted (stable_le a) (stable_argsort a).
Proof. apply foldr_insert_pos_stable, seq_StronglySorted. Qed.

Lemma stable_argsort_sorted a :
  StronglySorted Qle (np_get a <$> stable_argsort a).
Proof.
  eapply StronglySorted_fmap, stable_argsort_stable.
  by intros i j [L _].
Qed.

(** One argsort that meets numpy's contract.  It is the one the
    examples are run with; numpy's own, called with its default kind,
    may return equal values in another order. *)
Definition stable : ArgSort := {|
  argsort := stable_argsort;
  argsort_perm := stable_argsort_perm;
  argsort_sorted := stable_argsort_sorted
|}.

Lemma insert_pos_sorted a i s :
  StronglySorted Qle (np_get a <$> s) →
  StronglySorted Qle (np_get a <$> insert_pos a i s).
Proof.
  induction s as [|j s IH]; intros Hs; simpl.
  { repeat constructor. }
  rewrite fmap_cons in Hs. apply StronglySorted_cons in Hs as [Hj Hs].
  destruct (Qle_bool (np_get a i) (np_get a j)) eqn:E.
  - apply Qle_bool_iff in E. rewrite !fmap_cons.
    constructor; [by constructor|].
    constructor; [done|].
    eapply Forall_impl; [exact Hj|]. intros x Hx. simpl in *.
    by apply Qle_trans with (np_get a j).
  - apply Qle_bool_false in E. rewrite fmap_cons.
    constructor; [auto|].
    rewrite insert_pos_perm, fmap_cons. constructor; [|done].
    by apply Qlt_le_weak.
Qed.

Lemma backward_argsort_perm a : backward_argsort a ≡ₚ seq 0 (length a).
Proof.
  unfold backward_argsort. by rewrite foldr_insert_pos_perm, reverse_Permutation.
Qed.

Lemma backward_argsort_sorted a :
  StronglySorted Qle (np_get a <$> backward_argsort a).
Proof.
  unfold backward_argsort.
  induction (reverse (seq 0 (length a))) as [|i l IH]; simpl; [constructor|].
  by apply insert_pos_sorted.
Qed.

(** Another argsort that meets numpy's contract. *)
Definition backward : ArgSort := {|
  argsort := backward_argsort;
  argsort_perm := backward_argsort_perm;
  argsort_sorted := backward_argsort_sorted
|}.

(** ** Lists *)

Lemma StronglySorted_reverse {A} (R : relation A) l :
  StronglySorted R l → StronglySorted (flip R) (reverse l).
Proof.
  induction 1 as [|x l Hl IH Hx]; [constructor|].
  rewrite reverse_cons. apply StronglySorted_app_2; [|done|repeat constructor].
  intros y z Hy Hz. apply list_elem_of_singleton in Hz as ->.
  rewrite elem_of_reverse in Hy. rewrite Forall_forall in Hx.
  unfold flip. auto.
Qed.

Lemma StronglySorted_take {A} (R : relation A) n l :
  StronglySorted R l → StronglySorted R (take n l).
Proof.
  intros Hl. rewrite <-(take_drop n l) in Hl.
  by apply StronglySorted_app_1_l in Hl.
Qed.

Lemma StronglySorted_lookup {A} (R : relation A) l p1 p2 x y :
  StronglySorted R l → p1 < p2 → l !! p1 = Some x → l !! p2 = Some y → R x y.
Proof.
  intros Hl. revert p1 p2. induction Hl as [|z l Hl IH Hz]; intros p1 p2 Hp H1 H2.
  { by rewrite lookup_nil in H1. }
  destruct p2 as [|p2]; [lia|]. destruct p1 as [|p1]; simpl in *.
  - simplify_eq. rewrite Forall_forall in Hz. apply Hz.
    by eapply list_elem_of_lookup_2.
  - eapply IH; [|done..]. lia.
Qed.

Lemma py_slice_to_length {A} (l : list A) k :
  length (py_slice_to l k) = slice_count (length l) k.
Proof.
  unfold py_slice_to, slice_count.
  destruct (0 <=? k)%Z eqn:E; rewrite length_take; lia.
Qed.

Lemma StronglySorted_py_slice_to {A} (R : relation A) l k :
  StronglySorted R l → StronglySorted R (py_slice_to l k).
Proof. unfold py_slice_to. destruct (0 <=? k)%Z; apply StronglySorted_take. Qed.

Lemma py_slice_to_all {A} (l : list A) k :
  (Z.of_nat (length l) ≤ k)%Z → py_slice_to l k = l.
Proof.
  intros Hk. unfold py_slice_to.
  destruct (0 <=? k)%Z eqn:E; [|lia]. apply take_ge. lia.
Qed.

(** ** Traversals *)

Lemma traverse_Ok {A B} (f : A → result B) (g : A → B) l :
  (∀ x, x ∈ l → f x = Ok (g x)) → traverse f l = Ok (g <$> l).
Proof.
  induction l as [|x l IH]; intros Hf; simpl; [done|].
  rewrite (Hf x), IH; [done| |]; set_solver.
Qed.

Lemma traverse_Raise {A B} (f : A → result B) e l :
  (∀ x e', f x = Raise e' → e' = e) →
  (∃ x, x ∈ l ∧ is_Ok (f x) = false) →
  traverse f l = Raise e.
Proof.
  intros He. induction l as [|x l IH]; intros (y & Hy & Hfy).
  { by apply elem_of_nil in Hy. }
  simpl. destruct (f x) as [b|e'] eqn:Ex; simpl.
  - rewrite IH; [done|]. exists y. split; [|done].
    apply elem_of_cons in Hy as [->|Hy]; [|done]. by rewrite Ex in Hfy.
  - by rewrite (He _ _ Ex).
Qed.


(** ** Assignment through an index list *)

Lemma np_index_ok n i :
  (- Z.of_nat n ≤ i < Z.of_nat n)%Z → ∃ p, np_index n i = Ok p ∧ p < n.
Proof.
  intros Hi. unfold np_index.
  destruct ((0 <=? i) && (i <? Z.of_nat n))%Z eqn:E1.
  { exists (Z.to_nat i). split; [done|lia]. }
  destruct ((- Z.of_nat n <=? i) && (i <? 0))%Z eqn:E2.
  { exists (Z.to_nat (Z.of_nat n + i)). split; [done|lia]. }
  lia.
Qed.

Lemma np_setitems_length a idxs v a' :
  np_setitems a idxs v = Ok a' → length a' = length a.
Proof.
  revert a. induction idxs as [|i idxs IH]; intros a; simpl.
  { by intros [= ->]. }
  destruct (np_index (length a) i) as [p|e]; simpl; [|done].
  intros Ha'. apply IH in Ha'. by rewrite length_insert in Ha'.
Qed.

Lemma np_setitems_ok a idxs v :
  Forall (λ i, - Z.of_nat (length a) ≤ i < Z.of_nat (length a))%Z idxs →
  ∃ a', np_setitems a idxs v = Ok a'.
Proof.
  revert a. induction idxs as [|i idxs IH]; intros a Hall; simpl; [by eexists|].
  apply Forall_cons in Hall as [Hi Hall].
  destruct (np_index_ok _ _ Hi) as (p & -> & _); simpl.
  apply IH. by rewrite length_insert.
Qed.

Lemma np_index_lt n i p : np_index n i = Ok p → p < n.
Proof.
  unfold np_index.
  destruct ((0 <=? i) && (i <? Z.of_nat n))%Z eqn:E1; [intros [= <-]; lia|].
  destruct ((- Z.of_nat n <=? i) && (i <? 0))%Z eqn:E2; [|done].
  intros [= <-]. lia.
Qed.

Lemma np_get_insert a p p' v :
  p < length a → np_get (<[p' := v]> a) p = if decide (p' = p) then v else np_get a p.
Proof.
  intros Hp. unfold np_get. rewrite !nth_lookup.
  destruct (decide (p' = p)) as [->|Hne].
  - by rewrite list_lookup_insert_eq.
  - by rewrite list_lookup_insert_ne.
Qed.

Lemma np_setitems_keeps a idxs v a' p :
  np_setitems a idxs v = Ok a' → p < length a → np_get a p = v →
  np_get a' p = v.
Proof.
  revert a. induction idxs as [|i idxs IH]; intros a; simpl.
  { by intros [= ->]. }
  destruct (np_index (length a) i) as [p'|e]; simpl; [|done].
  intros Ha' Hp Hv. apply (IH _ Ha').
  - by rewrite length_insert.
  - rewrite np_get_insert by done. by destruct (decide _).
Qed.

(** Every position named by the index list holds the assigned value. *)
Lemma np_setitems_sets a idxs v a' i p :
  np_setitems a idxs v = Ok a' → i ∈ idxs → np_index (length a) i = Ok p →
  np_get a' p = v.
Proof.
  revert a. induction idxs as [|i' idxs IH]; intros a Ha' Hi Hp.
  { by apply elem_of_nil in Hi. }
  simpl in Ha'.
  destruct (np_index (length a) i') as [p'|e] eqn:Ep'; simpl in Ha'; [|done].
  pose proof (np_index_lt _ _ _ Hp) as Hlt.
  apply elem_of_cons in Hi as [<-|Hi].
  - assert (p' = p) as -> by congruence.
    apply (np_setitems_keeps _ _ _ _ _ Ha'); [by rewrite length_insert|].
    rewrite np_get_insert by done. by rewrite decide_True.
  - apply (IH _ Ha' Hi). by rewrite length_insert.
Qed.

(** ** The similarity engine *)

Section TopK.
Context `{Sqrt, ArgSort}.

Lemma compute_similarity_ok q M :
  check_pairwise_arrays [q] M = true →
  ∃ sims, SimilarityComputer.compute_similarity q M = Ok sims
          ∧ length sims = length M.
Proof.
  intros Hc. unfold SimilarityComputer.compute_similarity, cosine_similarity.
  rewrite Hc. simpl. eexists. split; [done|]. by rewrite length_fmap.
Qed.

(** On well-shaped input the ranking is the reversed argsort of the
    similarities, cut at [k]; the similarity of an excluded row is -1. *)
Lemma top_k_eval q M k excl :
  check_pairwise_arrays [q] M = true →
  indices_in_range (length M) excl = true →
  ∃ sims, length sims = length M
    ∧ (∀ i p, i ∈ default [] excl → np_index (length M) i = Ok p →
         np_get sims p = (-1)%Q)
    ∧ SimilarityComputer.get_top_k_similar q M k excl =
        Ok (py_slice_to (reverse (argsort sims)) k,
            np_get sims <$> py_slice_to (reverse (argsort sims)) k).
Proof.
  intros Hc Hrange. unfold SimilarityComputer.get_top_k_similar.
  destruct (compute_similarity_ok q M Hc) as (sims & -> & Hlen). simpl.
  destruct (truthy_list excl) eqn:Et; simpl.
  2: { exists sims. split; [done|]. split; [|done].
       intros i p Hi. destruct excl as [[|??]|]; simpl in *;
         try discriminate; by apply elem_of_nil in Hi. }
  destruct (np_setitems_ok sims (default [] excl) (-1)%Q) as [sims' E].
  { unfold indices_in_range in Hrange. rewrite forallb_forall in Hrange.
    apply Forall_forall. intros i Hi. rewrite Hlen.
    apply list_elem_of_In, Hrange in Hi. lia. }
  rewrite E. simpl. exists sims'. split; [|split; [|done]].
  - apply np_setitems_length in E. congruence.
  - intros i p Hi Hp. rewrite <-Hlen in Hp.
    by apply (np_setitems_sets _ _ _ _ _ _ E Hi).
Qed.

(** When [k] reaches the number of rows, every row is returned, an
    excluded one too, with score -1. *)
Lemma excluded_row_returned q M k excl i p :
  check_pairwise_arrays [q] M = true →
  indices_in_range (length M) excl = true →
  i ∈ default [] excl → np_index (length M) i = Ok p →
  (Z.of_nat (length M) ≤ k)%Z →
  ∃ idxs scores,
    SimilarityComputer.get_top_k_similar q M k excl = Ok (idxs, scores)
    ∧ ∃ n, idxs !! n = Some p ∧ scores !! n = Some (-1)%Q.
Proof.
  intros Hc Hrange Hi Hp Hk.
  destruct (top_k_eval q M k excl Hc Hrange) as (sims & Hlen & Hexcl & ->).
  eexists _, _. split; [done|].
  assert (p ∈ py_slice_to (reverse (argsort sims)) k) as Hin.
  { rewrite py_slice_to_all.
    - rewrite elem_of_reverse, (argsort_perm sims), elem_of_seq, Hlen.
      apply np_index_lt in Hp. lia.
    - rewrite length_reverse, (Permutation_length (argsort_perm sims)),
        length_seq. lia. }
  apply list_elem_of_lookup in Hin as [n Hn]. exists n. split; [done|].
  by rewrite list_lookup_fmap, Hn, <-(Hexcl i p Hi Hp).
Qed.

Lemma ranking_sorted sims k :
  StronglySorted (flip Qle)
    (np_get sims <$> py_slice_to (reverse (argsort sims)) k).
Proof.
  eapply StronglySorted_fmap with (R1 := flip (λ i j, np_get sims i <= np_get sims j)%Q).
  { by intros i j. }
  apply StronglySorted_py_slice_to, StronglySorted_reverse.
  pose proof (argsort_sorted sims) as Hs.
  remember (argsort sims) as l eqn:El. clear El.
  induction l as [|i l IH]; [constructor|].
  rewrite fmap_cons in Hs. apply StronglySorted_cons in Hs as [Hi Hs].
  constructor; [auto|]. by rewrite Forall_fmap in Hi.
Qed.

Lemma ranking_length sims k :
  length (py_slice_to (reverse (argsort sims)) k) = slice_count (length sims) k.
Proof.
  rewrite py_slice_to_length, length_reverse.
  by rewrite (Permutation_length (argsort_perm sims)), length_seq.
Qed.

(** C7, amended.  On a well-shaped call, [get_top_k_similar] returns
    [min(k, catalog_size)] rows when [k >= 0] and
    [max(0, catalog_size + k)] rows when [k < 0] (the slice [[:k]] then
    drops the last [-k] rows of the ranking); the scores are in
    non-increasing order in both cases. *)
Theorem top_k_count_and_order q M k excl :
  check_pairwise_arrays [q] M = true →
  indices_in_range (length M) excl = true →
  ∃ idxs scores,
    SimilarityComputer.get_top_k_similar q M k excl = Ok (idxs, scores)
    ∧ ((0 ≤ k)%Z → length idxs = Z.to_nat (Z.min k (Z.of_nat (length M))))
    ∧ ((k < 0)%Z → length idxs = Z.to_nat (Z.max 0 (Z.of_nat (length M) + k)))
    ∧ length scores = length idxs
    ∧ StronglySorted (flip Qle) scores.
Proof.
  intros Hc Hrange.
  destruct (top_k_eval q M k excl Hc Hrange) as (sims & Hlen & _ & ->).
  eexists _, _. split; [done|].
  rewrite length_fmap, ranking_length, Hlen. unfold slice_count.
  repeat split; [| |apply ranking_sorted].
  - intros Hk. destruct (0 <=? k)%Z eqn:E; [done|lia].
  - intros Hk. destruct (0 <=? k)%Z eqn:E; [lia|done].
Qed.

End TopK.

(** ** The recommender's loop *)

Lemma recommendation_artists track_data artist score r :
  MusicRecommender.recommendation track_data artist score = Ok r →
  Recommendation.artists r = artist.
Proof.
  unfold MusicRecommender.recommendation.
  destruct (getitem_str _ _); simpl; [|done].
  destruct (py_int _); simpl; [|done].
  destruct (get_num track_data "release_year" None); simpl.
  - destruct (py_int _); simpl; [|done]. by intros [= <-].
  - by intros [= <-].
Qed.

(** With the diversity filter on, the loop keeps the artists of the
    accepted tracks distinct and recorded in [seen_artists]. *)
Lemma collect_distinct_artists self n mp yr cands :
  ∀ recs seen out,
    MusicRecommender.collect self n true mp yr cands recs seen = Ok out →
    NoDup (Recommendation.artists <$> recs) →
    (∀ a, a ∈ Recommendation.artists <$> recs → a ∈ seen) →
    NoDup (Recommendation.artists <$> out).
Proof.
  induction cands as [|[idx score] cands IH]; intros recs seen out; simpl.
  { by intros [= <-]. }
  destruct (iloc _ idx) as [td|]; simpl; [|done].
  destruct (MusicRecommender.below_min_popularity td mp); [by apply IH|].
  destruct (MusicRecommender.outside_year_range td yr); [by apply IH|].
  case_bool_decide as Hseen; simpl; [by apply IH|].
  destruct (MusicRecommender.recommendation _ _ _) as [r|] eqn:Er; simpl; [|done].
  apply recommendation_artists in Er.
  intros Hout Hnd Hsub.
  assert (NoDup (Recommendation.artists <$> recs ++ [r])) as Hnd'.
  { rewrite fmap_app. apply NoDup_app. split; [done|]. split.
    - intros a Ha Hr. apply list_elem_of_singleton in Hr as ->.
      rewrite Er in Ha. by apply Hseen, Hsub.
    - apply NoDup_singleton. }
  destruct (n <=? _)%Z; [by injection Hout as <-|].
  eapply IH; [done|done|].
  intros a Ha. rewrite fmap_app in Ha. apply elem_of_app in Ha as [Ha|Ha].
  - apply elem_of_union_r. auto.
  - apply list_elem_of_singleton in Ha as ->. rewrite Er.
    apply elem_of_union_l. by apply elem_of_singleton.
Qed.

(** A minimum popularity of zero is a false value: the popularity test
    is skipped, as it is without a minimum. *)
Lemma collect_min_popularity_zero self n d yr cands :
  ∀ recs seen,
    MusicRecommender.collect self n d (Some 0%Z) yr cands recs seen =
    MusicRecommender.collect self n d None yr cands recs seen.
Proof.
  induction cands as [|[idx score] cands IH]; intros recs seen; simpl; [done|].
  destruct (iloc _ idx) as [td|]; simpl; [|done].
  destruct (MusicRecommender.outside_year_range td yr); [by apply IH|].
  destruct (d && _); [by apply IH|].
  destruct (MusicRecommender.recommendation _ _ _) as [r|]; simpl; [|done].
  destruct (n <=? _)%Z; [done|]. apply IH.
Qed.

Section Requests.
Context `{Sqrt, ArgSort}.

(** C8.  With [diversity_filter=True], no two recommendations returned
    by [get_recommendations] have the same artist string. *)
Theorem diversity_filter_distinct_artists self track_id n mp yr recs :
  MusicRecommender.get_recommendations self track_id n true mp yr = Ok recs →
  NoDup (Recommendation.artists <$> recs).
Proof.
  unfold MusicRecommender.get_recommendations.
  destruct (id_to_idx _ !! track_id) as [track_idx|]; [|done].
  destruct (MusicRecommender.weighted_feature_matrix self !! track_idx);
    simpl; [|done].
  destruct (SimilarityComputer.get_top_k_similar _ _ _ _) as [[idxs scores]|];
    simpl; [|done].
  intros Hc. eapply collect_distinct_artists; [done|constructor|].
  intros a Ha. by apply elem_of_nil in Ha.
Qed.

(** C10.  [min_popularity = 0] applies no popularity filter: the result
    (or the exception) is the one obtained with [min_popularity = None],
    for every recommender state, seed and other parameters. *)
Theorem min_popularity_zero_is_none self track_id n d yr :
  MusicRecommender.get_recommendations self track_id n d (Some 0%Z) yr =
  MusicRecommender.get_recommendations self track_id n d None yr.
Proof.
  unfold MusicRecommender.get_recommendations.
  destruct (id_to_idx _ !! track_id) as [track_idx|]; [|done].
  destruct (MusicRecommender.weighted_feature_matrix self !! track_idx);
    simpl; [|done].
  destruct (SimilarityComputer.get_top_k_similar _ _ _ _) as [[idxs scores]|];
    simpl; [|done].
  apply collect_min_popularity_zero.
Qed.

End Requests.

(** ** Weighting *)

Lemma zip_with_mult_twice (u w : Vec) :
  Forall2 Qeq (zip_with Qmult (zip_with Qmult u w) w)
              (zip_with Qmult u ((λ y, y * y)%Q <$> w)).
Proof.
  revert w. induction u as [|x u IH]; intros [|y w]; simpl; constructor; [|done].
  ring.
Qed.

Lemma np_broadcast2_same {A} (f : A → A → A) (a b : list A) :
  length a = length b → np_broadcast2 f a b = Ok (zip_with f a b).
Proof. intros E. unfold np_broadcast2. by rewrite E, Nat.eqb_refl. Qed.

(** One row: weighting twice is weighting with the squares, whatever
    the shapes (broadcast or refused alike). *)
Lemma broadcast_mult_twice (row w : Vec) :
  result_rel (Forall2 Qeq)
    (let* r := np_broadcast2 Qmult row w in np_broadcast2 Qmult r w)
    (np_broadcast2 Qmult row ((λ y, y * y)%Q <$> w)).
Proof.
  destruct (decide (length row = length w)) as [E|E].
  - rewrite (np_broadcast2_same _ row w E). simpl.
    rewrite !np_broadcast2_same
      by (rewrite ?length_zip_with, ?length_fmap; lia).
    constructor. apply zip_with_mult_twice.
  - destruct row as [|x [|x' row]].
    + destruct w as [|y [|y' w]]; simpl in *; try lia; repeat constructor.
    + destruct w as [|y [|y' w]]; simpl in *; try lia.
      * repeat constructor.
      * unfold np_broadcast2; simpl. rewrite length_fmap, Nat.eqb_refl.
        constructor. constructor; [ring|]. constructor; [ring|].
        clear E. induction w as [|z w IH]; simpl; constructor; [ring|done].
    + destruct w as [|y [|y' w]]; simpl in *.
      * constructor.
      * unfold np_broadcast2; simpl. constructor.
        constructor; [ring|]. constructor; [ring|].
        clear E. induction row as [|z row IH]; simpl; constructor; [ring|done].
      * unfold np_broadcast2; simpl.
        change (list_fmap Q Q) with (@fmap list _ Q Q). rewrite length_fmap.
        destruct (length row =? length w) eqn:E'; [apply Nat.eqb_eq in E'; lia|].
        simpl. constructor.
Qed.

Lemma result_rel_Raise_l {A} (R : relation A) e m :
  result_rel R (Raise e) m → m = Raise e.
Proof. by inversion 1. Qed.

Lemma result_rel_Ok_l {A} (R : relation A) a m :
  result_rel R (Ok a) m → ∃ b, m = Ok b ∧ R a b.
Proof. inversion 1; eauto. Qed.

Lemma np_broadcast2_Raise f (a b : Vec) e :
  np_broadcast2 f a b = Raise e → e = ValueError.
Proof.
  unfold np_broadcast2. destruct (_ =? _); [done|].
  destruct a as [|? [|? ?]], b as [|? [|? ?]]; congruence.
Qed.

Lemma traverse_broadcast_Raise f (w : Vec) (M : Matrix) e :
  traverse (λ row, np_broadcast2 f row w) M = Raise e → e = ValueError.
Proof.
  induction M as [|row M IH]; simpl; [done|].
  destruct (np_broadcast2 f row w) eqn:E; simpl.
  - destruct (traverse _ M); simpl; [done|]. intros [= <-]. by apply IH.
  - intros [= <-]. by eapply np_broadcast2_Raise.
Qed.

Lemma traverse_broadcast_twice (w : Vec) (M : Matrix) :
  result_rel Meq
    (let* M1 := traverse (λ row, np_broadcast2 Qmult row w) M in
     traverse (λ row, np_broadcast2 Qmult row w) M1)
    (traverse (λ row, np_broadcast2 Qmult row ((λ y, y * y)%Q <$> w)) M).
Proof.
  induction M as [|row M IH]; simpl; [repeat constructor|].
  pose proof (broadcast_mult_twice row w) as Hrow.
  destruct (np_broadcast2 Qmult row w) as [r|e] eqn:Er; simpl in *.
  2: { apply result_rel_Raise_l in Hrow as ->. constructor. }
  destruct (traverse _ M) as [M1|e1] eqn:EM; simpl in *.
  - destruct (np_broadcast2 Qmult r w) as [r'|e'] eqn:Er'; simpl.
    2: { apply result_rel_Raise_l in Hrow as ->. constructor. }
    apply result_rel_Ok_l in Hrow as (b & -> & Hb). simpl.
    destruct (traverse _ M1) as [M2|e2]; simpl.
    + apply result_rel_Ok_l in IH as (M3 & -> & HM). simpl.
      constructor. by constructor.
    + apply result_rel_Raise_l in IH as ->. constructor.
  - apply result_rel_Raise_l in IH. rewrite IH.
    apply traverse_broadcast_Raise in EM as ->.
    destruct (np_broadcast2 Qmult row (_ <$> w)) as [b|e'] eqn:Eb; simpl;
      [constructor|].
    apply np_broadcast2_Raise in Eb as ->. constructor.
Qed.

(** Weighting twice is weighting with the squared weights, as numbers,
    whatever the shapes: the two are broadcast alike or refused
    alike. *)
Lemma apply_weights_twice_any_shape self M names :
  result_rel Meq
    (let* M1 := SimilarityComputer.apply_weights self M names in
     SimilarityComputer.apply_weights self M1 names)
    (np_mul_rows M
       ((λ name,
           let w := default 1%Q (SimilarityComputer.feature_weights self !! name)
           in (w * w)%Q) <$> names)).
Proof.
  unfold SimilarityComputer.apply_weights, SimilarityComputer.weights.
  set (w := (λ name, default 1%Q _) <$> names).
  replace ((λ name, let w := default 1%Q _ in (w * w)%Q) <$> names)
    with ((λ y, y * y)%Q <$> w) by (unfold w; by rewrite <-list_fmap_compose).
  apply traverse_broadcast_twice.
Qed.

Lemma result_rel_Ok_r {A} (R : relation A) m b :
  result_rel R m (Ok b) → ∃ a, m = Ok a ∧ R a b.
Proof. inversion 1; eauto. Qed.

(** When the names are those of the columns, entry [j] of every row is
    multiplied by the weight of name [j]. *)
Lemma apply_weights_columns self (M : Matrix) (names : list string) :
  Forall (λ row : Vec, length row = length names) M →
  SimilarityComputer.apply_weights self M names
  = Ok ((λ row : Vec,
           zip_with
             (λ x name,
                (x * default 1 (SimilarityComputer.feature_weights self !! name))%Q)
             row names) <$> M).
Proof.
  intros Hshape. unfold SimilarityComputer.apply_weights, np_mul_rows.
  apply traverse_Ok. intros row Hrow. rewrite Forall_forall in Hshape.
  rewrite np_broadcast2_same.
  - unfold SimilarityComputer.weights. by rewrite zip_with_fmap_r.
  - unfold SimilarityComputer.weights. rewrite length_fmap. auto.
Qed.

(** Twice, it is multiplied by the square of that weight. *)
Lemma apply_weights_twice_columns self (M : Matrix) (names : list string) :
  Forall (λ row : Vec, length row = length names) M →
  ∃ M2,
    (let* M1 := SimilarityComputer.apply_weights self M names in
     SimilarityComputer.apply_weights self M1 names) = Ok M2
    ∧ Meq M2
        ((λ row : Vec,
            zip_with
              (λ x name,
                 let w := default 1%Q
                            (SimilarityComputer.feature_weights self !! name)
                 in (x * (w * w))%Q) row names) <$> M).
Proof.
  intros Hshape.
  unfold SimilarityComputer.apply_weights, SimilarityComputer.weights, np_mul_rows.
  set (w := (λ name, default 1%Q _) <$> names).
  pose proof (traverse_broadcast_twice w M) as Htwice.
  rewrite (traverse_Ok
             (λ row, np_broadcast2 Qmult row ((λ y, y * y)%Q <$> w))
             (λ row, zip_with Qmult row ((λ y, y * y)%Q <$> w))) in Htwice.
  2: { intros row Hrow. rewrite Forall_forall in Hshape.
       apply np_broadcast2_same. unfold w. rewrite !length_fmap. auto. }
  apply result_rel_Ok_r in Htwice as (M2 & -> & HM). exists M2. split; [done|].
  replace ((λ row : Vec, zip_with _ row names) <$> M)
    with ((λ row, zip_with Qmult row ((λ y, y * y)%Q <$> w)) <$> M); [done|].
  apply list_fmap_ext. intros _ row _. unfold w.
  by rewrite <-list_fmap_compose, zip_with_fmap_r.
Qed.

Lemma zip_with_twice {A B} (f : A → B → A) (u : list A) (w : list B) :
  zip_with f (zip_with f u w) w = zip_with (λ x y, f (f x y) y) u w.
Proof.
  revert w. induction u as [|x u IH]; intros [|y w]; simpl; [done..|].
  by rewrite IH.
Qed.

(** In binary64 the entry is multiplied by the weight, and the product
    by the weight again. *)
Lemma float_apply_weights_twice fw (F : list (list float))
    (names : list string) :
  Forall (λ row : list float, length row = length names) F →
  (let* F1 := Float64.apply_weights fw F names in
   Float64.apply_weights fw F1 names)
  = Ok ((λ row : list float,
           zip_with
             (λ x name,
                let w := default 1%float (fw !! name) in
                PrimFloat.mul (PrimFloat.mul x w) w) row names) <$> F).
Proof.
  intros Hshape. unfold Float64.apply_weights, Float64.np_mul_rows.
  set (w := Float64.weights fw names).
  assert (length w = length names) as Hw
    by (unfold w, Float64.weights; by rewrite length_fmap).
  rewrite (traverse_Ok (λ row, np_broadcast2 PrimFloat.mul row w)
             (λ row, zip_with PrimFloat.mul row w)).
  2: { intros row Hrow. rewrite Forall_forall in Hshape.
       apply np_broadcast2_same. rewrite Hw. auto. }
  simpl.
  rewrite (traverse_Ok (λ row, np_broadcast2 PrimFloat.mul row w)
             (λ row, zip_with PrimFloat.mul row w)).
  2: { intros row Hrow. apply list_elem_of_fmap in Hrow as (row' & -> & Hrow').
       rewrite Forall_forall in Hshape. apply np_broadcast2_same.
       rewrite length_zip_with, Hw, (Hshape row' Hrow'). lia. }
  f_equal. rewrite <-list_fmap_compose.
  apply list_fmap_ext. intros _ row _. simpl.
  rewrite zip_with_twice. unfold w, Float64.weights.
  by rewrite zip_with_fmap_r.
Qed.

(** C9, amended.  [apply_weights] multiplies every entry of a matrix of
    the names' width by the weight of its column's name, 1.0 for a name
    absent from the weight table.  Applied twice with the same table, it
    turns the entry [x] of a column of weight [w] into [(x * w) * w]:
    this is what the result holds in binary64, where it need not be
    [x * (w * w)]; as numbers, in exact arithmetic, the two are equal,
    so that applying twice is multiplying each column by the square of
    its weight.  For every matrix and name list, shapes that do not fit
    are refused by the one as by the other. *)
Theorem apply_weights_twice self (M : Matrix) (names : list string)
    (fw : gmap string float) (F : list (list float)) :
  (Forall (λ row : Vec, length row = length names) M →
     SimilarityComputer.apply_weights self M names
     = Ok ((λ row : Vec,
              zip_with
                (λ x name,
                   (x * default 1
                          (SimilarityComputer.feature_weights self !! name))%Q)
                row names) <$> M)
     ∧ ∃ M2,
         (let* M1 := SimilarityComputer.apply_weights self M names in
          SimilarityComputer.apply_weights self M1 names) = Ok M2
         ∧ Meq M2
             ((λ row : Vec,
                 zip_with
                   (λ x name,
                      let w := default 1%Q
                                 (SimilarityComputer.feature_weights self
                                    !! name)
                      in (x * (w * w))%Q) row names) <$> M))
  ∧ result_rel Meq
      (let* M1 := SimilarityComputer.apply_weights self M names in
       SimilarityComputer.apply_weights self M1 names)
      (np_mul_rows M
         ((λ name,
             let w := default 1%Q
                        (SimilarityComputer.feature_weights self !! name)
             in (w * w)%Q) <$> names))
  ∧ (Forall (λ row : list float, length row = length names) F →
     (let* F1 := Float64.apply_weights fw F names in
      Float64.apply_weights fw F1 names)
     = Ok ((λ row : list float,
              zip_with
                (λ x name,
                   let w := default 1%float (fw !! name) in
                   PrimFloat.mul (PrimFloat.mul x w) w) row names) <$> F)).
Proof.
  split; [|split].
  - intros Hshape. split.
    + by apply apply_weights_columns.
    + by apply apply_weights_twice_columns.
  - apply apply_weights_twice_any_shape.
  - apply float_apply_weights_twice.
Qed.

(** ** The order of equal scores *)

Section Ties.
Context `{Sqrt, ArgSort}.

(** Whatever the argsort, the output lists the rows in the reverse of
    its order: of two listed rows, the one listed first is the one that
    [argsort] returns later.  The order of rows of equal score is
    therefore the reverse of the order [argsort] returns them in, and
    the code fixes nothing more about it. *)
Lemma top_k_reverses_argsort q M k excl :
  check_pairwise_arrays [q] M = true →
  indices_in_range (length M) excl = true →
  ∃ sims idxs scores,
    SimilarityComputer.get_top_k_similar q M k excl = Ok (idxs, scores)
    ∧ ∀ p1 p2 i j, p1 < p2 →
        idxs !! p1 = Some i → idxs !! p2 = Some j →
        ∃ a b, a < b ∧ argsort sims !! a = Some j ∧ argsort sims !! b = Some i.
Proof.
  intros Hc Hrange.
  destruct (top_k_eval q M k excl Hc Hrange) as (sims & Hlen & _ & ->).
  eexists sims, _, _. split; [done|].
  intros p1 p2 i j Hp Hi Hj.
  assert (∀ p x, py_slice_to (reverse (argsort sims)) k !! p = Some x →
            p < length (argsort sims)
            ∧ argsort sims !! (length (argsort sims) - S p) = Some x) as Hpos.
  { intros p x Hx. unfold py_slice_to in Hx.
    assert (reverse (argsort sims) !! p = Some x) as Hr.
    { destruct (0 <=? k)%Z; by apply lookup_take_Some in Hx as [Hx _]. }
    pose proof (lookup_lt_Some _ _ _ Hr) as Hlt. rewrite length_reverse in Hlt.
    split; [done|]. by rewrite <-reverse_lookup. }
  destruct (Hpos _ _ Hi) as [H1 Hi']. destruct (Hpos _ _ Hj) as [H2 Hj'].
  exists (length (argsort sims) - S p2), (length (argsort sims) - S p1).
  split; [lia|done].
Qed.

End Ties.

Section StableTies.
Context `{Sqrt}.
#[local] Existing Instance stable.

Lemma stable_ranking_sorted sims k :
  StronglySorted (flip (stable_le sims))
    (py_slice_to (reverse (stable_argsort sims)) k).
Proof.
  apply StronglySorted_py_slice_to, StronglySorted_reverse,
    stable_argsort_stable.
Qed.

(** With a stable argsort, rows of equal similarity would appear in
    descending row-index order: the ascending, stable order of the
    argsort is reversed as a whole. *)
Lemma stable_top_k_ties_descending q M k excl :
  check_pairwise_arrays [q] M = true →
  indices_in_range (length M) excl = true →
  ∃ idxs scores,
    SimilarityComputer.get_top_k_similar q M k excl = Ok (idxs, scores)
    ∧ ties_descending idxs scores.
Proof.
  intros Hc Hrange.
  destruct (top_k_eval q M k excl Hc Hrange) as (sims & Hlen & _ & ->).
  eexists _, _. split; [done|].
  intros p1 p2 i j s t Hp Hi Hj Hs Ht Hst. simpl in *.
  rewrite list_lookup_fmap, Hi in Hs. rewrite list_lookup_fmap, Hj in Ht.
  simpl in *. injection Hs as <-. injection Ht as <-.
  destruct (StronglySorted_lookup _ _ _ _ _ _
              (stable_ranking_sorted sims k) Hp Hi Hj) as [_ Hlt].
  apply Hlt. by apply Qle_lteq; right.
Qed.

End StableTies.

(** Numpy's contract for [argsort] does not decide the order of equal
    scores.  Rows 0 and 1 are identical, hence equal in score: one
    argsort that meets the contract lists row 1 first, another one
    row 0. *)
Lemma top_k_tie_order_not_fixed :
  (∃ scores,
     SimilarityComputer.get_top_k_similar (H := sqrt_fix) (H0 := stable)
       [3; 4]%Q [[3; 4]; [3; 4]; [4; 3]]%Q 3 None = Ok ([1; 0; 2], scores)
     ∧ ¬ ties_ascending [1; 0; 2] scores)
  ∧ (∃ scores,
       SimilarityComputer.get_top_k_similar (H := sqrt_fix) (H0 := backward)
         [3; 4]%Q [[3; 4]; [3; 4]; [4; 3]]%Q 3 None = Ok ([0; 1; 2], scores)
       ∧ ¬ ties_descending [0; 1; 2] scores).
Proof.
  split.
  - eexists. split; [vm_compute; reflexivity|]. intros Hasc.
    specialize (Hasc 0 1 1 0 _ _ (Nat.lt_0_1) eq_refl eq_refl eq_refl eq_refl).
    assert (1 < 0) as Hlt by (apply Hasc; reflexivity). lia.
  - eexists. split; [vm_compute; reflexivity|]. intros Hdesc.
    specialize (Hdesc 0 1 0 1 _ _ (Nat.lt_0_1) eq_refl eq_refl eq_refl eq_refl).
    assert (1 < 0) as Hlt by (apply Hdesc; reflexivity). lia.
Qed.

(** ** Loading the index *)

(** C4, amended.  [load_index] checks nothing: whenever the three files
    are present it returns the matrix, the id index and the
    configuration as read, and restores the scaler from the
    configuration, whether or not the row count, the id index and the
    statistics agree; it fails, with [FileNotFoundError], only when a
    file is missing. *)
Theorem load_index_returns_files self disk :
  (∀ M ti cfg,
     feature_matrix_npy disk = Some M →
     track_index_json disk = Some ti →
     model_config_json disk = Some cfg →
     IndexBuilder.load_index self disk =
       Ok ({| IndexBuilder.scaler :=
                Some {| mean_ := scaler_mean cfg; scale_ := scaler_scale cfg |} |},
           (M, ti, cfg)))
  ∧ (feature_matrix_npy disk = None ∨ track_index_json disk = None
     ∨ model_config_json disk = None →
     IndexBuilder.load_index self disk = Raise FileNotFoundError).
Proof.
  unfold IndexBuilder.load_index. split.
  - by intros M ti cfg -> -> ->.
  - intros [->|[->| ->]]; [done| |].
    + by destruct (feature_matrix_npy disk).
    + by destruct (feature_matrix_npy disk), (track_index_json disk).
Qed.

(** ** Building the index *)

Lemma fmap_seq_lookup {A B} (F : nat → B) (G : A → B) (l : list A) :
  (∀ j x, l !! j = Some x → F j = G x) →
  F <$> seq 0 (length l) = G <$> l.
Proof.
  intros HFG. apply list_eq. intros j. rewrite !list_lookup_fmap.
  destruct (l !! j) as [x|] eqn:E; simpl.
  - rewrite lookup_seq_lt by (by eapply lookup_lt_Some). simpl.
    by rewrite (HFG _ _ E).
  - rewrite lookup_seq_ge; [done|]. by apply lookup_ge_None.
Qed.

Lemma np_get_fmap {A} (f : A → Q) (l : list A) j x :
  l !! j = Some x → np_get (f <$> l) j = f x.
Proof.
  intros Hj. unfold np_get. by rewrite nth_lookup, list_lookup_fmap, Hj.
Qed.

(** The selected columns, missing cells replaced by zero. *)
Lemma getitem_cols_imputed df cols :
  (∀ c, c ∈ cols → is_Some (num_cols df !! c)) →
  rmap nan_to_num (getitem_cols df cols) =
    Ok (Numeric
          ((λ i, (λ name, imputed df i name) <$> cols) <$> seq 0 (n_rows df))).
Proof.
  intros Hcols. unfold getitem_cols.
  assert (forallb (λ c, bool_decide (is_Some (num_cols df !! c))) cols = true)
    as Hnum.
  { apply forallb_forall. intros c Hc. apply bool_decide_eq_true.
    by apply Hcols, list_elem_of_In. }
  assert (forallb (in_columns df) cols = true) as ->.
  { apply forallb_forall. intros c Hc. unfold in_columns.
    rewrite forallb_forall in Hnum. by rewrite (Hnum c Hc). }
  rewrite Hnum. simpl. do 2 f_equal. rewrite <-list_fmap_compose.
  apply list_fmap_ext. intros _ i _. simpl.
  rewrite <-!list_fmap_compose.
  apply Forall_fmap_ext_1, Forall_forall. intros c Hc. simpl.
  unfold imputed, get_num. simpl. by destruct (Hcols c Hc) as [cells ->].
Qed.



(** What a selection that gives an array of numbers has selected. *)
Lemma getitem_cols_numeric df (cols : list string) m :
  getitem_cols df cols = Ok (Numeric m) →
  ∀ c, c ∈ cols → is_Some (num_cols df !! c).
Proof.
  unfold getitem_cols. destruct (forallb (in_columns df) cols); [|done].
  destruct (forallb _ cols) eqn:Hnum; [|done].
  intros _ c Hc. rewrite forallb_forall in Hnum.
  apply list_elem_of_In, Hnum in Hc. by apply bool_decide_eq_true in Hc.
Qed.


Section Build.
Context `{Sqrt}.

Lemma column_imputed df (cols : list string) j name :
  cols !! j = Some name →
  column ((λ i, (λ name, imputed df i name) <$> cols) <$> seq 0 (n_rows df)) j
  = imputed_column df name.
Proof.
  intros Hj. unfold column, imputed_column. rewrite <-list_fmap_compose.
  apply list_fmap_ext. intros _ i _. simpl. by apply np_get_fmap.
Qed.

Lemma fit_imputed df (cols : list string) :
  n_rows df ≠ 0 → cols ≠ [] →
  fit ((λ i, (λ name, imputed df i name) <$> cols) <$> seq 0 (n_rows df)) =
    Ok {| mean_ := column_mean df <$> cols;
          scale_ := column_scale df <$> cols |}.
Proof.
  intros Hn Hc. unfold fit.
  set (X := _ <$> seq 0 (n_rows df)).
  assert (n_features X = length cols) as ->.
  { unfold n_features, X. destruct (n_rows df); [done|].
    simpl. by rewrite length_fmap. }
  assert (length X = n_rows df) as -> by (unfold X; by rewrite length_fmap, length_seq).
  destruct (n_rows df =? 0) eqn:E1; [apply Nat.eqb_eq in E1; done|].
  destruct (length cols =? 0) eqn:E2.
  { apply Nat.eqb_eq in E2. by destruct cols. }
  simpl. f_equal.
  rewrite (fmap_seq_lookup (column X) (imputed_column df) cols)
    by (intros; by apply column_imputed).
  by rewrite <-!list_fmap_compose.
Qed.

Lemma transform_row_imputed df (cols : list string) i :
  transform_row {| mean_ := column_mean df <$> cols;
                   scale_ := column_scale df <$> cols |}
                ((λ name, imputed df i name) <$> cols)
  = (λ name, (imputed df i name - column_mean df name)
             / column_scale df name)%Q <$> cols.
Proof.
  unfold transform_row. simpl.
  induction cols as [|c cols IH]; simpl; [done|]. f_equal. apply IH.
Qed.


End Build.

(** * The code on concrete input *)

(** Where a run needs [np.sqrt] and [np.argsort], the square root of
    the examples and the stable argsort are taken. *)
Section Runs.
#[local] Existing Instance sqrt_fix.
#[local] Existing Instance stable.

(** The recommenders of the examples are the ones the deployment path
    produces. *)
Lemma demo_recommender_deployed :
  deploy demo_df ["energy"] = Ok (demo_recommender ["energy"])
  ∧ deploy demo_df ["energy"; "loudness"]
    = Ok (demo_recommender ["energy"; "loudness"]).
Proof. vm_compute. split; reflexivity. Qed.

(** C1.  A row listed in [exclude_indices] should never appear in the
    output of [get_top_k_similar].  The code returns it all the same
    when [k] reaches past the rows that score above -1: here the
    two-row matrix is returned whole, the excluded row 0 last, with
    score -1. *)
Lemma top_k_returns_excluded_row :
  rmap (λ out, (out.1, Qred <$> out.2))
    (SimilarityComputer.get_top_k_similar
       [3; 4]%Q [[3; 4]; [4; 3]]%Q 2 (Some [0%Z]))
  = Ok ([1; 0], [24 # 25; -1]%Q).
Proof. vm_compute. reflexivity. Qed.

(** C2.  The result of [get_recommendations] should never contain the
    seed track.  On the four-track catalog, five recommendations for
    [t1] without filters are the whole catalog, [t1] itself included,
    with score -1. *)
Lemma seed_among_recommendations :
  rmap (fmap (λ r, (Recommendation.id r,
                    Qred (Recommendation.similarity_score r))))
    (MusicRecommender.get_recommendations (demo_recommender ["energy"])
       "t1" 5 false None None)
  = Ok [("t2", 1); ("t4", -1); ("t3", -1); ("t1", -1)]%Q.
Proof. vm_compute. reflexivity. Qed.

(** C3.  A column that is not one of the five named ones should be
    filled with the median of its raw values before the vector is
    standardized.  The code takes the median of the standardized
    matrix instead (0 for [loudness], where the raw median is 10), and
    standardizes it once more: the entry handed to the engine is -2,
    where the raw median would give 0. *)
Lemma query_median_of_standardized_column :
  let self := demo_recommender ["energy"; "loudness"] in
  rmap (fmap Qred)
    (MusicRecommender.raw_query_vector self (1 # 2) (3 # 4) (1 # 4) 120)
    = Ok [3 # 4; 0]%Q
  ∧ rmap (fmap Qred) (claimed_raw_query_vector self (1 # 2) (3 # 4) (1 # 4) 120)
    = Ok [3 # 4; 10]%Q
  ∧ rmap (fmap Qred)
      (MusicRecommender.feature_query self (1 # 2) (3 # 4) (1 # 4) 120)
    = Ok [5 # 4; -2]%Q.
Proof. vm_compute. repeat split; reflexivity. Qed.

(** C4 fails: two matrix rows against one indexed track, and an empty
    statistics vector against one feature column, are loaded without
    error. *)
Lemma load_index_accepts_inconsistent_files :
  (∃ builder,
     IndexBuilder.load_index IndexBuilder.__init__ corrupt_disk
     = Ok (builder, (corrupt_matrix, corrupt_index, corrupt_config)))
  ∧ length corrupt_matrix ≠ size (id_to_idx corrupt_index)
  ∧ length (scaler_mean corrupt_config)
    ≠ length (feature_columns corrupt_config).
Proof.
  split; [by eexists|]. split; [|simpl; lia].
  unfold corrupt_index. simpl. rewrite map_size_singleton. simpl. lia.
Qed.


(** C7 fails: with [k = -1] the result is not empty, it is the ranking
    without its last row. *)
Lemma top_k_negative_k_not_empty :
  rmap fst
    (SimilarityComputer.get_top_k_similar
       [3; 4]%Q [[3; 4]; [4; 3]; [-3; 4]]%Q (-1) None)
  = Ok [0; 1].
Proof. vm_compute. reflexivity. Qed.

(** The engine refuses a catalog without rows, whatever [k]: the shape
    conditions of the general statements are needed. *)
Lemma top_k_empty_catalog_raises :
  SimilarityComputer.get_top_k_similar [1]%Q [] 0 None = Raise ValueError.
Proof. reflexivity. Qed.

(** C9 fails in binary64.  With the weight 0.3 for [mode], the entry
    3.0 weighted twice is (3.0 * 0.3) * 0.3 = 0.26999999999999996, and
    multiplied by the squared weight it is 3.0 * (0.3 * 0.3) = 0.27:
    the two floats are not equal. *)
Lemma apply_weights_twice_not_squared :
  let fw : gmap string float :=
    {[ "mode"%string := 0x1.3333333333333p-2%float ]} in
  ∃ twice squared,
    (let* F1 := Float64.apply_weights fw [[3%float]] ["mode"] in
     Float64.apply_weights fw F1 ["mode"]) = Ok [[twice]]
    ∧ Float64.np_mul_rows [[3%float]]
        ((λ name, let w := default 1%float (fw !! name) in PrimFloat.mul w w)
           <$> ["mode"]) = Ok [[squared]]
    ∧ twice = 0x1.147ae147ae147p-2%float
    ∧ squared = 0x1.147ae147ae148p-2%float
    ∧ PrimFloat.eqb twice squared = false.
Proof.
  intros fw. eexists _, _.
  split; [vm_compute; reflexivity|]. split; [vm_compute; reflexivity|].
  split; [reflexivity|]. split; [reflexivity|]. vm_compute. reflexivity.
Qed.

End Runs.

(** ** The general statements at concrete input *)

Lemma top_k_count_and_order_witness :
  check_pairwise_arrays [[3; 4]]%Q [[3; 4]; [4; 3]; [-3; 4]]%Q = true
  ∧ indices_in_range 3 (Some [0%Z]) = true
  ∧ ∃ idxs scores,
      SimilarityComputer.get_top_k_similar (H := sqrt_fix) (H0 := stable)
        [3; 4]%Q [[3; 4]; [4; 3]; [-3; 4]]%Q 2 (Some [0%Z]) = Ok (idxs, scores)
      ∧ ((0 ≤ 2)%Z → length idxs = Z.to_nat (Z.min 2 (Z.of_nat 3)))
      ∧ ((2 < 0)%Z → length idxs = Z.to_nat (Z.max 0 (Z.of_nat 3 + 2)))
      ∧ length scores = length idxs
      ∧ StronglySorted (flip Qle) scores.
Proof.
  split; [reflexivity|]. split; [reflexivity|].
  apply (@top_k_count_and_order sqrt_fix stable); reflexivity.
Defined.

Lemma apply_weights_twice_witness :
  let self := SimilarityComputer.__init__ None in
  let names := ["mode"; "duration_ms"]%string in
  let fw : gmap string float :=
    {[ "mode"%string := 0x1.3333333333333p-2%float ]} in
  rmap (λ M : Matrix, (λ row : Vec, Qred <$> row) <$> M)
    (SimilarityComputer.apply_weights self [[3; 1]]%Q names)
  = Ok [[9 # 10; 1]]%Q
  ∧ (∃ M2,
       (let* M1 := SimilarityComputer.apply_weights self [[3; 1]]%Q names in
        SimilarityComputer.apply_weights self M1 names) = Ok M2
       ∧ Meq M2 [[27 # 100; 1]]%Q)
  ∧ (let* F1 := Float64.apply_weights fw [[3; 1]]%float names in
     Float64.apply_weights fw F1 names)
    = Ok [[0x1.147ae147ae147p-2; 1]]%float.
Proof.
  intros self names fw.
  destruct (apply_weights_twice self [[3; 1]]%Q names fw [[3; 1]]%float)
    as (HQ & _ & HF).
  destruct HQ as (Honce & M2 & Htwice & HM); [by repeat constructor|].
  split; [|split].
  - rewrite Honce. vm_compute. reflexivity.
  - exists M2. split; [exact Htwice|].
    match type of HM with
    | Meq _ ?f => replace [[27 # 100; 1]]%Q with f by (vm_compute; reflexivity)
    end.
    exact HM.
  - rewrite HF by (by repeat constructor). vm_compute. reflexivity.
Defined.

Lemma diversity_filter_distinct_artists_witness :
  ∃ recs,
    MusicRecommender.get_recommendations (H := sqrt_fix) (H0 := stable)
      (demo_recommender ["energy"]) "t1" 50 true None None = Ok recs
    ∧ Recommendation.id <$> recs = ["t2"; "t4"]
    ∧ NoDup (Recommendation.artists <$> recs).
Proof.
  eexists. split; [vm_compute; reflexivity|]. split; [reflexivity|].
  apply (@diversity_filter_distinct_artists sqrt_fix stable
           (demo_recommender ["energy"]) "t1" 50 None None).
  vm_compute. reflexivity.
Defined.

Lemma load_index_returns_files_witness :
  IndexBuilder.load_index IndexBuilder.__init__ corrupt_disk =
    Ok ({| IndexBuilder.scaler := Some {| mean_ := []; scale_ := [] |} |},
        (corrupt_matrix, corrupt_index, corrupt_config))
  ∧ IndexBuilder.load_index IndexBuilder.__init__ empty_disk
    = Raise FileNotFoundError.
Proof.
  split.
  - apply (proj1 (load_index_returns_files IndexBuilder.__init__ corrupt_disk)
             corrupt_matrix corrupt_index corrupt_config); reflexivity.
  - apply (proj2 (load_index_returns_files IndexBuilder.__init__ empty_disk)).
    left. reflexivity.
Defined.


(** * Further properties of the similarity engine *)

Lemma np_setitems_other a idxs v a' p :
  np_setitems a idxs v = Ok a' →
  (∀ i, i ∈ idxs → np_index (length a) i ≠ Ok p) →
  np_get a' p = np_get a p.
Proof.
  revert a. induction idxs as [|i idxs IH]; intros a; simpl.
  { by intros [= ->]. }
  destruct (np_index (length a) i) as [p'|e] eqn:Ep'; simpl; [|done].
  intros Ha' Hne. rewrite (IH _ Ha').
  - assert (p' ≠ p) as Hp.
    { intros ->. eapply Hne; [|done]. apply elem_of_cons. by left. }
    unfold np_get. rewrite !nth_lookup. by rewrite list_lookup_insert_ne.
  - intros j Hj. rewrite length_insert. apply Hne. apply elem_of_cons. by right.
Qed.

Lemma StronglySorted_fmap_inv {A B} (f : A → B) (R : relation B) l :
  StronglySorted R (f <$> l) → StronglySorted (λ x y, R (f x) (f y)) l.
Proof.
  induction l as [|x l IH]; intros Hs; [constructor|].
  rewrite fmap_cons in Hs. apply StronglySorted_cons in Hs as [Hx Hs].
  constructor; [auto|]. by rewrite Forall_fmap in Hx.
Qed.

Section Engine.
Context `{Sqrt, ArgSort}.

Lemma compute_similarity_inv q M sims :
  SimilarityComputer.compute_similarity q M = Ok sims →
  check_pairwise_arrays [q] M = true
  ∧ sims = (λ y, dot (normalize q) (normalize y)) <$> M.
Proof.
  unfold SimilarityComputer.compute_similarity, cosine_similarity.
  destruct (check_pairwise_arrays [q] M); simpl; [|done].
  by intros [= <-].
Qed.

(** What a successful call has computed: the cosines [sims0], the
    similarities [sims] after the exclusions, and the ranking cut at
    [k]. *)
Lemma top_k_inv q M k excl idxs scores :
  SimilarityComputer.get_top_k_similar q M k excl = Ok (idxs, scores) →
  ∃ sims0 sims,
    SimilarityComputer.compute_similarity q M = Ok sims0
    ∧ length sims = length M
    ∧ (∀ i p, i ∈ default [] excl → np_index (length M) i = Ok p →
         np_get sims p = (-1)%Q)
    ∧ (∀ p, (∀ i, i ∈ default [] excl → np_index (length M) i ≠ Ok p) →
         np_get sims p = np_get sims0 p)
    ∧ idxs = py_slice_to (reverse (argsort sims)) k
    ∧ scores = np_get sims <$> idxs.
Proof.
  unfold SimilarityComputer.get_top_k_similar.
  destruct (SimilarityComputer.compute_similarity q M) as [sims0|] eqn:E0;
    simpl; [|done].
  destruct (compute_similarity_inv _ _ _ E0) as [Hc ->].
  set (sims0 := _ <$> M) in *.
  assert (length sims0 = length M) as Hlen by (unfold sims0; by rewrite length_fmap).
  destruct (truthy_list excl) eqn:Et; simpl.
  - destruct (np_setitems sims0 (default [] excl) (-1)%Q) as [sims|] eqn:E;
      simpl; [|done].
    intros [= <- <-]. exists sims0, sims. split; [done|].
    split; [by rewrite (np_setitems_length _ _ _ _ E)|].
    split; [|split; [|done]].
    + intros i p Hi Hp. rewrite <-Hlen in Hp.
      by apply (np_setitems_sets _ _ _ _ _ _ E Hi).
    + intros p Hp. apply (np_setitems_other _ _ _ _ _ E).
      intros i Hi. rewrite Hlen. by apply Hp.
  - intros [= <- <-]. exists sims0, sims0. split; [done|]. split; [done|].
    split; [|done].
    intros i p Hi. destruct excl as [[|??]|]; simpl in *;
      try discriminate; by apply elem_of_nil in Hi.
Qed.

Lemma ranking_NoDup sims k :
  NoDup (py_slice_to (reverse (argsort sims)) k).
Proof.
  assert (NoDup (reverse (argsort sims))) as Hnd.
  { rewrite reverse_Permutation, (argsort_perm sims). apply NoDup_seq. }
  unfold py_slice_to.
  destruct (0 <=? k)%Z; eapply sublist_NoDup; eauto using sublist_take.
Qed.

Lemma ranking_in_range sims k i :
  i ∈ py_slice_to (reverse (argsort sims)) k → i < length sims.
Proof.
  intros Hi.
  assert (i ∈ reverse (argsort sims)) as Hr.
  { unfold py_slice_to in Hi.
    destruct (0 <=? k)%Z; by eapply subseteq_take. }
  rewrite elem_of_reverse, (argsort_perm sims), elem_of_seq in Hr. lia.
Qed.

(** The rows returned by [get_top_k_similar] are distinct rows of the
    matrix, each with one score. *)
Theorem top_k_distinct_rows q M k excl idxs scores :
  SimilarityComputer.get_top_k_similar q M k excl = Ok (idxs, scores) →
  NoDup idxs
  ∧ Forall (λ i, i < length M) idxs
  ∧ length scores = length idxs.
Proof.
  intros Hk.
  destruct (top_k_inv _ _ _ _ _ _ Hk) as (sims0 & sims & _ & Hlen & _ & _ & -> & ->).
  split; [apply ranking_NoDup|]. split; [|by rewrite length_fmap].
  apply Forall_forall. intros i Hi. rewrite <-Hlen.
  by eapply ranking_in_range.
Qed.

Lemma ranking_best sims k i j :
  i ∈ py_slice_to (reverse (argsort sims)) k →
  j < length sims →
  j ∉ py_slice_to (reverse (argsort sims)) k →
  (np_get sims j <= np_get sims i)%Q.
Proof.
  intros Hi Hj Hnj.
  assert (∃ n, py_slice_to (reverse (argsort sims)) k
               = take n (reverse (argsort sims))) as [n Hn].
  { unfold py_slice_to. destruct (0 <=? k)%Z; eauto. }
  rewrite Hn in Hi, Hnj.
  assert (StronglySorted (flip (λ i j, np_get sims i <= np_get sims j)%Q)
            (reverse (argsort sims))) as Hs.
  { apply StronglySorted_reverse, StronglySorted_fmap_inv, argsort_sorted. }
  rewrite <-(take_drop n (reverse (argsort sims))) in Hs.
  apply (StronglySorted_app_1_elem_of _ _ _ i j) in Hs; [done|done|].
  assert (j ∈ reverse (argsort sims)) as Hjr.
  { rewrite elem_of_reverse, (argsort_perm sims), elem_of_seq. lia. }
  rewrite <-(take_drop n (reverse (argsort sims))) in Hjr.
  apply elem_of_app in Hjr as [?|?]; [done|done].
Qed.

(** Without exclusions the rows returned are the best ones: a row left
    out is no more similar to the query than any row returned. *)
Theorem top_k_keeps_the_best q M k sims idxs scores i j :
  SimilarityComputer.compute_similarity q M = Ok sims →
  SimilarityComputer.get_top_k_similar q M k None = Ok (idxs, scores) →
  i ∈ idxs → j < length M → j ∉ idxs →
  (np_get sims j <= np_get sims i)%Q.
Proof.
  intros Hs Hk Hi Hj Hnj.
  destruct (top_k_inv _ _ _ _ _ _ Hk)
    as (sims0 & sims' & Hs0 & Hlen & _ & Hsame & -> & ->).
  rewrite Hs in Hs0. injection Hs0 as <-.
  rewrite <-!Hsame by (intros ? Hx; by apply elem_of_nil in Hx).
  apply (ranking_best sims' k); [done| |done]. by rewrite Hlen.
Qed.

(** When [k] reaches the number of rows, every row is returned, exactly
    once, whatever the exclusion list. *)
Theorem top_k_returns_every_row q M k excl idxs scores :
  SimilarityComputer.get_top_k_similar q M k excl = Ok (idxs, scores) →
  (Z.of_nat (length M) ≤ k)%Z →
  idxs ≡ₚ seq 0 (length M).
Proof.
  intros Hk Hge.
  destruct (top_k_inv _ _ _ _ _ _ Hk) as (sims0 & sims & _ & Hlen & _ & _ & -> & _).
  rewrite py_slice_to_all.
  - by rewrite reverse_Permutation, (argsort_perm sims), Hlen.
  - rewrite length_reverse, (Permutation_length (argsort_perm sims)),
      length_seq. lia.
Qed.

(** The exclusion list changes the scores of the rows it names, to -1,
    and of no other row: a returned row that is not excluded carries
    its cosine similarity to the query. *)
Theorem top_k_exclusion_scores q M k excl sims0 idxs scores n p :
  SimilarityComputer.compute_similarity q M = Ok sims0 →
  SimilarityComputer.get_top_k_similar q M k excl = Ok (idxs, scores) →
  idxs !! n = Some p →
  (∀ i, i ∈ default [] excl → np_index (length M) i = Ok p →
     scores !! n = Some (-1)%Q)
  ∧ ((∀ i, i ∈ default [] excl → np_index (length M) i ≠ Ok p) →
     scores !! n = Some (np_get sims0 p)).
Proof.
  intros Hs Hk Hn.
  destruct (top_k_inv _ _ _ _ _ _ Hk)
    as (sims0' & sims & Hs0 & Hlen & Hexcl & Hsame & -> & ->).
  rewrite Hs in Hs0. injection Hs0 as <-.
  rewrite list_lookup_fmap, Hn. simpl. split.
  - intros i Hi Hp. by rewrite (Hexcl i p Hi Hp).
  - intros Hp. by rewrite (Hsame p Hp).
Qed.

End Engine.

(** ** Cosine similarities *)

Lemma check_pairwise_arrays_single q M :
  check_pairwise_arrays [q] M = true
  ↔ M ≠ [] ∧ q ≠ [] ∧ Forall (λ r : Vec, length r = length q) M.
Proof.
  unfold check_pairwise_arrays. destruct M as [|r M].
  { split; [done|]. by intros [? _]. }
  simpl forallb at 1. rewrite Nat.eqb_refl, !andb_true_r, andb_true_iff.
  rewrite negb_true_iff, Nat.eqb_neq, forallb_forall.
  split.
  - intros [Hq Hall]. split; [done|]. split; [by destruct q|].
    apply Forall_forall. intros x Hx. apply Nat.eqb_eq, Hall.
    by apply list_elem_of_In.
  - intros (_ & Hq & Hall). split; [by destruct q|].
    intros x Hx. apply Nat.eqb_eq. rewrite Forall_forall in Hall.
    by apply Hall, list_elem_of_In.
Qed.

Lemma dot_cons x y (u v : Vec) : dot (x :: u) (y :: v) = (x * y + dot u v)%Q.
Proof. done. Qed.

Lemma dot_comm (u v : Vec) : (dot u v == dot v u)%Q.
Proof.
  revert v. induction u as [|x u IH]; intros [|y v]; try reflexivity.
  rewrite !dot_cons, IH. ring.
Qed.

Lemma dot_zero_l (u v : Vec) : Forall (λ x, x == 0)%Q u → (dot u v == 0)%Q.
Proof.
  intros Hu. revert v. induction Hu as [|x u Hx Hu IH]; intros [|y v];
    try reflexivity.
  rewrite dot_cons, IH, Hx. ring.
Qed.

Section Cosine.
Context `{Sqrt}.

Lemma normalize_zero (v : Vec) :
  Forall (λ x, x == 0)%Q v → Forall (λ x, x == 0)%Q (normalize v).
Proof.
  intros Hv. unfold normalize. apply Forall_fmap.
  eapply Forall_impl; [done|]. intros x Hx. simpl.
  unfold Qdiv. rewrite Hx. ring.
Qed.

(** [compute_similarity] returns one score per row when the matrix has
    rows, the query has entries and every row has the query's length;
    it is refused, with [ValueError], in every other case. *)
Theorem compute_similarity_shapes q M :
  (M ≠ [] ∧ q ≠ [] ∧ Forall (λ r : Vec, length r = length q) M →
   ∃ sims, SimilarityComputer.compute_similarity q M = Ok sims
           ∧ length sims = length M)
  ∧ (¬ (M ≠ [] ∧ q ≠ [] ∧ Forall (λ r : Vec, length r = length q) M) →
     SimilarityComputer.compute_similarity q M = Raise ValueError).
Proof.
  rewrite <-check_pairwise_arrays_single.
  unfold SimilarityComputer.compute_similarity, cosine_similarity.
  destruct (check_pairwise_arrays [q] M); simpl; split; try done.
  intros _. eexists. split; [done|]. by rewrite length_fmap.
Qed.

(** The similarity of a zero vector to anything is zero: a zero query
    scores zero against every row, and a zero row scores zero against
    every query. *)
Theorem zero_vector_similarity q M sims :
  SimilarityComputer.compute_similarity q M = Ok sims →
  (Forall (λ x, x == 0)%Q q → Forall (λ s, s == 0)%Q sims)
  ∧ (∀ j row s, M !! j = Some row → Forall (λ x, x == 0)%Q row →
       sims !! j = Some s → (s == 0)%Q).
Proof.
  unfold SimilarityComputer.compute_similarity, cosine_similarity.
  destruct (check_pairwise_arrays [q] M); simpl; [|done].
  intros [= <-]. split.
  - intros Hq. apply Forall_fmap, Forall_forall. intros y _. simpl.
    by apply dot_zero_l, normalize_zero.
  - intros j row s Hj Hrow. rewrite list_lookup_fmap, Hj. simpl.
    intros [= <-]. rewrite dot_comm. by apply dot_zero_l, normalize_zero.
Qed.

(** The pairwise similarity matrix is square and symmetric, and its
    row [i] is the similarity of row [i] of the matrix to all rows. *)
Theorem pairwise_similarity_symmetric M S :
  SimilarityComputer.compute_pairwise_similarity M = Ok S →
  length S = length M
  ∧ Forall (λ r : Vec, length r = length M) S
  ∧ (∀ i j a b, S !! i ≫= (.!! j) = Some a → S !! j ≫= (.!! i) = Some b →
       (a == b)%Q)
  ∧ (∀ i row, M !! i = Some row →
       ∃ r, S !! i = Some r
            ∧ SimilarityComputer.compute_similarity row M = Ok r).
Proof.
  unfold SimilarityComputer.compute_pairwise_similarity, cosine_similarity.
  destruct (check_pairwise_arrays M M) eqn:Hc; simpl; [|done].
  intros [= <-]. split; [by rewrite length_fmap|]. split; [|split].
  - apply Forall_fmap, Forall_forall. intros x _. simpl. by rewrite length_fmap.
  - intros i j a b. rewrite !list_lookup_fmap.
    destruct (M !! i) as [x|] eqn:Ei; [|done].
    destruct (M !! j) as [y|] eqn:Ej; simpl; [|by rewrite list_lookup_fmap, Ej].
    rewrite !list_lookup_fmap, Ei, Ej. simpl.
    intros [= <-] [= <-]. apply dot_comm.
  - intros i row Hi. rewrite list_lookup_fmap, Hi. simpl.
    eexists. split; [done|].
    unfold SimilarityComputer.compute_similarity, cosine_similarity.
    assert (check_pairwise_arrays [row] M = true) as ->; [|done].
    apply check_pairwise_arrays_single.
    unfold check_pairwise_arrays in Hc. destruct M as [|x M]; [done|].
    apply andb_true_iff in Hc as [Hc HM]. apply andb_true_iff in Hc as [Hx _].
    rewrite forallb_forall in HM.
    assert (length row = length x) as Hrow.
    { apply Nat.eqb_eq, HM, list_elem_of_In. by eapply list_elem_of_lookup_2. }
    split; [done|]. split.
    + apply negb_true_iff, Nat.eqb_neq in Hx. destruct row; simpl in *; [lia|done].
    + apply Forall_forall. intros r Hr. rewrite Hrow.
      by apply Nat.eqb_eq, HM, list_elem_of_In.
Qed.

(** The diversity score.  Fewer than two scores give 1.  From two
    scores on, a mean that is not positive gives 0, and a positive mean
    gives the standard deviation divided by the mean, or 1 if that is
    larger.  So the score is at most 1, and it is not negative when the
    square root is not. *)
Theorem diversity_score_bounds similarities :
  let score := SimilarityComputer.compute_diversity_score similarities in
  let std := np_sqrt (np_var similarities) in
  let mean := np_mean similarities in
  (length similarities < 2 → score = 1%Q)
  ∧ (2 ≤ length similarities → (mean <= 0)%Q → score = 0%Q)
  ∧ (2 ≤ length similarities → (0 < mean)%Q → (std / mean <= 1)%Q →
     score = (std / mean)%Q)
  ∧ (2 ≤ length similarities → (0 < mean)%Q → (1 < std / mean)%Q →
     score = 1%Q)
  ∧ (score <= 1)%Q
  ∧ ((∀ x, 0 <= np_sqrt x)%Q → (0 <= score)%Q).
Proof.
  intros score std mean. unfold score, std, mean.
  unfold SimilarityComputer.compute_diversity_score, py_min, Qlt_bool.
  destruct (length similarities <? 2) eqn:El.
  { apply Nat.ltb_lt in El. split; [done|]. do 3 (split; [lia|]).
    split; [apply Qle_refl|done]. }
  apply Nat.ltb_ge in El. split; [lia|].
  destruct (Qle_bool (np_mean similarities) 0) eqn:Em; simpl.
  { apply Qle_bool_iff in Em. split; [done|].
    split; [intros _ Hpos; by destruct (Qlt_not_le _ _ Hpos)|].
    split; [intros _ Hpos; by destruct (Qlt_not_le _ _ Hpos)|].
    split; [done|]. intros _. apply Qle_refl. }
  apply Qle_bool_false in Em.
  split; [intros _ Hle; by destruct (Qlt_not_le _ _ Em)|].
  destruct (Qle_bool _ 1) eqn:E1; simpl.
  - apply Qle_bool_iff in E1. split; [done|].
    split; [intros _ _ Hgt; by destruct (Qlt_not_le _ _ Hgt)|].
    split; [done|]. intros Hsqrt.
    apply Qle_shift_div_l; [done|]. rewrite Qmult_0_l. apply Hsqrt.
  - apply Qle_bool_false in E1.
    split; [intros _ _ Hle; by destruct (Qlt_not_le _ _ E1)|].
    split; [done|]. split; [apply Qle_refl|done].
Qed.

End Cosine.

(** ** Shapes under weighting *)

Lemma np_broadcast2_is_Ok f (a b : Vec) :
  is_Ok (np_broadcast2 f a b)
  = (length a =? length b) || (length a =? 1) || (length b =? 1).
Proof.
  unfold np_broadcast2. destruct (length a =? length b) eqn:E; [done|].
  destruct a as [|x [|x' a]], b as [|y [|y' b]]; simpl in *; try done.
Qed.

Lemma traverse_length {A B} (f : A → result B) l ys :
  traverse f l = Ok ys → length ys = length l.
Proof.
  revert ys. induction l as [|x l IH]; intros ys; simpl.
  { by intros [= <-]. }
  destruct (f x); simpl; [|done].
  destruct (traverse f l) as [ys'|]; simpl; [|done].
  intros [= <-]. simpl. by rewrite (IH ys').
Qed.

Lemma traverse_is_Ok_forallb {A B} (f : A → result B) l :
  is_Ok (traverse f l) = forallb (λ x, is_Ok (f x)) l.
Proof.
  induction l as [|x l IH]; simpl; [done|].
  destruct (f x); simpl; [|done]. rewrite <-IH.
  by destruct (traverse f l).
Qed.

Lemma traverse_Forall2 {A B} (f : A → result B) l ys :
  traverse f l = Ok ys → Forall2 (λ x y, f x = Ok y) l ys.
Proof.
  revert ys. induction l as [|x l IH]; intros ys; simpl.
  { intros [= <-]. constructor. }
  destruct (f x) as [y|] eqn:Ex; simpl; [|done].
  destruct (traverse f l) as [ys'|]; simpl; [|done].
  intros [= <-]. constructor; auto.
Qed.

Lemma np_broadcast2_length {A} (f : A → A → A) (a b r : list A) :
  np_broadcast2 f a b = Ok r →
  length r = if length a =? 1 then length b else length a.
Proof.
  unfold np_broadcast2. destruct (length a =? length b) eqn:E.
  - apply Nat.eqb_eq in E. intros [= <-]. rewrite length_zip_with, <-E.
    destruct (length a =? 1) eqn:E1; [|lia]. apply Nat.eqb_eq in E1. lia.
  - destruct a as [|x [|x' a]], b as [|y [|y' b]]; simpl in *;
      intros [= <-]; simpl; try done; by rewrite length_fmap.
Qed.

(** For a matrix with at least one row, all rows of one width:
    [apply_weights] succeeds exactly when the width is the number of
    names, or one of the two is one (a dimension of size one is
    stretched, not refused); otherwise it is refused with [ValueError].
    When it succeeds the number of rows is kept, and the width is that
    of the matrix, or the number of names for a matrix of width one. *)
Theorem apply_weights_shapes self (M : Matrix) (names : list string) m :
  M ≠ [] → Forall (λ row : Vec, length row = m) M →
  is_Ok (SimilarityComputer.apply_weights self M names)
  = (m =? length names) || (m =? 1) || (length names =? 1)
  ∧ (is_Ok (SimilarityComputer.apply_weights self M names) = false →
     SimilarityComputer.apply_weights self M names = Raise ValueError)
  ∧ (∀ M', SimilarityComputer.apply_weights self M names = Ok M' →
       length M' = length M
       ∧ Forall (λ row : Vec,
                   length row = if m =? 1 then length names else m) M').
Proof.
  intros Hrows Hwidth.
  unfold SimilarityComputer.apply_weights, np_mul_rows. split; [|split].
  - rewrite traverse_is_Ok_forallb.
    set (b := (m =? length names) || (m =? 1) || (length names =? 1)).
    assert (forallb
              (λ row, is_Ok (np_broadcast2 Qmult row
                               (SimilarityComputer.weights self names))) M
            = match M with [] => true | _ => b end) as ->;
      [|by destruct M].
    clear Hrows. induction Hwidth as [|row M' Hrow _ IH]; [done|].
    simpl. rewrite IH, np_broadcast2_is_Ok. unfold SimilarityComputer.weights.
    rewrite length_fmap, Hrow. fold b. by destruct M', b.
  - destruct (traverse _ M) as [|e] eqn:E; [done|].
    intros _. by apply traverse_broadcast_Raise in E as ->.
  - intros M' HM'. split; [by apply traverse_length in HM'|].
    apply traverse_Forall2 in HM'. clear Hrows.
    induction HM' as [|row r M0 M1 Hr _ IH]; [constructor|].
    apply Forall_cons in Hwidth as [Hrow Hwidth].
    constructor; [|by apply IH].
    apply np_broadcast2_length in Hr. unfold SimilarityComputer.weights in Hr.
    by rewrite length_fmap, Hrow in Hr.
Qed.

Lemma apply_weights_same_shape self (M : Matrix) (names : list string) :
  Forall (λ row : Vec, length row = length names) M →
  SimilarityComputer.apply_weights self M names
  = Ok ((λ row, zip_with Qmult row (SimilarityComputer.weights self names))
          <$> M).
Proof.
  intros Hshape. unfold SimilarityComputer.apply_weights, np_mul_rows.
  apply traverse_Ok. intros row Hrow. rewrite Forall_forall in Hshape.
  apply np_broadcast2_same. unfold SimilarityComputer.weights.
  rewrite length_fmap. auto.
Qed.

(** When the names are those of the columns, weighting keeps the shape
    of the matrix, and leaves the matrix as it is if no name has an
    entry in the weight table (the default weight is 1.0). *)
Theorem apply_weights_keeps_shape self (M : Matrix) (names : list string) :
  Forall (λ row : Vec, length row = length names) M →
  ∃ M', SimilarityComputer.apply_weights self M names = Ok M'
    ∧ length M' = length M
    ∧ Forall (λ row : Vec, length row = length names) M'
    ∧ ((∀ name, name ∈ names →
          SimilarityComputer.feature_weights self !! name = None) →
       Meq M' M).
Proof.
  intros Hshape. rewrite apply_weights_same_shape by done.
  set (w := SimilarityComputer.weights self names).
  assert (length w = length names) as Hw
    by (unfold w, SimilarityComputer.weights; by rewrite length_fmap).
  eexists. split; [done|]. split; [by rewrite length_fmap|]. split.
  - apply Forall_fmap. eapply Forall_impl; [done|]. intros row Hrow.
    simpl in *. rewrite length_zip_with. lia.
  - intros Habsent. unfold Meq. apply Forall2_fmap_l, Forall_Forall2_diag.
    eapply Forall_impl; [done|]. intros row Hrow. simpl in *.
    unfold w, SimilarityComputer.weights. rewrite zip_with_fmap_r.
    clear Hw w Hshape. revert row Hrow Habsent.
    induction names as [|name names IH]; intros [|x row] Hrow Habsent;
      simpl in *; try done.
    constructor.
    + rewrite Habsent by (apply elem_of_cons; by left). simpl. ring.
    + apply IH; [lia|]. intros n Hn. apply Habsent. apply elem_of_cons. by right.
Qed.

(** * Further properties of the index builder *)



Lemma enumerate_snoc {A} (l : list A) x :
  enumerate (l ++ [x]) = enumerate l ++ [(length l, x)].
Proof.
  unfold enumerate. rewrite length_app. simpl.
  rewrite seq_app. simpl. rewrite zip_with_app by (by rewrite length_seq).
  done.
Qed.

Lemma idx_to_id_lookup (ids : list string) i :
  foldl (λ (m : gmap nat string) p, <[p.1 := p.2]> m) ∅ (enumerate ids) !! i
  = ids !! i.
Proof.
  induction ids as [|x ids IH] using rev_ind; simpl.
  { by rewrite lookup_empty. }
  rewrite enumerate_snoc, foldl_app. simpl.
  destruct (decide (length ids = i)) as [<-|Hne].
  - rewrite lookup_insert_eq, lookup_app_r by lia.
    by rewrite Nat.sub_diag.
  - rewrite lookup_insert_ne, IH by done.
    destruct (decide (i < length ids)).
    + by rewrite lookup_app_l.
    + rewrite !lookup_ge_None_2; [done|rewrite length_app; simpl; lia|lia].
Qed.

(** The dictionary built by [{id: idx for idx, id in enumerate(ids)}]
    maps an id to the last row that carries it. *)
Lemma id_to_idx_lookup (ids : list string) x i :
  foldl (λ (m : gmap string nat) p, <[p.2 := p.1]> m) ∅ (enumerate ids) !! x
  = Some i
  ↔ ids !! i = Some x ∧ ∀ j, i < j → ids !! j ≠ Some x.
Proof.
  revert i. induction ids as [|y ids IH] using rev_ind; intros i; simpl.
  { rewrite lookup_empty. split; [done|]. by intros [? _]. }
  rewrite enumerate_snoc, foldl_app. simpl.
  destruct (decide (y = x)) as [->|Hne].
  - rewrite lookup_insert_eq. split.
    + intros [= <-]. split.
      * rewrite lookup_app_r by lia. by rewrite Nat.sub_diag.
      * intros j Hj. rewrite lookup_ge_None_2; [done|].
        rewrite length_app. simpl. lia.
    + intros [Hi Hlast]. f_equal.
      destruct (decide (i = length ids)) as [->|Hi']; [done|].
      apply lookup_lt_Some in Hi as Hlt. rewrite length_app in Hlt. simpl in Hlt.
      exfalso. apply (Hlast (length ids)); [lia|].
      rewrite lookup_app_r by lia. by rewrite Nat.sub_diag.
  - rewrite lookup_insert_ne, IH by done. split.
    + intros [Hi Hlast]. apply lookup_lt_Some in Hi as Hlt. split.
      * by rewrite lookup_app_l.
      * intros j Hj. destruct (decide (j < length ids)).
        -- rewrite lookup_app_l by done. by apply Hlast.
        -- destruct (decide (j = length ids)) as [->|].
           ++ rewrite lookup_app_r by lia. rewrite Nat.sub_diag. simpl.
              congruence.
           ++ rewrite lookup_ge_None_2; [done|]. rewrite length_app. simpl. lia.
    + intros [Hi Hlast].
      assert (i < length ids) as Hlt.
      { apply lookup_lt_Some in Hi as Hlt. rewrite length_app in Hlt.
        simpl in Hlt. destruct (decide (i = length ids)) as [->|]; [|lia].
        rewrite lookup_app_r in Hi by lia. rewrite Nat.sub_diag in Hi.
        simpl in Hi. congruence. }
      rewrite lookup_app_l in Hi by done. split; [done|].
      intros j Hj Hjx. apply (Hlast j Hj).
      apply lookup_lt_Some in Hjx as ?. by rewrite lookup_app_l.
Qed.

Lemma id_to_idx_is_Some (ids : list string) x :
  x ∈ ids →
  is_Some (foldl (λ (m : gmap string nat) p, <[p.2 := p.1]> m) ∅
             (enumerate ids) !! x).
Proof.
  induction ids as [|y ids IH] using rev_ind; intros Hx.
  { by apply elem_of_nil in Hx. }
  rewrite enumerate_snoc, foldl_app. simpl.
  destruct (decide (y = x)) as [->|Hne].
  - rewrite lookup_insert_eq. by eexists.
  - rewrite lookup_insert_ne by done.
    apply elem_of_app in Hx as [Hx|Hx]; [by apply IH|].
    apply list_elem_of_singleton in Hx. congruence.
Qed.

Lemma id_maps_inverse (ids : list string) x i :
  NoDup ids →
  foldl (λ (m : gmap nat string) p, <[p.1 := p.2]> m) ∅ (enumerate ids) !! i
  = Some x
  ↔ foldl (λ (m : gmap string nat) p, <[p.2 := p.1]> m) ∅ (enumerate ids) !! x
    = Some i.
Proof.
  intros Hnd. rewrite idx_to_id_lookup, id_to_idx_lookup. split.
  - intros Hi. split; [done|]. intros j Hj Hjx.
    pose proof (NoDup_lookup _ _ _ _ Hnd Hi Hjx). lia.
  - by intros [? _].
Qed.


Section BuildInv.
Context `{Sqrt}.

(** What a successful [build_index] has gone through. *)
Lemma build_index_inv self df (cols : list string) b M ti :
  IndexBuilder.build_index self df cols = Ok (b, (M, ti)) →
  (∀ c, c ∈ cols → is_Some (num_cols df !! c))
  ∧ n_rows df ≠ 0 ∧ cols ≠ []
  ∧ b = {| IndexBuilder.scaler :=
             Some {| mean_ := column_mean df <$> cols;
                     scale_ := column_scale df <$> cols |} |}
  ∧ M = standardized df cols
  ∧ ∃ ids mds,
      str_cols df !! "id"%string = Some ids
      ∧ id_to_idx ti
        = foldl (λ (m : gmap string nat) p, <[p.2 := p.1]> m) ∅ (enumerate ids)
      ∧ idx_to_id ti
        = foldl (λ (m : gmap nat string) p, <[p.1 := p.2]> m) ∅ (enumerate ids)
      ∧ traverse (λ p : nat * Series,
                    let* md := IndexBuilder.row_metadata p.2 in Ok (p.1, md))
          (iterrows df) = Ok mds
      ∧ track_metadata ti
        = foldl (λ (m : gmap nat Metadata.t) p, <[p.1 := p.2]> m) ∅ mds.
Proof.
  intros Hb.
  assert (∀ c, c ∈ cols → is_Some (num_cols df !! c)) as Hcols.
  { unfold IndexBuilder.build_index in Hb.
    destruct (getitem_cols df cols) as [[m|]|] eqn:EX; [|done..].
    by apply (getitem_cols_numeric df cols m). }
  split; [done|].
  unfold IndexBuilder.build_index in Hb.
  pose proof (getitem_cols_imputed df cols Hcols) as HX.
  destruct (getitem_cols df cols) as [X|]; [|done]. simpl in *.
  injection HX as HX. rewrite HX in Hb. clear HX X. simpl in Hb.
  unfold fit_transform in Hb.
  destruct (decide (n_rows df = 0)) as [Hn|Hn].
  { exfalso. unfold fit in Hb. rewrite length_fmap, length_seq, Hn in Hb.
    done. }
  destruct (decide (cols = [])) as [->|Hc].
  { exfalso. unfold fit, n_features in Hb.
    rewrite length_fmap, length_seq in Hb.
    destruct (n_rows df); [done|]. simpl in Hb. done. }
  rewrite fit_imputed in Hb by done. simpl in Hb.
  unfold getitem_str_col in Hb.
  destruct (str_cols df !! "id"%string) as [ids|] eqn:Hid; [|done].
  simpl in Hb.
  destruct (traverse _ (iterrows df)) as [mds|] eqn:Hmds; [|done].
  simpl in Hb. injection Hb as <- <- <-.
  do 3 (split; [done|]). split.
  { unfold standardized. rewrite <-list_fmap_compose.
    apply list_fmap_ext. intros _ i _. simpl. apply transform_row_imputed. }
  by exists ids, mds.
Qed.

(** The two maps of a built index are inverse to each other on a table
    without repeated ids: row [i] maps to the id of row [i], and an id
    maps back, always, to a row that carries it, the last one when the
    id is repeated. *)
Theorem build_index_id_maps self df (cols : list string) b M ti ids :
  IndexBuilder.build_index self df cols = Ok (b, (M, ti)) →
  str_cols df !! "id"%string = Some ids →
  (∀ i, idx_to_id ti !! i = ids !! i)
  ∧ (∀ x i, id_to_idx ti !! x = Some i →
       idx_to_id ti !! i = Some x ∧ ∀ j, i < j → ids !! j ≠ Some x)
  ∧ (∀ x, x ∈ ids → is_Some (id_to_idx ti !! x))
  ∧ (NoDup ids →
       ∀ x i, idx_to_id ti !! i = Some x ↔ id_to_idx ti !! x = Some i).
Proof.
  intros Hb Hid.
  destruct (build_index_inv _ _ _ _ _ _ Hb)
    as (_ & _ & _ & _ & _ & ids' & mds & Hid' & Hto & Hfrom & _).
  rewrite Hid in Hid'. injection Hid' as <-.
  assert (∀ i, idx_to_id ti !! i = ids !! i) as Hidx
    by (intros i; rewrite Hfrom; apply idx_to_id_lookup).
  split; [done|]. split; [|split].
  - intros x i Hx. rewrite Hto in Hx. apply id_to_idx_lookup in Hx.
    by rewrite Hidx.
  - intros x Hx. rewrite Hto. by apply id_to_idx_is_Some.
  - intros Hnd x i. rewrite Hfrom, Hto. by apply id_maps_inverse.
Qed.

End BuildInv.

(** ** Sums and means *)

Lemma inject_Z_S n : (inject_Z (Z.of_nat (S n)) == inject_Z (Z.of_nat n) + 1)%Q.
Proof.
  rewrite Nat2Z.inj_succ. unfold Z.succ. by rewrite inject_Z_plus.
Qed.

Lemma inject_Z_pos_ne n : n ≠ 0 → ¬ (inject_Z (Z.of_nat n) == 0)%Q.
Proof.
  intros Hn Hq. unfold Qeq in Hq. simpl in Hq. lia.
Qed.

Lemma sum_fmap_ext {A} (f g : A → Q) l :
  (∀ x, f x == g x)%Q →
  (foldr Qplus 0 (f <$> l) == foldr Qplus 0 (g <$> l))%Q.
Proof.
  intros Hfg. induction l as [|x l IH]; simpl; [done|].
  change (list_fmap A Q) with (@fmap list _ A Q). by rewrite IH, Hfg.
Qed.

Lemma sum_fmap_scale {A} (f : A → Q) c l :
  (foldr Qplus 0 ((λ x, f x * c) <$> l) == foldr Qplus 0 (f <$> l) * c)%Q.
Proof.
  induction l as [|x l IH]; simpl; [ring|].
  change (list_fmap A Q) with (@fmap list _ A Q). rewrite IH. ring.
Qed.

Lemma sum_fmap_shift (m : Q) (a : Vec) :
  (foldr Qplus 0 ((λ x, x - m) <$> a)
   == foldr Qplus 0 a - inject_Z (Z.of_nat (length a)) * m)%Q.
Proof.
  induction a as [|x a IH].
  { simpl. ring. }
  rewrite fmap_cons. cbn [foldr length]. rewrite IH, inject_Z_S. ring.
Qed.

(** Centring an array on its mean and dividing by a scale gives an
    array of mean zero. *)
Lemma np_mean_standardized (a : Vec) (s : Q) :
  a ≠ [] →
  (np_mean ((λ x, (x - np_mean a) / s) <$> a) == 0)%Q.
Proof.
  intros Ha. unfold np_mean at 1. rewrite length_fmap.
  assert (length a ≠ 0) as Hn by (by destruct a).
  pose proof (inject_Z_pos_ne _ Hn) as Hq.
  rewrite (sum_fmap_ext _ (λ x, (x - np_mean a) * / s)%Q) by (intros; reflexivity).
  rewrite (sum_fmap_scale (λ x, x - np_mean a)%Q), sum_fmap_shift.
  assert (foldr Qplus 0 a - inject_Z (Z.of_nat (length a)) * np_mean a == 0)%Q
    as -> by (unfold np_mean; by field).
  unfold Qdiv. ring.
Qed.

Lemma np_mean_fmap_ext {A} (f g : A → Q) l :
  (∀ x, f x == g x)%Q → (np_mean (f <$> l) == np_mean (g <$> l))%Q.
Proof.
  intros Hfg. unfold np_mean. rewrite !length_fmap.
  by rewrite (sum_fmap_ext f g).
Qed.

Lemma np_mean_fmap_scale {A} (f : A → Q) c l :
  (np_mean ((λ x, f x * c)%Q <$> l) == np_mean (f <$> l) * c)%Q.
Proof.
  unfold np_mean. rewrite !length_fmap, sum_fmap_scale. unfold Qdiv. ring.
Qed.

(** Its variance is the variance of the array divided by the square of
    the scale. *)
Lemma np_var_standardized (a : Vec) (s : Q) :
  a ≠ [] →
  (np_var ((λ x, (x - np_mean a) / s) <$> a) == np_var a * (/ s * / s))%Q.
Proof.
  intros Ha. pose proof (np_mean_standardized a s Ha) as Hmu.
  unfold np_var. cbv zeta. rewrite <-list_fmap_compose.
  rewrite (np_mean_fmap_ext _
    (λ x, ((x - np_mean a) * (x - np_mean a)) * (/ s * / s))%Q).
  2: { intros x. simpl. rewrite Hmu. unfold Qdiv. ring. }
  apply (np_mean_fmap_scale (λ x, (x - np_mean a) * (x - np_mean a))%Q).
Qed.

Section BuildShape.
Context `{Sqrt}.

Lemma column_standardized df (cols : list string) j name :
  cols !! j = Some name →
  column (standardized df cols) j
  = (λ x, (x - column_mean df name) / column_scale df name)%Q
      <$> imputed_column df name.
Proof.
  intros Hj. unfold column, standardized, imputed_column.
  rewrite <-!list_fmap_compose. apply list_fmap_ext. intros _ i _. simpl.
  by rewrite (np_get_fmap _ _ _ _ Hj).
Qed.

(** A build that succeeds was given at least one row and one feature
    column; its matrix has one row per row of the table, each with one
    entry per feature column, and its scaler holds one mean and one
    scale per feature column. *)
Theorem build_index_shapes self df (cols : list string) b M ti :
  IndexBuilder.build_index self df cols = Ok (b, (M, ti)) →
  n_rows df ≠ 0 ∧ cols ≠ []
  ∧ length M = n_rows df
  ∧ Forall (λ row : Vec, length row = length cols) M
  ∧ ∃ s, IndexBuilder.scaler b = Some s
         ∧ length (mean_ s) = length cols
         ∧ length (scale_ s) = length cols.
Proof.
  intros Hb.
  destruct (build_index_inv _ _ _ _ _ _ Hb) as (_ & Hn & Hc & -> & -> & _).
  do 2 (split; [done|]). unfold standardized. split; [|split].
  - by rewrite length_fmap, length_seq.
  - apply Forall_fmap, Forall_forall. intros i _. simpl.
    by rewrite length_fmap.
  - eexists. split; [done|]. simpl. by rewrite !length_fmap.
Qed.

(** Every column of a built matrix has mean zero.  A column whose raw
    values (missing ones counting as zero) are all equal has variance
    zero; any other has variance one, as far as the square root of its
    raw variance is exact. *)
Theorem build_index_standardizes self df (cols : list string) b M ti j name :
  IndexBuilder.build_index self df cols = Ok (b, (M, ti)) →
  cols !! j = Some name →
  let v := np_var (imputed_column df name) in
  (np_mean (column M j) == 0)%Q
  ∧ ((v == 0)%Q → (np_var (column M j) == 0)%Q)
  ∧ (¬ (v == 0)%Q → (np_sqrt v * np_sqrt v == v)%Q →
     (np_var (column M j) == 1)%Q).
Proof.
  intros Hb Hj v.
  destruct (build_index_inv _ _ _ _ _ _ Hb) as (_ & Hn & _ & _ & -> & _).
  rewrite (column_standardized _ _ _ _ Hj).
  assert (imputed_column df name ≠ []) as Ha.
  { unfold imputed_column. destruct (n_rows df); [done|]. done. }
  unfold column_mean. split; [by apply np_mean_standardized|].
  rewrite np_var_standardized by done. fold v.
  unfold column_scale, scale_of_var. fold v. clearbody v. split.
  - intros Hv. set (s := if Qeq_bool v 0 then _ else _). clearbody s.
    rewrite Hv. ring.
  - intros Hv Hsq. destruct (Qeq_bool v 0) eqn:E.
    { by apply Qeq_bool_eq in E. }
    set (s := np_sqrt v) in *. clearbody s.
    rewrite <-Hsq. field. intros H0. apply Hv.
    rewrite <-Hsq, H0. ring.
Qed.

End BuildShape.

(** ** The metadata of a built index *)

Lemma foldl_insert_last {V} (mds : list (nat * V)) (m0 : gmap nat V) k :
  (∀ p v, mds !! p = Some (k, v) →
     (∀ q w, p < q → mds !! q ≠ Some (k, w)) →
     foldl (λ (m : gmap nat V) p, <[p.1 := p.2]> m) m0 mds !! k = Some v)
  ∧ (k ∉ mds.*1 →
     foldl (λ (m : gmap nat V) p, <[p.1 := p.2]> m) m0 mds !! k = m0 !! k).
Proof.
  induction mds as [|[k' w'] mds [IH1 IH2]] using rev_ind; simpl.
  { split; [|done]. intros p v Hp. by rewrite lookup_nil in Hp. }
  rewrite foldl_app. simpl. split.
  - intros p v Hp Hlast. destruct (decide (k' = k)) as [->|Hne].
    + rewrite lookup_insert_eq.
      destruct (decide (p < length mds)) as [Hlt|Hge].
      * exfalso. apply (Hlast (length mds) w' Hlt).
        by rewrite lookup_app_r, Nat.sub_diag by lia.
      * rewrite lookup_app_r in Hp by lia.
        destruct (p - length mds) as [|d]; simpl in Hp; [|done].
        by injection Hp as ->.
    + rewrite lookup_insert_ne by done.
      assert (p < length mds) as Hlt.
      { destruct (decide (p < length mds)) as [|Hge]; [done|].
        rewrite lookup_app_r in Hp by lia.
        destruct (p - length mds) as [|d]; simpl in Hp; [|done].
        by injection Hp as -> ->. }
      rewrite lookup_app_l in Hp by done. apply (IH1 p v Hp).
      intros q w Hq Hw. apply (Hlast q w Hq).
      rewrite lookup_app_l; [done|]. by apply lookup_lt_Some in Hw.
  - intros Hout. rewrite fmap_app in Hout. simpl in Hout.
    apply not_elem_of_app in Hout as [Hout Hk].
    apply not_elem_of_cons in Hk as [Hk _].
    rewrite lookup_insert_ne by done. by apply IH2.
Qed.

Lemma traverse_rows {V} (f : Series → result V) (h : nat → nat)
    (g : nat → Series) (l : list nat) mds :
  traverse (λ p : nat * Series, let* md := f p.2 in Ok (p.1, md))
    ((λ i, (h i, g i)) <$> l) = Ok mds →
  mds.*1 = h <$> l
  ∧ ∀ p i, l !! p = Some i →
      ∃ md, mds !! p = Some (h i, md) ∧ f (g i) = Ok md.
Proof.
  revert mds. induction l as [|k l IH]; intros mds; simpl.
  { intros [= <-]. split; [done|]. intros p i Hp. by rewrite lookup_nil in Hp. }
  destruct (f (g k)) as [md0|] eqn:Ek; simpl; [|done].
  destruct (traverse _ _) as [mds'|]; simpl; [|done].
  intros [= <-]. destruct (IH mds' eq_refl) as [IH1 IH2]. split.
  - rewrite fmap_cons. simpl. by f_equal.
  - intros [|p] i Hp; simpl in Hp.
    + injection Hp as <-. by exists md0.
    + by apply IH2.
Qed.

Section BuildMetadata.
Context `{Sqrt}.

(** The metadata of a built index is keyed by the labels of the rows,
    where [idx_to_id] is keyed by their positions.  Under the label of
    row [i], when no later row carries the same label, the index holds
    the metadata read from that row, which carries the id that
    [idx_to_id] gives for position [i]; under a key that is no row's
    label it holds nothing.  So on a table whose labels are the
    positions, as a table just read from a file has them, the entry
    under [i] is that of row [i] and there is no entry from [n_rows]
    on. *)
Theorem build_index_metadata self df (cols : list string) b M ti :
  IndexBuilder.build_index self df cols = Ok (b, (M, ti)) →
  (∀ i, i < n_rows df →
     (∀ j, i < j < n_rows df → label df j ≠ label df i) →
     ∃ md, track_metadata ti !! label df i = Some md
           ∧ IndexBuilder.row_metadata {| frame := df; pos := i |} = Ok md
           ∧ ∀ x, idx_to_id ti !! i = Some x → Metadata.id md = x)
  ∧ (∀ l, (∀ i, i < n_rows df → label df i ≠ l) →
       track_metadata ti !! l = None)
  ∧ ((∀ i, i < n_rows df → label df i = i) →
     (∀ i, i < n_rows df →
        ∃ md, track_metadata ti !! i = Some md
              ∧ IndexBuilder.row_metadata {| frame := df; pos := i |} = Ok md
              ∧ ∀ x, idx_to_id ti !! i = Some x → Metadata.id md = x)
     ∧ (∀ i, n_rows df ≤ i → track_metadata ti !! i = None)).
Proof.
  intros Hb.
  destruct (build_index_inv _ _ _ _ _ _ Hb)
    as (_ & _ & _ & _ & _ & ids & mds & Hid & _ & Hfrom & Hmds & ->).
  unfold iterrows in Hmds.
  apply (traverse_rows IndexBuilder.row_metadata (label df)
           (λ i, {| frame := df; pos := i |})) in Hmds as [Hkeys Hrows].
  assert (∀ i, i < n_rows df →
     (∀ j, i < j < n_rows df → label df j ≠ label df i) →
     ∃ md, foldl (λ (m : gmap nat Metadata.t) p, <[p.1 := p.2]> m) ∅ mds
             !! label df i = Some md
           ∧ IndexBuilder.row_metadata {| frame := df; pos := i |} = Ok md
           ∧ ∀ x, idx_to_id ti !! i = Some x → Metadata.id md = x) as Hrow.
  { intros i Hi Hlast.
    destruct (Hrows i i) as (md & Hmd & Hread).
    { by rewrite lookup_seq. }
    exists md. split; [|split; [done|]].
    - apply (proj1 (foldl_insert_last mds ∅ (label df i)) i md Hmd).
      intros q w Hq Hw.
      assert (q < n_rows df) as Hqn.
      { apply lookup_lt_Some in Hw.
        rewrite <-(length_fmap fst mds), Hkeys, length_fmap, length_seq in Hw.
        done. }
      destruct (Hrows q q) as (md' & Hmd' & _); [by rewrite lookup_seq|].
      rewrite Hw in Hmd'. injection Hmd' as Hl _.
      apply (Hlast q); [lia|done].
    - intros x Hx. rewrite Hfrom, idx_to_id_lookup in Hx.
      unfold IndexBuilder.row_metadata in Hread.
      unfold getitem_str in Hread. simpl in Hread. rewrite Hid in Hread.
      simpl in Hread. rewrite Hx in Hread. simpl in Hread.
      destruct (py_int _); simpl in Hread; [|done].
      destruct (match get_num _ "release_year" None with
                | Some _ => _ | None => _ end); simpl in Hread; [|done].
      by injection Hread as <-. }
  assert (∀ l, (∀ i, i < n_rows df → label df i ≠ l) →
     foldl (λ (m : gmap nat Metadata.t) p, <[p.1 := p.2]> m) ∅ mds !! l = None)
    as Hnone.
  { intros l Hl. rewrite (proj2 (foldl_insert_last mds ∅ l)); [done|].
    rewrite Hkeys. intros Hin.
    apply list_elem_of_fmap in Hin as (i & -> & Hi).
    apply elem_of_seq in Hi. apply (Hl i); [lia|done]. }
  split; [done|]. split; [done|].
  intros Hpos. split.
  - intros i Hi. destruct (Hrow i Hi) as (md & Hmd & Hread).
    { intros j Hj. rewrite (Hpos i Hi), (Hpos j) by lia. lia. }
    rewrite (Hpos i Hi) in Hmd. by exists md.
  - intros i Hi. apply Hnone. intros j Hj. rewrite (Hpos j Hj). lia.
Qed.

End BuildMetadata.

(** ** Deployment *)

Section Deployment.
Context `{Sqrt}.


End Deployment.

(** * Further properties of the recommender *)

Lemma StronglySorted_sublist {A} (R : relation A) l1 l2 :
  sublist l1 l2 → StronglySorted R l2 → StronglySorted R l1.
Proof.
  induction 1 as [|x l1 l2 Hsub IH|x l1 l2 Hsub IH]; intros Hs; [done| |].
  - apply StronglySorted_inv in Hs as [Hs Hx]. constructor; [auto|].
    rewrite Forall_forall in *. intros y Hy. eapply Hx, elem_of_sublist; eauto.
  - apply StronglySorted_inv in Hs as [Hs _]. auto.
Qed.

Lemma iloc_inv df idx td :
  iloc df idx = Ok td → idx < n_rows df ∧ td = {| frame := df; pos := idx |}.
Proof.
  unfold iloc. destruct (idx <? n_rows df) eqn:E; [|done].
  intros [= <-]. apply Nat.ltb_lt in E. done.
Qed.

Lemma get_num_dflt row col y d :
  get_num row col None = Some y → get_num row col d = Some y.
Proof.
  unfold get_num. by destruct (num_cols (frame row) !! col).
Qed.

(** [int(q)] lies on the same side of an integer as [q] does. *)
Lemma py_int_lower m q z :
  py_int (Some q) = Ok z → (inject_Z m <= q)%Q → (m ≤ z)%Z.
Proof.
  intros [= <-]. destruct q as [a d]. unfold Qle. simpl. intros Hle.
  pose proof (Pos2Z.is_pos d).
  Z.to_euclidean_division_equations. nia.
Qed.

Lemma py_int_upper m q z :
  py_int (Some q) = Ok z → (q <= inject_Z m)%Q → (z ≤ m)%Z.
Proof.
  intros [= <-]. destruct q as [a d]. unfold Qle. simpl. intros Hle.
  pose proof (Pos2Z.is_pos d).
  Z.to_euclidean_division_equations. nia.
Qed.

Lemma Qlt_bool_false x y : Qlt_bool x y = false → (y <= x)%Q.
Proof.
  unfold Qlt_bool. intros Hb. apply negb_false_iff in Hb.
  by apply Qle_bool_iff.
Qed.

(** What an entry of the result holds. *)
Lemma recommendation_inv track_data artist score r :
  MusicRecommender.recommendation track_data artist score = Ok r →
  Recommendation.similarity_score r = score
  ∧ getitem_str track_data "id" = Ok (Recommendation.id r)
  ∧ py_int (get_num track_data "popularity" (Some 0%Q))
    = Ok (Recommendation.popularity r)
  ∧ match get_num track_data "release_year" None with
    | Some y => ∃ z, py_int (Some y) = Ok z
                     ∧ Recommendation.release_year r = Some z
    | None => Recommendation.release_year r = None
    end.
Proof.
  unfold MusicRecommender.recommendation.
  destruct (getitem_str _ _) as [i|]; simpl; [|done].
  destruct (py_int _) as [p|]; simpl; [|done].
  destruct (get_num track_data "release_year" None) as [y|] eqn:Ey; simpl.
  - rewrite (get_num_dflt _ _ _ _ Ey). simpl. intros [= <-]. simpl.
    do 3 (split; [done|]). by eexists.
  - by intros [= <-].
Qed.

(** The loop accepts a sub-sequence of the candidates, in their order:
    rows of the table that pass both tests, each turned into one entry
    with the candidate's score. *)
Lemma collect_picks self n d mp yr cands :
  ∀ recs seen out,
    MusicRecommender.collect self n d mp yr cands recs seen = Ok out →
    ∃ picks rs,
      out = recs ++ rs ∧ sublist picks cands
      ∧ Forall2 (λ (p : nat * Q) r,
          let td := {| frame := MusicRecommender.df self; pos := p.1 |} in
          p.1 < n_rows (MusicRecommender.df self)
          ∧ MusicRecommender.below_min_popularity td mp = false
          ∧ MusicRecommender.outside_year_range td yr = false
          ∧ MusicRecommender.recommendation td
              (get_str td "artists" "Unknown") p.2 = Ok r) picks rs.
Proof.
  induction cands as [|[idx score] cands IH]; intros recs seen out; simpl.
  { intros [= <-]. exists [], []. rewrite app_nil_r. by repeat constructor. }
  destruct (iloc _ idx) as [td|] eqn:Etd; simpl; [|done].
  apply iloc_inv in Etd as [Hidx ->].
  assert (∀ recs seen,
    MusicRecommender.collect self n d mp yr cands recs seen = Ok out →
    ∃ picks rs, out = recs ++ rs ∧ sublist picks ((idx, score) :: cands)
      ∧ Forall2 (λ (p : nat * Q) r,
          let td := {| frame := MusicRecommender.df self; pos := p.1 |} in
          p.1 < n_rows (MusicRecommender.df self)
          ∧ MusicRecommender.below_min_popularity td mp = false
          ∧ MusicRecommender.outside_year_range td yr = false
          ∧ MusicRecommender.recommendation td
              (get_str td "artists" "Unknown") p.2 = Ok r) picks rs) as Hskip.
  { intros recs' seen' Hout.
    destruct (IH _ _ _ Hout) as (picks & rs & -> & Hsub & Hall).
    exists picks, rs. split; [done|]. split; [by apply sublist_cons|done]. }
  destruct (MusicRecommender.below_min_popularity _ mp) eqn:Epop; [by apply Hskip|].
  destruct (MusicRecommender.outside_year_range _ yr) eqn:Eyr; [by apply Hskip|].
  destruct (d && bool_decide _); [by apply Hskip|].
  destruct (MusicRecommender.recommendation _ _ _) as [r|] eqn:Er; simpl; [|done].
  destruct (n <=? _)%Z.
  - intros [= <-]. exists [(idx, score)], [r]. split; [done|].
    split; [apply sublist_skip, sublist_nil_l|]. by repeat constructor.
  - intros Hout. destruct (IH _ _ _ Hout) as (picks & rs & -> & Hsub & Hall).
    exists ((idx, score) :: picks), (r :: rs). rewrite <-app_assoc.
    split; [done|]. split; [by apply sublist_skip|]. by constructor.
Qed.

(** The loop stops at the requested number of entries, and after the
    first one when the request is not positive. *)
Lemma collect_length self n d mp yr cands :
  ∀ recs seen out,
    MusicRecommender.collect self n d mp yr cands recs seen = Ok out →
    (Z.of_nat (length recs) < Z.max n 1)%Z →
    (Z.of_nat (length out) ≤ Z.max n 1)%Z.
Proof.
  induction cands as [|[idx score] cands IH]; intros recs seen out; simpl.
  { intros [= <-]. lia. }
  destruct (iloc _ idx) as [td|]; simpl; [|done].
  destruct (MusicRecommender.below_min_popularity _ mp); [by apply IH|].
  destruct (MusicRecommender.outside_year_range _ yr); [by apply IH|].
  destruct (d && bool_decide _); [by apply IH|].
  destruct (MusicRecommender.recommendation _ _ _) as [r|]; simpl; [|done].
  rewrite length_app. simpl.
  destruct (n <=? _)%Z eqn:En.
  - intros [= <-] Hlt. rewrite length_app. simpl. lia.
  - intros Hout Hlt. apply (IH _ _ _ Hout). rewrite length_app. simpl.
    apply Z.leb_gt in En. lia.
Qed.

Section Answers.
Context `{Sqrt, ArgSort}.

(** The candidates a successful request has ranked. *)
Lemma get_recommendations_inv self track_id n d mp yr recs :
  MusicRecommender.get_recommendations self track_id n d mp yr = Ok recs →
  ∃ track_idx q sims k,
    id_to_idx (MusicRecommender.track_index self) !! track_id = Some track_idx
    ∧ MusicRecommender.weighted_feature_matrix self !! track_idx = Some q
    ∧ k = Z.min (if d then n * 5 else n)
            (Z.of_nat (length (MusicRecommender.feature_matrix self)))
    ∧ length sims = length (MusicRecommender.weighted_feature_matrix self)
    ∧ MusicRecommender.collect self n d mp yr
        (zip (py_slice_to (reverse (argsort sims)) k)
             (np_get sims <$> py_slice_to (reverse (argsort sims)) k)) [] ∅
      = Ok recs.
Proof.
  unfold MusicRecommender.get_recommendations.
  destruct (id_to_idx _ !! track_id) as [track_idx|]; [|done].
  destruct (MusicRecommender.weighted_feature_matrix self !! track_idx)
    as [q|] eqn:Eq; simpl; [|done].
  destruct (SimilarityComputer.get_top_k_similar _ _ _ _)
    as [[idxs scores]|] eqn:Ek; simpl; [|done].
  destruct (top_k_inv _ _ _ _ _ _ Ek)
    as (sims0 & sims & _ & Hlen & _ & _ & -> & ->).
  intros Hout. eexists track_idx, q, sims, _.
  split; [done|]. split; [done|]. split; [reflexivity|]. by split.
Qed.

(** The recommendations come in non-increasing order of similarity;
    there are at most [n_recommendations] of them, none when that is
    zero, and at most one when it is negative. *)
Theorem get_recommendations_ranked self track_id n d mp yr recs :
  MusicRecommender.get_recommendations self track_id n d mp yr = Ok recs →
  StronglySorted (flip Qle) (Recommendation.similarity_score <$> recs)
  ∧ ((0 ≤ n)%Z → (Z.of_nat (length recs) ≤ n)%Z)
  ∧ ((n < 0)%Z → length recs ≤ 1).
Proof.
  intros Hrecs.
  destruct (get_recommendations_inv _ _ _ _ _ _ _ Hrecs)
    as (track_idx & q & sims & k & _ & _ & Hk & Hlen & Hout).
  set (idxs := py_slice_to (reverse (argsort sims)) k) in *.
  split; [|split].
  - destruct (collect_picks _ _ _ _ _ _ _ _ _ Hout)
      as (picks & rs & -> & Hsub & Hall). simpl.
    assert (Recommendation.similarity_score <$> rs = picks.*2) as ->.
    { clear Hsub Hout Hrecs. induction Hall as [|p r picks rs Hp _ IH]; [done|].
      rewrite !fmap_cons. f_equal; [|done].
      destruct Hp as (_ & _ & _ & Hr). by apply recommendation_inv in Hr as [-> _]. }
    apply (StronglySorted_sublist _ _ (np_get sims <$> idxs)).
    + rewrite <-(snd_zip idxs (np_get sims <$> idxs)) by (by rewrite length_fmap).
      by apply fmap_sublist.
    + apply ranking_sorted.
  - intros Hn. destruct (decide (n = 0%Z)) as [->|Hn0].
    + assert (k = 0%Z) as Hk0 by (destruct d; lia).
      unfold idxs in Hout. rewrite Hk0 in Hout. simpl in Hout.
      unfold py_slice_to in Hout. simpl in Hout. by injection Hout as <-.
    + pose proof (collect_length _ _ _ _ _ _ _ _ _ Hout) as Hl.
      simpl in Hl. lia.
  - intros Hn. pose proof (collect_length _ _ _ _ _ _ _ _ _ Hout) as Hl.
    simpl in Hl. lia.
Qed.

(** Every recommendation is read from a row of the table, no row
    twice, and passes the two tests: its popularity is at least a
    non-zero minimum, and with a year range it has a release year,
    inside the range. *)
Theorem get_recommendations_filters self track_id n d mp yr recs :
  MusicRecommender.get_recommendations self track_id n d mp yr = Ok recs →
  (∃ rows, NoDup rows ∧ length rows = length recs
     ∧ ∀ p i r, rows !! p = Some i → recs !! p = Some r →
         i < n_rows (MusicRecommender.df self)
         ∧ getitem_str {| frame := MusicRecommender.df self; pos := i |} "id"
           = Ok (Recommendation.id r))
  ∧ ∀ r, r ∈ recs →
      (∀ m, mp = Some m → m ≠ 0%Z → (m ≤ Recommendation.popularity r)%Z)
      ∧ (∀ lo hi, yr = Some (lo, hi) →
           ∃ y, Recommendation.release_year r = Some y ∧ (lo ≤ y ≤ hi)%Z).
Proof.
  intros Hrecs.
  destruct (get_recommendations_inv _ _ _ _ _ _ _ Hrecs)
    as (track_idx & q & sims & k & _ & _ & _ & _ & Hout).
  set (idxs := py_slice_to (reverse (argsort sims)) k) in *.
  destruct (collect_picks _ _ _ _ _ _ _ _ _ Hout)
    as (picks & rs & -> & Hsub & Hall). simpl. split.
  - exists picks.*1. split; [|split].
    + apply (sublist_NoDup picks.*1 idxs); [apply ranking_NoDup|].
      rewrite <-(fst_zip idxs (np_get sims <$> idxs)) by (by rewrite length_fmap).
      by apply fmap_sublist.
    + rewrite length_fmap. by eapply Forall2_length.
    + intros p i r Hi Hr. rewrite list_lookup_fmap in Hi.
      destruct (picks !! p) as [pk|] eqn:Epk; [|done]. injection Hi as <-.
      destruct (Forall2_lookup_lr _ _ _ _ _ _ Hall Epk Hr) as (? & _ & _ & Hrec).
      split; [done|]. by apply recommendation_inv in Hrec as (_ & ? & _).
  - intros r Hr. apply list_elem_of_lookup in Hr as [p Hr].
    destruct (Forall2_lookup_r _ _ _ _ _ Hall Hr) as (pk & _ & _ & Hpop & Hyr & Hrec).
    apply recommendation_inv in Hrec as (_ & _ & Hp & Hy). split.
    + intros m -> Hm. unfold MusicRecommender.below_min_popularity in Hpop.
      simpl in Hpop.
      destruct (get_num _ "popularity" _) as [pv|]; [|done].
      destruct (m =? 0)%Z eqn:Em; [apply Z.eqb_eq in Em; done|].
      simpl in Hpop. apply Qlt_bool_false in Hpop.
      by eapply py_int_lower.
    + intros lo hi ->. unfold MusicRecommender.outside_year_range in Hyr.
      destruct (get_num _ "release_year" None) as [y|]; [|done].
      destruct Hy as (z & Hz & ->). exists z. split; [done|].
      apply orb_false_iff in Hyr as [Hlo Hhi].
      apply Qlt_bool_false in Hlo, Hhi.
      split; [by eapply py_int_lower|by eapply py_int_upper].
Qed.

End Answers.

(** ** Requests to a deployed recommender *)




Section Deployed.
Context `{Sqrt, ArgSort}.





(** What a successful request by features has ranked. *)
Lemma by_features_inv self da e v t n recs :
  MusicRecommender.get_recommendations_by_features self da e v t n = Ok recs →
  ∃ sims,
    length sims = length (MusicRecommender.weighted_feature_matrix self)
    ∧ traverse (λ p : nat * Q,
                  let* track_data := iloc (MusicRecommender.df self) p.1 in
                  MusicRecommender.feature_recommendation track_data p.2)
        (zip (py_slice_to (reverse (argsort sims)) n)
             (np_get sims <$> py_slice_to (reverse (argsort sims)) n))
      = Ok recs.
Proof.
  unfold MusicRecommender.get_recommendations_by_features.
  destruct (MusicRecommender.feature_query _ _ _ _ _) as [q|]; simpl; [|done].
  destruct (SimilarityComputer.get_top_k_similar _ _ _ _)
    as [[idxs scores]|] eqn:Ek; simpl; [|done].
  destruct (top_k_inv _ _ _ _ _ _ Ek)
    as (sims0 & sims & _ & Hlen & _ & _ & -> & ->).
  intros Hrecs. by exists sims.
Qed.

(** A request by features returns as many entries as the slice [[:n]]
    of the catalog has rows (so the catalog less its last [-n] rows for
    a negative [n]), in non-increasing order of similarity, entry [p]
    being read from the row ranked [p]. *)
Theorem by_features_ranked self da e v t n recs :
  MusicRecommender.get_recommendations_by_features self da e v t n = Ok recs →
  length recs
  = slice_count (length (MusicRecommender.weighted_feature_matrix self)) n
  ∧ StronglySorted (flip Qle) (FeatureRecommendation.similarity_score <$> recs)
  ∧ ∃ rows, NoDup rows ∧ length rows = length recs
      ∧ ∀ p i rec, rows !! p = Some i → recs !! p = Some rec →
          i < n_rows (MusicRecommender.df self)
          ∧ getitem_str {| frame := MusicRecommender.df self; pos := i |} "id"
            = Ok (FeatureRecommendation.id rec).
Proof.
  intros Hrecs. destruct (by_features_inv _ _ _ _ _ _ _ Hrecs) as (sims & Hlen & Ht).
  set (idxs := py_slice_to (reverse (argsort sims)) n) in *.
  pose proof (traverse_length _ _ _ Ht) as Hl.
  rewrite length_zip, length_fmap, Nat.min_id in Hl.
  apply traverse_Forall2 in Ht.
  assert (∀ p i rec, idxs !! p = Some i → recs !! p = Some rec →
            i < n_rows (MusicRecommender.df self)
            ∧ getitem_str {| frame := MusicRecommender.df self; pos := i |} "id"
              = Ok (FeatureRecommendation.id rec)
            ∧ FeatureRecommendation.similarity_score rec = np_get sims i)
    as Hrow.
  { intros p i rec Hi Hrec.
    assert (zip idxs (np_get sims <$> idxs) !! p = Some (i, np_get sims i)) as Hz.
    { apply lookup_zip_with_Some. exists i, (np_get sims i).
      split; [done|]. split; [done|]. by rewrite list_lookup_fmap, Hi. }
    pose proof (Forall2_lookup_lr _ _ _ _ _ _ Ht Hz Hrec) as Hf. simpl in Hf.
    destruct (iloc _ i) as [td|] eqn:Etd; simpl in Hf; [|done].
    apply iloc_inv in Etd as [Hlt ->]. split; [done|].
    unfold MusicRecommender.feature_recommendation in Hf.
    destruct (getitem_str _ "id") as [tid|]; simpl in Hf; [|done].
    by injection Hf as <-. }
  split; [|split].
  - rewrite Hl, <-Hlen. apply ranking_length.
  - assert (FeatureRecommendation.similarity_score <$> recs
            = np_get sims <$> idxs) as ->; [|apply ranking_sorted].
    apply list_eq. intros p. rewrite !list_lookup_fmap.
    destruct (recs !! p) as [rec|] eqn:Er; simpl.
    + destruct (lookup_lt_is_Some_2 idxs p) as [i Hi].
      { rewrite <-Hl. by eapply lookup_lt_Some. }
      rewrite Hi. simpl. f_equal. by apply (Hrow p i rec).
    + rewrite lookup_ge_None_2; [done|]. rewrite <-Hl. by apply lookup_ge_None.
  - exists idxs. split; [apply ranking_NoDup|]. split; [done|].
    intros p i rec Hi Hrec. destruct (Hrow p i rec Hi Hrec) as (? & ? & _).
    done.
Qed.



End Deployed.

(** * The index-building script *)



Section Script.
Context `{Sqrt}.



End Script.

(** * The data cleaner *)
































Section CleanThenBuild.
Context `{Sqrt}.



End CleanThenBuild.

(** * The feature engineer *)

Lemma clip_range x lo hi :
  (lo <= hi)%Q →
  (lo <= FeatureEngineer.clip x lo hi <= hi)%Q.
Proof.
  intros Hle. unfold FeatureEngineer.clip, Qlt_bool.
  destruct (Qle_bool lo x) eqn:E1; simpl.
  2: { split; [apply Qle_refl|done]. }
  apply Qle_bool_iff in E1.
  destruct (Qle_bool x hi) eqn:E2; simpl.
  - apply Qle_bool_iff in E2. done.
  - split; [done|apply Qle_refl].
Qed.

Lemma clip_inside x lo hi :
  (lo <= x <= hi)%Q → FeatureEngineer.clip x lo hi = x.
Proof.
  intros [Hlo Hhi]. unfold FeatureEngineer.clip, Qlt_bool.
  apply Qle_bool_iff in Hlo, Hhi. by rewrite Hlo, Hhi.
Qed.

Lemma clip_below x lo hi :
  (lo <= hi)%Q → (x <= lo)%Q → (FeatureEngineer.clip x lo hi == lo)%Q.
Proof.
  intros Hle Hx. unfold FeatureEngineer.clip, Qlt_bool.
  destruct (Qle_bool lo x) eqn:E1; simpl; [|reflexivity].
  apply Qle_bool_iff in E1. assert (x == lo)%Q as Heq by (by apply Qle_antisym).
  destruct (Qle_bool x hi) eqn:E2; simpl; [done|].
  apply Qle_bool_false in E2. exfalso.
  apply (Qlt_irrefl hi). eapply Qlt_le_trans; [exact E2|].
  eapply Qle_trans; [exact Hx|exact Hle].
Qed.

Lemma clip_above x lo hi :
  (lo <= hi)%Q → (hi <= x)%Q → (FeatureEngineer.clip x lo hi == hi)%Q.
Proof.
  intros Hle Hx. unfold FeatureEngineer.clip, Qlt_bool.
  destruct (Qle_bool lo x) eqn:E1; simpl.
  - destruct (Qle_bool x hi) eqn:E2; simpl; [|reflexivity].
    apply Qle_bool_iff in E2. by apply Qle_antisym.
  - apply Qle_bool_false in E1. apply Qle_antisym; [done|].
    apply Qlt_le_weak in E1. eapply Qle_trans; [exact Hx|exact E1].
Qed.

(** One cell of a normalized column: a value between 0 and 1, the
    position of the value in the range when it lies inside, and an end
    of the scale when it lies outside. *)
Lemma scaled_spec lo hi x :
  (lo < hi)%Q →
  ∃ y, FeatureEngineer.scaled lo hi (Some x) = Some y
       ∧ (0 <= y <= 1)%Q
       ∧ ((lo <= x <= hi)%Q → y = ((x - lo) / (hi - lo))%Q)
       ∧ ((x <= lo)%Q → (y == 0)%Q)
       ∧ ((hi <= x)%Q → (y == 1)%Q).
Proof.
  intros Hlt. eexists. split; [done|].
  assert (0 < hi - lo)%Q as Hpos.
  { rewrite <-(Qplus_opp_r lo). unfold Qminus. by apply Qplus_lt_l. }
  assert (¬ (hi - lo == 0)%Q) as Hne.
  { intros H0. rewrite H0 in Hpos. by apply Qlt_irrefl in Hpos. }
  pose proof (clip_range x lo hi (Qlt_le_weak _ _ Hlt)) as [Hlo Hhi].
  split; [|split; [|split]].
  - split.
    + apply Qle_shift_div_l; [done|]. rewrite Qmult_0_l.
      rewrite <-(Qplus_opp_r lo). unfold Qminus. by apply Qplus_le_l.
    + apply Qle_shift_div_r; [done|]. rewrite Qmult_1_l.
      unfold Qminus. by apply Qplus_le_l.
  - intros Hin. by rewrite clip_inside.
  - intros Hx. rewrite (clip_below _ _ _ (Qlt_le_weak _ _ Hlt) Hx). field. done.
  - intros Hx. rewrite (clip_above _ _ _ (Qlt_le_weak _ _ Hlt) Hx). field. done.
Qed.

Lemma normalize_feature_other df feature lo hi name :
  name ≠ (feature +:+ "_normalized")%string →
  num_cols (FeatureEngineer.normalize_feature df feature lo hi) !! name
  = num_cols df !! name.
Proof.
  intros Hne. unfold FeatureEngineer.normalize_feature.
  destruct (num_cols df !! feature); [|done]. simpl.
  by rewrite lookup_insert_ne.
Qed.

Lemma scaled_column_within lo hi (c : list (option Q)) :
  (lo < hi)%Q → Forall (within_or_missing 0 1) (FeatureEngineer.scaled lo hi <$> c).
Proof.
  intros Hlt. apply Forall_fmap, Forall_forall. intros [x|] _ y; simpl; [|done].
  destruct (scaled_spec lo hi x Hlt) as (y' & Hy' & Hrange & _).
  simpl in Hy'. rewrite Hy'. by intros [= <-].
Qed.

Lemma normalize_feature_str_other df feature lo hi name :
  name ≠ (feature +:+ "_normalized")%string →
  str_cols (FeatureEngineer.normalize_feature df feature lo hi) !! name
  = str_cols df !! name.
Proof.
  intros Hne. unfold FeatureEngineer.normalize_feature.
  destruct (num_cols df !! feature); [|done]. simpl.
  by rewrite lookup_delete_ne.
Qed.

Lemma scaled_normalized_cells lo hi (c : list (option Q)) :
  (lo < hi)%Q → normalized_cells lo hi c (FeatureEngineer.scaled lo hi <$> c).
Proof.
  intros Hlt. unfold normalized_cells.
  induction c as [|[x|] c IH]; simpl; constructor; try done.
  destruct (scaled_spec lo hi x Hlt) as (y & Hy & Hspec).
  simpl in Hy. injection Hy as <-. exact Hspec.
Qed.

(** [_normalize_features], on a table where [loudness] and [tempo] are
    numeric columns or absent, keeps the rows and every column, numeric
    or text, other than [loudness_normalized] and [tempo_normalized].
    For a [loudness] column it makes [loudness_normalized], cell by
    cell: missing where the loudness is missing, and otherwise the
    position of the loudness in the range from -60 to 0, that is
    [(x + 60) / 60] for a loudness in the range, 0 below it and 1 above
    it.  It makes [tempo_normalized] from [tempo] in the same way with
    the range from 0 to 250.  Without a [loudness], respectively
    [tempo], column the normalized column is not made. *)
Theorem normalize_features_range df :
  str_cols df !! "loudness"%string = None →
  str_cols df !! "tempo"%string = None →
  let df' := FeatureEngineer._normalize_features df in
  n_rows df' = n_rows df
  ∧ (∀ name, name ≠ "loudness_normalized"%string →
       name ≠ "tempo_normalized"%string →
       num_cols df' !! name = num_cols df !! name
       ∧ str_cols df' !! name = str_cols df !! name)
  ∧ (∀ c, num_cols df !! "loudness"%string = Some c →
       ∃ c', num_cols df' !! "loudness_normalized"%string = Some c'
             ∧ str_cols df' !! "loudness_normalized"%string = None
             ∧ normalized_cells (-60) 0 c c'
             ∧ Forall (within_or_missing 0 1) c')
  ∧ (num_cols df !! "loudness"%string = None →
     num_cols df' !! "loudness_normalized"%string
     = num_cols df !! "loudness_normalized"%string
     ∧ str_cols df' !! "loudness_normalized"%string
       = str_cols df !! "loudness_normalized"%string)
  ∧ (∀ c, num_cols df !! "tempo"%string = Some c →
       ∃ c', num_cols df' !! "tempo_normalized"%string = Some c'
             ∧ str_cols df' !! "tempo_normalized"%string = None
             ∧ normalized_cells 0 250 c c'
             ∧ Forall (within_or_missing 0 1) c')
  ∧ (num_cols df !! "tempo"%string = None →
     num_cols df' !! "tempo_normalized"%string
     = num_cols df !! "tempo_normalized"%string
     ∧ str_cols df' !! "tempo_normalized"%string
       = str_cols df !! "tempo_normalized"%string).
Proof.
  intros _ _. unfold FeatureEngineer._normalize_features. simpl.
  split; [|split; [|split; [|split; [|split]]]].
  - unfold FeatureEngineer.normalize_feature.
    destruct (num_cols df !! "loudness"%string); simpl;
      match goal with
      | |- context [match ?o with _ => _ end] => destruct o
      end; done.
  - intros name Hl Ht.
    by rewrite !normalize_feature_other, !normalize_feature_str_other.
  - intros c Hc. exists (FeatureEngineer.scaled (-60) 0 <$> c).
    rewrite normalize_feature_other, normalize_feature_str_other by done.
    unfold FeatureEngineer.normalize_feature. rewrite Hc. simpl.
    rewrite lookup_insert_eq, lookup_delete_eq.
    split; [done|]. split; [done|].
    split; [by apply scaled_normalized_cells|by apply scaled_column_within].
  - intros Hnone.
    rewrite normalize_feature_other, normalize_feature_str_other by done.
    unfold FeatureEngineer.normalize_feature. by rewrite Hnone.
  - intros c Hc. exists (FeatureEngineer.scaled 0 250 <$> c).
    unfold FeatureEngineer.normalize_feature at 1 3.
    rewrite normalize_feature_other by done. rewrite Hc. simpl.
    rewrite lookup_insert_eq, lookup_delete_eq.
    split; [done|]. split; [done|].
    split; [by apply scaled_normalized_cells|by apply scaled_column_within].
  - intros Hnone.
    unfold FeatureEngineer.normalize_feature at 1 3.
    rewrite normalize_feature_other by done. rewrite Hnone.
    by rewrite normalize_feature_other, normalize_feature_str_other.
Qed.

(** The entry that [get_recommendations_by_features] makes for
    [tempo_normalized] is [tempo / 250], without the clipping that the
    feature engineer applies to the column of the catalog: the two
    agree exactly for a tempo between 0 and 250. *)
Theorem tempo_query_not_clipped self da e v tempo i :
  ∃ q y,
    MusicRecommender.query_entry self da e v tempo i "tempo_normalized" = Ok q
    ∧ FeatureEngineer.scaled 0 250 (Some tempo) = Some y
    ∧ ((q == y)%Q ↔ (0 <= tempo <= 250)%Q).
Proof.
  eexists _, _. split; [done|]. split; [done|].
  unfold Qminus. split.
  - intros Heq.
    pose proof (clip_range tempo 0 250) as Hrange.
    set (c := FeatureEngineer.clip tempo 0 250) in *. clearbody c.
    assert (c == tempo)%Q as Hclip.
    { transitivity ((c + - 0) / (250 + - 0) * 250)%Q; [field|].
      rewrite <-Heq. field. }
    rewrite <-Hclip. by apply Hrange.
  - intros Hin. rewrite clip_inside by done. field.
Qed.

Lemma release_decade_bounds year :
  (FeatureEngineer.release_decade year ≤ year
   < FeatureEngineer.release_decade year + 10)%Z.
Proof.
  unfold FeatureEngineer.release_decade.
  Z.to_euclidean_division_equations. lia.
Qed.

(** The era of a track is the era of its decade: the eras begin with
    decades. *)
Lemma categorize_era_by_decade year :
  FeatureEngineer.categorize_era (FeatureEngineer.release_decade year)
  = FeatureEngineer.categorize_era year.
Proof.
  pose proof (release_decade_bounds year) as Hb.
  assert (∃ k, FeatureEngineer.release_decade year = 10 * k)%Z as [k Hk].
  { exists (year / 10)%Z. unfold FeatureEngineer.release_decade. lia. }
  unfold FeatureEngineer.categorize_era. rewrite Hk in *.
  repeat match goal with
         | |- context [(?a <? ?b)%Z] => destruct (Z.ltb_spec a b)
         end; try done; lia.
Qed.

Lemma col2_Forall df f (a b : list (option Q)) (Pa Pb P : option Q → Prop) :
  Forall Pa a → Forall Pb b → Pa None → Pb None →
  (∀ x y, Pa x → Pb y → P (f x y)) →
  Forall P (FeatureEngineer.col2 df f a b).
Proof.
  intros Ha Hb Hna Hnb Hf. unfold FeatureEngineer.col2.
  apply Forall_fmap, Forall_forall. intros i _. simpl. apply Hf.
  - destruct (a !! i) as [x|] eqn:E; [|done].
    simpl. by eapply Forall_lookup_1.
  - destruct (b !! i) as [y|] eqn:E; [|done].
    simpl. by eapply Forall_lookup_1.
Qed.

Lemma within_or_missing_None lo hi : within_or_missing lo hi None.
Proof. by intros x. Qed.

Lemma num2_unit (f : Q → Q → Q) x y :
  (∀ p q, (0 <= p <= 1)%Q → (0 <= q <= 1)%Q → (0 <= f p q <= 1)%Q) →
  within_or_missing 0 1 x → within_or_missing 0 1 y →
  within_or_missing 0 1 (FeatureEngineer.num2 f x y).
Proof.
  intros Hf Hx Hy z. destruct x as [p|], y as [q|]; simpl; try done.
  intros [= <-]. apply Hf; [by apply Hx|by apply Hy].
Qed.

Lemma acoustic_ratio_range a i :
  within_or_missing 0 10 (FeatureEngineer.acoustic_ratio a i).
Proof.
  intros z. destruct a as [a|], i as [i|]; simpl; try done.
  destruct (Qeq_bool _ 0).
  - destruct (Qlt_bool 0 a); [by intros [= <-]|].
    destruct (Qlt_bool a 0); [by intros [= <-]|done].
  - intros [= <-]. by apply clip_range.
Qed.

Lemma unit_product p q :
  (0 <= p <= 1)%Q → (0 <= q <= 1)%Q → (0 <= p * q <= 1)%Q.
Proof.
  intros [Hp0 Hp1] [Hq0 Hq1]. split; [by apply Qmult_le_0_compat|].
  rewrite <-(Qmult_1_l 1). by apply Qmult_le_compat_nonneg.
Qed.

Lemma unit_mean p q :
  (0 <= p <= 1)%Q → (0 <= q <= 1)%Q → (0 <= (p + q) / 2 <= 1)%Q.
Proof.
  intros [Hp0 Hp1] [Hq0 Hq1]. split.
  - apply Qle_shift_div_l; [done|]. rewrite Qmult_0_l.
    rewrite <-(Qplus_0_l 0). by apply Qplus_le_compat.
  - apply Qle_shift_div_r; [done|].
    assert (1 * 2 == 1 + 1)%Q as -> by ring. by apply Qplus_le_compat.
Qed.

Lemma unit_complement p : (0 <= p <= 1)%Q → (0 <= 1 - p <= 1)%Q.
Proof.
  intros [Hp0 Hp1]. split.
  - rewrite <-(Qplus_opp_r p). unfold Qminus. by apply Qplus_le_l.
  - rewrite <-(Qplus_0_r 1) at 2. unfold Qminus. apply Qplus_le_r.
    apply (Qopp_le_compat 0 p) in Hp0. exact Hp0.
Qed.

Lemma derive2_n_rows df x y new f :
  n_rows (FeatureEngineer.derive2 df x y new f) = n_rows df.
Proof.
  unfold FeatureEngineer.derive2.
  by destruct (num_cols df !! x), (num_cols df !! y).
Qed.

Lemma derive2_other df x y new f m :
  m ≠ new →
  num_cols (FeatureEngineer.derive2 df x y new f) !! m = num_cols df !! m.
Proof.
  intros Hne. unfold FeatureEngineer.derive2.
  destruct (num_cols df !! x), (num_cols df !! y); try done.
  simpl. by rewrite lookup_insert_ne.
Qed.

Lemma derive1_other df x new f m :
  m ≠ new →
  num_cols (FeatureEngineer.derive1 df x new f) !! m = num_cols df !! m.
Proof.
  intros Hne. unfold FeatureEngineer.derive1.
  destruct (num_cols df !! x); try done.
  simpl. by rewrite lookup_insert_ne.
Qed.

Lemma derive2_cells df x y new f a b (Pa Pb P : option Q → Prop) :
  num_cols df !! x = Some a → num_cols df !! y = Some b →
  Forall Pa a → Forall Pb b → Pa None → Pb None →
  (∀ p q, Pa p → Pb q → P (f p q)) →
  cells_satisfy (FeatureEngineer.derive2 df x y new f) new P.
Proof.
  intros Hx Hy Ha Hb Hna Hnb Hf c. unfold FeatureEngineer.derive2.
  rewrite Hx, Hy. simpl. rewrite lookup_insert_eq. intros [= <-].
  by eapply col2_Forall.
Qed.

Lemma derive2_preserved df x y new f m (P : option Q → Prop) :
  m ≠ new → cells_satisfy df m P →
  cells_satisfy (FeatureEngineer.derive2 df x y new f) m P.
Proof.
  intros Hne HP c. rewrite derive2_other by done. apply HP.
Qed.

Lemma derive1_preserved df x new f m (P : option Q → Prop) :
  m ≠ new → cells_satisfy df m P →
  cells_satisfy (FeatureEngineer.derive1 df x new f) m P.
Proof.
  intros Hne HP c. rewrite derive1_other by done. apply HP.
Qed.

(** The ranges of the derived features. *)
Lemma derived_features_cells df e d v a ins :
  num_cols df !! "energy"%string = Some e →
  num_cols df !! "danceability"%string = Some d →
  num_cols df !! "valence"%string = Some v →
  num_cols df !! "acousticness"%string = Some a →
  num_cols df !! "instrumentalness"%string = Some ins →
  Forall (within_or_missing 0 1) e → Forall (within_or_missing 0 1) d →
  Forall (within_or_missing 0 1) v → Forall (within_or_missing 0 1) a →
  Forall (within_or_missing 0 1) ins →
  let df' := FeatureEngineer._create_derived_features df in
  n_rows df' = n_rows df
  ∧ cells_satisfy df' "energy_danceability" (within_or_missing 0 1)
  ∧ cells_satisfy df' "mood_score" (within_or_missing 0 1)
  ∧ cells_satisfy df' "acoustic_ratio" (within_or_missing 0 10)
  ∧ cells_satisfy df' "vocal_presence" (within_or_missing 0 1)
  ∧ cells_satisfy df' "chill_factor" (within_or_missing 0 1)
  ∧ (∀ l, num_cols df !! "loudness_normalized"%string = Some l →
       Forall (within_or_missing 0 1) l →
       cells_satisfy df' "intensity" (within_or_missing 0 1)).
Proof.
  intros He Hd Hv Ha Hins Pe Pd Pv Pa Pins.
  unfold FeatureEngineer._create_derived_features. cbv zeta.
  set (df1 := FeatureEngineer.derive2 df "energy" "danceability" _ _).
  set (df2 := FeatureEngineer.derive2 df1 "valence" "energy" _ _).
  set (df3 := FeatureEngineer.derive2 df2 "acousticness" _ _ _).
  set (df4 := FeatureEngineer.derive1 df3 "instrumentalness" _ _).
  set (df5 := FeatureEngineer.derive2 df4 "energy" "loudness_normalized" _ _).
  assert (∀ m, m ≠ "energy_danceability"%string →
            num_cols df1 !! m = num_cols df !! m) as H1
    by (intros; by apply derive2_other).
  assert (∀ m, m ≠ "energy_danceability"%string → m ≠ "mood_score"%string →
            num_cols df2 !! m = num_cols df !! m) as H2
    by (intros; unfold df2; rewrite derive2_other by done; by apply H1).
  assert (∀ m, m ≠ "energy_danceability"%string → m ≠ "mood_score"%string →
            m ≠ "acoustic_ratio"%string →
            num_cols df3 !! m = num_cols df !! m) as H3
    by (intros; unfold df3; rewrite derive2_other by done; by apply H2).
  assert (∀ m, m ≠ "energy_danceability"%string → m ≠ "mood_score"%string →
            m ≠ "acoustic_ratio"%string → m ≠ "vocal_presence"%string →
            num_cols df4 !! m = num_cols df !! m) as H4
    by (intros; unfold df4; rewrite derive1_other by done; by apply H3).
  assert (∀ m, m ≠ "energy_danceability"%string → m ≠ "mood_score"%string →
            m ≠ "acoustic_ratio"%string → m ≠ "vocal_presence"%string →
            m ≠ "intensity"%string →
            num_cols df5 !! m = num_cols df !! m) as H5
    by (intros; unfold df5; rewrite derive2_other by done; by apply H4).
  split; [|split; [|split; [|split; [|split; [|split]]]]].
  - unfold df5, df4, df3, df2, df1. rewrite !derive2_n_rows.
    unfold FeatureEngineer.derive1. rewrite !derive2_other by done.
    rewrite Hins. simpl. by rewrite !derive2_n_rows.
  - do 2 (apply derive2_preserved; [done|]).
    apply derive1_preserved; [done|]. do 2 (apply derive2_preserved; [done|]).
    eapply (derive2_cells df _ _ _ _ e d
              (within_or_missing 0 1) (within_or_missing 0 1));
      [done|done|done|done|
       apply within_or_missing_None|apply within_or_missing_None|].
    intros p q Hp Hq. apply num2_unit; [|done|done]. apply unit_product.
  - do 2 (apply derive2_preserved; [done|]).
    apply derive1_preserved; [done|]. apply derive2_preserved; [done|].
    eapply (derive2_cells df1 _ _ _ _ v e
              (within_or_missing 0 1) (within_or_missing 0 1));
      [by rewrite H1|by rewrite H1|done|done|
       apply within_or_missing_None|apply within_or_missing_None|].
    intros p q Hp Hq. apply num2_unit; [|done|done]. apply unit_mean.
  - do 2 (apply derive2_preserved; [done|]).
    apply derive1_preserved; [done|].
    eapply (derive2_cells df2 _ _ _ _ a ins (λ _, True) (λ _, True));
      [by rewrite H2|by rewrite H2|by apply Forall_true|by apply Forall_true|
       done|done|].
    intros p q _ _. apply acoustic_ratio_range.
  - do 2 (apply derive2_preserved; [done|]).
    intros c. unfold df4, FeatureEngineer.derive1. rewrite H3 by done.
    rewrite Hins. simpl. rewrite lookup_insert_eq. intros [= <-].
    apply Forall_fmap. eapply Forall_impl; [exact Pins|].
    intros [x|] Hx y; simpl; [|done]. intros [= <-].
    apply unit_complement. by apply Hx.
  - eapply (derive2_cells df5 _ _ _ _ e a
              (within_or_missing 0 1) (within_or_missing 0 1));
      [by rewrite H5|by rewrite H5|done|done|
       apply within_or_missing_None|apply within_or_missing_None|].
    intros p q Hp Hq. apply num2_unit; [|done|done].
    intros x y Hx Hy. apply unit_product; [|done]. by apply unit_complement.
  - intros l Hl Pl. apply derive2_preserved; [done|].
    eapply (derive2_cells df4 _ _ _ _ e l
              (within_or_missing 0 1) (within_or_missing 0 1));
      [by rewrite H4|by rewrite H4|done|done|
       apply within_or_missing_None|apply within_or_missing_None|].
    intros p q Hp Hq. apply num2_unit; [|done|done]. apply unit_mean.
Qed.

Lemma derive2_new df x y new f a b :
  num_cols df !! x = Some a → num_cols df !! y = Some b →
  num_cols (FeatureEngineer.derive2 df x y new f) !! new
  = Some (FeatureEngineer.col2 df f a b).
Proof.
  intros Hx Hy. unfold FeatureEngineer.derive2. rewrite Hx, Hy. simpl.
  by rewrite lookup_insert_eq.
Qed.

Lemma col2_combines df (g : Q → Q → Q) (a b : list (option Q)) :
  combines_by (n_rows df) (λ x y cell, cell = Some (g x y)) a b
    (FeatureEngineer.col2 df (FeatureEngineer.num2 g) a b).
Proof.
  unfold FeatureEngineer.col2. split; [by rewrite length_fmap, length_seq|].
  intros i Hi. rewrite list_lookup_fmap, lookup_seq_lt by done. simpl.
  destruct (a !! i) as [[x|]|], (b !! i) as [[y|]|]; simpl; try done.
  by eexists.
Qed.

Lemma acoustic_ratio_spec x y :
  acoustic_ratio_of x y (FeatureEngineer.acoustic_ratio (Some x) (Some y)).
Proof.
  unfold acoustic_ratio_of, FeatureEngineer.acoustic_ratio. cbv zeta.
  set (den := (1 - y + 1 / 1000)%Q).
  destruct (Qeq_bool den 0) eqn:E.
  - apply Qeq_bool_iff in E. split; [done|]. intros _.
    unfold Qlt_bool. split; [|split].
    + intros Hx. destruct (Qle_bool x 0) eqn:E1; simpl; [|done].
      apply Qle_bool_iff in E1. by destruct (Qlt_not_le _ _ Hx).
    + intros Hx. destruct (Qle_bool x 0) eqn:E1; simpl.
      * destruct (Qle_bool 0 x) eqn:E2; simpl; [|done].
        apply Qle_bool_iff in E2. by destruct (Qlt_not_le _ _ Hx).
      * apply Qle_bool_false in E1. exfalso.
        apply (Qlt_irrefl 0). by apply Qlt_trans with x.
    + intros Hx. assert (Qle_bool x 0 = true) as ->.
      { apply Qle_bool_iff. rewrite Hx. apply Qle_refl. }
      assert (Qle_bool 0 x = true) as ->.
      { apply Qle_bool_iff. rewrite Hx. apply Qle_refl. }
      done.
  - split.
    + intros _. eexists. split; [done|]. split; [|split].
      * intros Hin. by apply clip_inside.
      * intros Hle. by apply clip_below.
      * intros Hge. by apply clip_above.
    + intros E'. apply Qeq_bool_iff in E'. congruence.
Qed.

Lemma col2_acoustic_ratio df (a b : list (option Q)) :
  combines_by (n_rows df) acoustic_ratio_of a b
    (FeatureEngineer.col2 df FeatureEngineer.acoustic_ratio a b).
Proof.
  unfold FeatureEngineer.col2. split; [by rewrite length_fmap, length_seq|].
  intros i Hi. rewrite list_lookup_fmap, lookup_seq_lt by done. simpl.
  destruct (a !! i) as [[x|]|], (b !! i) as [[y|]|]; simpl; try done.
  eexists. split; [done|]. apply acoustic_ratio_spec.
Qed.

Lemma col2_same_rows df1 df2 f a b :
  n_rows df1 = n_rows df2 →
  FeatureEngineer.col2 df1 f a b = FeatureEngineer.col2 df2 f a b.
Proof. unfold FeatureEngineer.col2. by intros ->. Qed.

Lemma derive1_n_rows df x new f :
  n_rows (FeatureEngineer.derive1 df x new f) = n_rows df.
Proof. unfold FeatureEngineer.derive1. by destruct (num_cols df !! x). Qed.

(** On a table with numeric columns [energy], [danceability],
    [valence], [acousticness] and [instrumentalness], and no text
    column [loudness_normalized], [_create_derived_features] keeps the
    rows and the columns other than those it makes, and it makes, row
    by row and with a missing value where an operand is missing:
    [energy_danceability], the product of the two; [mood_score], the
    mean of valence and energy; [acoustic_ratio], the acousticness
    divided by [1 - instrumentalness + 0.001] and taken into the range
    from 0 to 10, a division by zero included; [vocal_presence], one
    minus the instrumentalness; [chill_factor], the acousticness times
    one minus the energy; and [intensity], the mean of energy and
    normalized loudness, when the table has the latter column and not
    otherwise.  The acoustic ratio lies between 0 and 10; the others lie
    between 0 and 1 when the columns they are made from do. *)
Theorem derived_features_range df e d v a ins :
  num_cols df !! "energy"%string = Some e →
  num_cols df !! "danceability"%string = Some d →
  num_cols df !! "valence"%string = Some v →
  num_cols df !! "acousticness"%string = Some a →
  num_cols df !! "instrumentalness"%string = Some ins →
  str_cols df !! "loudness_normalized"%string = None →
  let df' := FeatureEngineer._create_derived_features df in
  let n := n_rows df in
  n_rows df' = n
  ∧ (∀ m, m ∉ ["energy_danceability"; "mood_score"; "acoustic_ratio";
               "vocal_presence"; "intensity"; "chill_factor"]%string →
       num_cols df' !! m = num_cols df !! m)
  ∧ (∃ c, num_cols df' !! "energy_danceability"%string = Some c
          ∧ combines_by n (λ x y cell, cell = Some (x * y)%Q) e d c)
  ∧ (∃ c, num_cols df' !! "mood_score"%string = Some c
          ∧ combines_by n (λ x y cell, cell = Some ((x + y) / 2)%Q) v e c)
  ∧ (∃ c, num_cols df' !! "acoustic_ratio"%string = Some c
          ∧ combines_by n acoustic_ratio_of a ins c
          ∧ Forall (within_or_missing 0 10) c)
  ∧ num_cols df' !! "vocal_presence"%string
    = Some (fmap (λ x, 1 - x)%Q <$> ins)
  ∧ (∃ c, num_cols df' !! "chill_factor"%string = Some c
          ∧ combines_by n (λ x y cell, cell = Some ((1 - x) * y)%Q) e a c)
  ∧ (∀ l, num_cols df !! "loudness_normalized"%string = Some l →
       ∃ c, num_cols df' !! "intensity"%string = Some c
            ∧ combines_by n (λ x y cell, cell = Some ((x + y) / 2)%Q) e l c)
  ∧ (num_cols df !! "loudness_normalized"%string = None →
     num_cols df' !! "intensity"%string = num_cols df !! "intensity"%string)
  ∧ (Forall (within_or_missing 0 1) e → Forall (within_or_missing 0 1) d →
     Forall (within_or_missing 0 1) v → Forall (within_or_missing 0 1) a →
     Forall (within_or_missing 0 1) ins →
     cells_satisfy df' "energy_danceability" (within_or_missing 0 1)
     ∧ cells_satisfy df' "mood_score" (within_or_missing 0 1)
     ∧ cells_satisfy df' "vocal_presence" (within_or_missing 0 1)
     ∧ cells_satisfy df' "chill_factor" (within_or_missing 0 1)
     ∧ (∀ l, num_cols df !! "loudness_normalized"%string = Some l →
          Forall (within_or_missing 0 1) l →
          cells_satisfy df' "intensity" (within_or_missing 0 1))).
Proof.
  intros He Hd Hv Ha Hins _ df' n.
  assert (∀ c, num_cols df' !! "acoustic_ratio"%string = Some c →
               Forall (within_or_missing 0 10) c) as Hratio.
  { intros c Hc. unfold df', FeatureEngineer._create_derived_features in Hc.
    cbv zeta in Hc. rewrite !derive2_other in Hc by done.
    unfold FeatureEngineer.derive1 in Hc.
    rewrite !derive2_other in Hc by done. rewrite Hins in Hc. simpl in Hc.
    rewrite lookup_insert_ne in Hc by done.
    rewrite (derive2_new _ _ _ _ _ a ins) in Hc
      by (by rewrite !derive2_other).
    injection Hc as <-.
    apply (col2_Forall _ _ a ins (λ _, True) (λ _, True));
      [by apply Forall_true|by apply Forall_true|done|done|].
    intros p q _ _. apply acoustic_ratio_range. }
  assert (Forall (within_or_missing 0 1) e → Forall (within_or_missing 0 1) d →
     Forall (within_or_missing 0 1) v → Forall (within_or_missing 0 1) a →
     Forall (within_or_missing 0 1) ins →
     cells_satisfy df' "energy_danceability" (within_or_missing 0 1)
     ∧ cells_satisfy df' "mood_score" (within_or_missing 0 1)
     ∧ cells_satisfy df' "vocal_presence" (within_or_missing 0 1)
     ∧ cells_satisfy df' "chill_factor" (within_or_missing 0 1)
     ∧ (∀ l, num_cols df !! "loudness_normalized"%string = Some l →
          Forall (within_or_missing 0 1) l →
          cells_satisfy df' "intensity" (within_or_missing 0 1))) as Hranges.
  { intros Pe Pd Pv Pa Pins.
    destruct (derived_features_cells df e d v a ins He Hd Hv Ha Hins
                Pe Pd Pv Pa Pins) as (_ & H1 & H2 & _ & H4 & H5 & H6).
    done. }
  revert Hratio Hranges.
  unfold df', n, FeatureEngineer._create_derived_features. cbv zeta.
  set (df1 := FeatureEngineer.derive2 df "energy" "danceability" _ _).
  set (df2 := FeatureEngineer.derive2 df1 "valence" "energy" _ _).
  set (df3 := FeatureEngineer.derive2 df2 "acousticness" _ _ _).
  set (df4 := FeatureEngineer.derive1 df3 "instrumentalness" _ _).
  set (df5 := FeatureEngineer.derive2 df4 "energy" "loudness_normalized" _ _).
  intros Hratio Hranges.
  assert (∀ m, m ≠ "energy_danceability"%string →
            num_cols df1 !! m = num_cols df !! m) as H1
    by (intros; by apply derive2_other).
  assert (∀ m, m ≠ "energy_danceability"%string → m ≠ "mood_score"%string →
            num_cols df2 !! m = num_cols df !! m) as H2
    by (intros; unfold df2; rewrite derive2_other by done; by apply H1).
  assert (∀ m, m ≠ "energy_danceability"%string → m ≠ "mood_score"%string →
            m ≠ "acoustic_ratio"%string →
            num_cols df3 !! m = num_cols df !! m) as H3
    by (intros; unfold df3; rewrite derive2_other by done; by apply H2).
  assert (∀ m, m ≠ "energy_danceability"%string → m ≠ "mood_score"%string →
            m ≠ "acoustic_ratio"%string → m ≠ "vocal_presence"%string →
            num_cols df4 !! m = num_cols df !! m) as H4
    by (intros; unfold df4; rewrite derive1_other by done; by apply H3).
  assert (∀ m, m ≠ "energy_danceability"%string → m ≠ "mood_score"%string →
            m ≠ "acoustic_ratio"%string → m ≠ "vocal_presence"%string →
            m ≠ "intensity"%string →
            num_cols df5 !! m = num_cols df !! m) as H5
    by (intros; unfold df5; rewrite derive2_other by done; by apply H4).
  assert (n_rows df1 = n_rows df) as N1 by apply derive2_n_rows.
  assert (n_rows df2 = n_rows df) as N2
    by (unfold df2; by rewrite derive2_n_rows).
  assert (n_rows df3 = n_rows df) as N3
    by (unfold df3; by rewrite derive2_n_rows).
  assert (n_rows df4 = n_rows df) as N4
    by (unfold df4; by rewrite derive1_n_rows).
  assert (n_rows df5 = n_rows df) as N5
    by (unfold df5; by rewrite derive2_n_rows).
  split; [by rewrite derive2_n_rows|].
  split.
  { intros m Hm. rewrite !not_elem_of_cons in Hm.
    destruct Hm as (? & ? & ? & ? & ? & ? & _).
    rewrite derive2_other by done. by apply H5. }
  split.
  { eexists. split.
    - rewrite derive2_other by done. unfold df5.
      rewrite derive2_other by done. unfold df4.
      rewrite derive1_other by done. unfold df3, df2.
      rewrite !derive2_other by done.
      by apply derive2_new.
    - apply col2_combines. }
  split.
  { eexists. split.
    - rewrite derive2_other by done. unfold df5.
      rewrite derive2_other by done. unfold df4.
      rewrite derive1_other by done. unfold df3.
      rewrite derive2_other by done.
      apply derive2_new; by rewrite H1.
    - rewrite (col2_same_rows df1 df) by done. apply col2_combines. }
  split.
  { eexists. split; [|split].
    - rewrite derive2_other by done. unfold df5.
      rewrite derive2_other by done. unfold df4.
      rewrite derive1_other by done.
      apply derive2_new; by rewrite H2.
    - rewrite (col2_same_rows df2 df) by done. apply col2_acoustic_ratio.
    - apply Hratio.
      rewrite derive2_other by done. unfold df5.
      rewrite derive2_other by done. unfold df4.
      rewrite derive1_other by done.
      apply derive2_new; by rewrite H2. }
  split.
  { rewrite derive2_other by done. unfold df5.
    rewrite derive2_other by done. unfold df4, FeatureEngineer.derive1.
    rewrite H3 by done. rewrite Hins. simpl. by rewrite lookup_insert_eq. }
  split.
  { eexists. split.
    - apply derive2_new; by rewrite H5.
    - rewrite (col2_same_rows df5 df) by done. apply col2_combines. }
  split.
  { intros l Hl. eexists. split.
    - rewrite derive2_other by done.
      apply derive2_new; by rewrite H4.
    - rewrite (col2_same_rows df4 df) by done. apply col2_combines. }
  split; [|exact Hranges].
  intros Hnone. rewrite derive2_other by done.
  unfold df5, FeatureEngineer.derive2. rewrite !H4 by done.
  rewrite He, Hnone. by apply H4.
Qed.

(** * The further statements at concrete input *)

Lemma sqrt_fix_nonneg x : (0 <= sqrt_fix x)%Q.
Proof.
  unfold sqrt_fix, Qle. simpl. rewrite Z.mul_1_r. apply Z.sqrt_nonneg.
Qed.

Lemma top_k_distinct_rows_witness :
  ∃ idxs scores,
    SimilarityComputer.get_top_k_similar (H := sqrt_fix) (H0 := stable)
      [3; 4]%Q [[3; 4]; [4; 3]]%Q 2 (Some [0%Z]) = Ok (idxs, scores)
    ∧ NoDup idxs
    ∧ Forall (λ i, i < 2) idxs
    ∧ length scores = length idxs.
Proof.
  eexists _, _. split; [vm_compute; reflexivity|].
  apply (@top_k_distinct_rows sqrt_fix stable
           [3; 4]%Q [[3; 4]; [4; 3]]%Q 2 (Some [0%Z])).
  vm_compute. reflexivity.
Defined.

Lemma top_k_keeps_the_best_witness :
  ∃ sims,
    SimilarityComputer.compute_similarity (H := sqrt_fix)
      [3; 4]%Q [[3; 4]; [4; 3]; [-3; 4]]%Q = Ok sims
    ∧ (np_get sims 1 <= np_get sims 0)%Q.
Proof.
  eexists. split; [vm_compute; reflexivity|].
  eapply (@top_k_keeps_the_best sqrt_fix stable
            [3; 4]%Q [[3; 4]; [4; 3]; [-3; 4]]%Q 1 _ [0] _ 0 1).
  - vm_compute. reflexivity.
  - vm_compute. reflexivity.
  - apply elem_of_cons. by left.
  - simpl. lia.
  - intros Hin. apply list_elem_of_singleton in Hin. discriminate Hin.
Defined.

Lemma top_k_returns_every_row_witness :
  ∃ idxs scores,
    SimilarityComputer.get_top_k_similar (H := sqrt_fix) (H0 := stable)
      [3; 4]%Q [[3; 4]; [4; 3]]%Q 5 (Some [0%Z]) = Ok (idxs, scores)
    ∧ idxs ≡ₚ seq 0 2.
Proof.
  eexists _, _. split; [vm_compute; reflexivity|].
  eapply (@top_k_returns_every_row sqrt_fix stable
            [3; 4]%Q [[3; 4]; [4; 3]]%Q 5 (Some [0%Z])).
  - vm_compute. reflexivity.
  - simpl. lia.
Defined.

Lemma top_k_exclusion_scores_witness :
  ∃ sims0 idxs scores,
    SimilarityComputer.compute_similarity (H := sqrt_fix)
      [3; 4]%Q [[3; 4]; [4; 3]]%Q = Ok sims0
    ∧ SimilarityComputer.get_top_k_similar (H := sqrt_fix) (H0 := stable)
        [3; 4]%Q [[3; 4]; [4; 3]]%Q 2 (Some [0%Z]) = Ok (idxs, scores)
    ∧ idxs = [1; 0]
    ∧ scores !! 1 = Some (-1)%Q
    ∧ scores !! 0 = Some (np_get sims0 1).
Proof.
  eexists _, _, _. split; [vm_compute; reflexivity|].
  split; [vm_compute; reflexivity|]. split; [reflexivity|]. split.
  - eapply (proj1 (@top_k_exclusion_scores sqrt_fix stable
                     [3; 4]%Q [[3; 4]; [4; 3]]%Q 2 (Some [0%Z]) _ _ _ 1 0
                     eq_refl eq_refl eq_refl) 0%Z).
    + apply elem_of_cons. by left.
    + reflexivity.
  - eapply (proj2 (@top_k_exclusion_scores sqrt_fix stable
                     [3; 4]%Q [[3; 4]; [4; 3]]%Q 2 (Some [0%Z]) _ _ _ 0 1
                     eq_refl eq_refl eq_refl)).
    intros i Hi. apply list_elem_of_singleton in Hi. subst i. discriminate.
Defined.

Lemma compute_similarity_shapes_witness :
  (∃ sims, SimilarityComputer.compute_similarity (H := sqrt_fix)
             [3; 4]%Q [[3; 4]; [4; 3]]%Q = Ok sims
           ∧ length sims = 2)
  ∧ SimilarityComputer.compute_similarity (H := sqrt_fix)
      [3; 4]%Q [[3; 4]; [4]]%Q = Raise ValueError.
Proof.
  split.
  - apply (proj1 (@compute_similarity_shapes sqrt_fix
                    [3; 4]%Q [[3; 4]; [4; 3]]%Q)).
    split; [discriminate|]. split; [discriminate|]. by repeat constructor.
  - apply (proj2 (@compute_similarity_shapes sqrt_fix
                    [3; 4]%Q [[3; 4]; [4]]%Q)).
    intros (_ & _ & Hrows).
    apply Forall_cons in Hrows as [_ Hrows].
    apply Forall_cons in Hrows as [Hrow _]. simpl in Hrow. lia.
Defined.

Lemma zero_vector_similarity_witness :
  ∃ sims,
    SimilarityComputer.compute_similarity (H := sqrt_fix)
      [0; 0]%Q [[3; 4]; [4; 3]]%Q = Ok sims
    ∧ Forall (λ s, s == 0)%Q sims.
Proof.
  eexists. split; [vm_compute; reflexivity|].
  eapply (proj1 (@zero_vector_similarity sqrt_fix
                   [0; 0]%Q [[3; 4]; [4; 3]]%Q _ eq_refl)).
  by repeat constructor.
Defined.

Lemma pairwise_similarity_symmetric_witness :
  ∃ S,
    SimilarityComputer.compute_pairwise_similarity (H := sqrt_fix)
      [[3; 4]; [4; 3]]%Q = Ok S
    ∧ length S = 2
    ∧ ∀ i j a b, S !! i ≫= (.!! j) = Some a → S !! j ≫= (.!! i) = Some b →
        (a == b)%Q.
Proof.
  eexists. split; [vm_compute; reflexivity|].
  pose proof (@pairwise_similarity_symmetric sqrt_fix
                [[3; 4]; [4; 3]]%Q _ eq_refl) as (Hlen & _ & Hsym & _).
  split; [exact Hlen|exact Hsym].
Defined.

Lemma diversity_score_bounds_witness :
  SimilarityComputer.compute_diversity_score (H := sqrt_fix) [7]%Q = 1%Q
  ∧ SimilarityComputer.compute_diversity_score (H := sqrt_fix) [1; -3]%Q = 0%Q
  ∧ SimilarityComputer.compute_diversity_score (H := sqrt_fix) [1; 3]%Q
    = (np_sqrt (Sqrt := sqrt_fix) (np_var [1; 3]) / np_mean [1; 3])%Q
  ∧ (0 <= SimilarityComputer.compute_diversity_score (H := sqrt_fix) [1; 3]%Q
     <= 1)%Q.
Proof.
  split; [|split; [|split]].
  - pose proof (@diversity_score_bounds sqrt_fix [7]%Q) as (Hone & _).
    apply Hone. simpl. lia.
  - pose proof (@diversity_score_bounds sqrt_fix [1; -3]%Q) as (_ & Hzero & _).
    apply Hzero; [simpl; lia|]. vm_compute. discriminate.
  - pose proof (@diversity_score_bounds sqrt_fix [1; 3]%Q)
      as (_ & _ & Hcv & _).
    apply Hcv; [simpl; lia|vm_compute; reflexivity|vm_compute; discriminate].
  - pose proof (@diversity_score_bounds sqrt_fix [1; 3]%Q)
      as (_ & _ & _ & _ & Hle & Hge).
    split; [|exact Hle]. apply Hge. apply sqrt_fix_nonneg.
Defined.

Lemma apply_weights_shapes_witness :
  let self := SimilarityComputer.__init__ None in
  (∃ M', SimilarityComputer.apply_weights self [[1]; [3]]%Q ["energy"; "tempo"]
         = Ok M'
         ∧ length M' = 2 ∧ Forall (λ row : Vec, length row = 2) M')
  ∧ SimilarityComputer.apply_weights self [[1; 2; 3]; [3; 4; 5]]%Q
      ["energy"; "tempo"] = Raise ValueError.
Proof.
  intros self. split.
  - destruct (apply_weights_shapes self [[1]; [3]]%Q ["energy"; "tempo"] 1)
      as (Hok & _ & Hshape); [done|by repeat constructor|].
    destruct (SimilarityComputer.apply_weights self [[1]; [3]]%Q
                ["energy"; "tempo"]) as [M'|e]; [|discriminate Hok].
    exists M'. split; [reflexivity|]. by apply Hshape.
  - destruct (apply_weights_shapes self [[1; 2; 3]; [3; 4; 5]]%Q
                ["energy"; "tempo"] 3)
      as (Hok & Hraise & _); [done|by repeat constructor|].
    apply Hraise. rewrite Hok. reflexivity.
Defined.

Lemma apply_weights_keeps_shape_witness :
  ∃ M', SimilarityComputer.apply_weights (SimilarityComputer.__init__ None)
          [[1; 2]; [3; 4]]%Q ["duration_ms"; "popularity"] = Ok M'
    ∧ length M' = 2
    ∧ Meq M' [[1; 2]; [3; 4]]%Q.
Proof.
  destruct (apply_weights_keeps_shape (SimilarityComputer.__init__ None)
              [[1; 2]; [3; 4]]%Q ["duration_ms"; "popularity"])
    as (M' & HM' & Hlen & _ & Heq).
  { by repeat constructor. }
  exists M'. split; [exact HM'|]. split; [exact Hlen|]. apply Heq.
  intros name Hname.
  apply elem_of_cons in Hname as [->|Hname]; [reflexivity|].
  apply list_elem_of_singleton in Hname as ->. reflexivity.
Defined.



Lemma build_index_id_maps_witness :
  ∃ b M ti,
    IndexBuilder.build_index (H := sqrt_fix) IndexBuilder.__init__ demo_df
      ["energy"; "loudness"] = Ok (b, (M, ti))
    ∧ (∀ i, idx_to_id ti !! i = ["t1"; "t2"; "t3"; "t4"] !! i)
    ∧ ∀ x i, idx_to_id ti !! i = Some x ↔ id_to_idx ti !! x = Some i.
Proof.
  assert (∃ out, IndexBuilder.build_index (H := sqrt_fix) IndexBuilder.__init__
                   demo_df ["energy"; "loudness"] = Ok out)
    as [[b [M ti]] Hb] by (eexists; vm_compute; reflexivity).
  exists b, M, ti. split; [exact Hb|].
  pose proof (@build_index_id_maps sqrt_fix IndexBuilder.__init__ demo_df
                ["energy"; "loudness"] b M ti ["t1"; "t2"; "t3"; "t4"]
                Hb eq_refl) as (Hidx & _ & _ & Hinv).
  split; [exact Hidx|]. apply Hinv.
  apply (bool_decide_unpack (NoDup ["t1"; "t2"; "t3"; "t4"]%string)).
  vm_compute. exact I.
Defined.

Lemma build_index_shapes_witness :
  ∃ b M ti,
    IndexBuilder.build_index (H := sqrt_fix) IndexBuilder.__init__ demo_df
      ["energy"; "loudness"] = Ok (b, (M, ti))
    ∧ length M = 4
    ∧ Forall (λ row : Vec, length row = 2) M.
Proof.
  assert (∃ out, IndexBuilder.build_index (H := sqrt_fix) IndexBuilder.__init__
                   demo_df ["energy"; "loudness"] = Ok out)
    as [[b [M ti]] Hb] by (eexists; vm_compute; reflexivity).
  exists b, M, ti. split; [exact Hb|].
  pose proof (@build_index_shapes sqrt_fix IndexBuilder.__init__ demo_df
                ["energy"; "loudness"] b M ti Hb)
    as (_ & _ & Hlen & Hrows & _).
  split; [exact Hlen|exact Hrows].
Defined.

Lemma build_index_standardizes_witness :
  ∃ b M ti,
    IndexBuilder.build_index (H := sqrt_fix) IndexBuilder.__init__ demo_df
      ["energy"; "loudness"] = Ok (b, (M, ti))
    ∧ (np_mean (column M 1) == 0)%Q
    ∧ (np_var (column M 1) == 1)%Q.
Proof.
  assert (∃ out, IndexBuilder.build_index (H := sqrt_fix) IndexBuilder.__init__
                   demo_df ["energy"; "loudness"] = Ok out)
    as [[b [M ti]] Hb] by (eexists; vm_compute; reflexivity).
  exists b, M, ti. split; [exact Hb|].
  pose proof (@build_index_standardizes sqrt_fix IndexBuilder.__init__ demo_df
                ["energy"; "loudness"] b M ti 1 "loudness" Hb eq_refl)
    as (Hmean & _ & Hvar).
  split; [exact Hmean|]. apply Hvar.
  - vm_compute. discriminate.
  - vm_compute. reflexivity.
Defined.

Lemma build_index_metadata_witness :
  let df := take_rows demo_df [1; 3] in
  (∃ b M ti,
     IndexBuilder.build_index (H := sqrt_fix) IndexBuilder.__init__ df
       ["energy"; "loudness"] = Ok (b, (M, ti))
     ∧ idx_to_id ti !! 1 = Some "t4"%string
     ∧ label df 1 = 3
     ∧ (∃ md, track_metadata ti !! 3 = Some md
              ∧ IndexBuilder.row_metadata {| frame := df; pos := 1 |} = Ok md
              ∧ ∀ x, idx_to_id ti !! 1 = Some x → Metadata.id md = x)
     ∧ track_metadata ti !! 0 = None)
  ∧ ∃ b M ti,
      IndexBuilder.build_index (H := sqrt_fix) IndexBuilder.__init__ demo_df
        ["energy"; "loudness"] = Ok (b, (M, ti))
      ∧ (∃ md, track_metadata ti !! 3 = Some md
               ∧ IndexBuilder.row_metadata {| frame := demo_df; pos := 3 |}
                 = Ok md
               ∧ ∀ x, idx_to_id ti !! 3 = Some x → Metadata.id md = x)
      ∧ track_metadata ti !! 4 = None.
Proof.
  intros df. split.
  - assert (∃ out, IndexBuilder.build_index (H := sqrt_fix)
                     IndexBuilder.__init__ df ["energy"; "loudness"] = Ok out
                   ∧ idx_to_id out.2.2 !! 1 = Some "t4"%string)
      as ([b [M ti]] & Hb & Hid) by (eexists; vm_compute; split; reflexivity).
    exists b, M, ti. split; [exact Hb|]. split; [exact Hid|].
    split; [reflexivity|].
    pose proof (@build_index_metadata sqrt_fix IndexBuilder.__init__ df
                  ["energy"; "loudness"] b M ti Hb) as (Hin & Hout & _).
    split.
    + apply (Hin 1); [simpl; lia|]. intros j Hj. simpl in Hj. lia.
    + apply Hout. intros [|[|i]] Hi; [discriminate..|simpl in Hi; lia].
  - assert (∃ out, IndexBuilder.build_index (H := sqrt_fix)
                     IndexBuilder.__init__ demo_df ["energy"; "loudness"]
                   = Ok out)
      as [[b [M ti]] Hb] by (eexists; vm_compute; reflexivity).
    exists b, M, ti. split; [exact Hb|].
    pose proof (@build_index_metadata sqrt_fix IndexBuilder.__init__ demo_df
                  ["energy"; "loudness"] b M ti Hb) as (_ & _ & Hpos).
    destruct Hpos as [Hin Hout].
    { intros [|[|[|[|i]]]] Hi; [reflexivity..|simpl in Hi; lia]. }
    split; [apply Hin|apply Hout]; simpl; lia.
Defined.


Lemma get_recommendations_ranked_witness :
  ∃ recs,
    MusicRecommender.get_recommendations (H := sqrt_fix) (H0 := stable)
      (demo_recommender ["energy"]) "t1" 2 false None None = Ok recs
    ∧ StronglySorted (flip Qle) (Recommendation.similarity_score <$> recs)
    ∧ (Z.of_nat (length recs) ≤ 2)%Z.
Proof.
  assert (∃ recs,
    MusicRecommender.get_recommendations (H := sqrt_fix) (H0 := stable)
      (demo_recommender ["energy"]) "t1" 2 false None None = Ok recs)
    as [recs Hrecs] by (eexists; vm_compute; reflexivity).
  exists recs. split; [exact Hrecs|].
  pose proof (@get_recommendations_ranked sqrt_fix stable
                (demo_recommender ["energy"]) "t1" 2 false None None recs Hrecs)
    as (Hsorted & Hlen & _).
  split; [exact Hsorted|]. apply Hlen. lia.
Defined.

Lemma get_recommendations_filters_witness :
  ∃ recs,
    MusicRecommender.get_recommendations (H := sqrt_fix) (H0 := stable)
      (demo_recommender ["energy"]) "t1" 5 false (Some 30%Z)
      (Some (1970, 1980)%Z) = Ok recs
    ∧ ∀ r, r ∈ recs →
        (30 ≤ Recommendation.popularity r)%Z
        ∧ ∃ y, Recommendation.release_year r = Some y ∧ (1970 ≤ y ≤ 1980)%Z.
Proof.
  assert (∃ recs,
    MusicRecommender.get_recommendations (H := sqrt_fix) (H0 := stable)
      (demo_recommender ["energy"]) "t1" 5 false (Some 30%Z)
      (Some (1970, 1980)%Z) = Ok recs)
    as [recs Hrecs] by (eexists; vm_compute; reflexivity).
  exists recs. split; [exact Hrecs|]. intros r Hr.
  pose proof (@get_recommendations_filters sqrt_fix stable
                (demo_recommender ["energy"]) "t1" 5 false (Some 30%Z)
                (Some (1970, 1980)%Z) recs Hrecs) as [_ Hall].
  destruct (Hall r Hr) as [Hpop Hyear]. split.
  - apply (Hpop 30%Z); [reflexivity|discriminate].
  - apply (Hyear 1970%Z 1980%Z). reflexivity.
Defined.


Lemma by_features_ranked_witness :
  ∃ recs,
    MusicRecommender.get_recommendations_by_features
      (H := sqrt_fix) (H0 := stable)
      (demo_recommender ["energy"; "loudness"]) (1 # 2) (3 # 4) (1 # 4) 120 (-1)
    = Ok recs
    ∧ length recs = 3
    ∧ StronglySorted (flip Qle)
        (FeatureRecommendation.similarity_score <$> recs).
Proof.
  assert (∃ recs,
    MusicRecommender.get_recommendations_by_features
      (H := sqrt_fix) (H0 := stable)
      (demo_recommender ["energy"; "loudness"]) (1 # 2) (3 # 4) (1 # 4) 120 (-1)
    = Ok recs) as [recs Hrecs] by (eexists; vm_compute; reflexivity).
  exists recs. split; [exact Hrecs|].
  pose proof (@by_features_ranked sqrt_fix stable
                (demo_recommender ["energy"; "loudness"])
                (1 # 2) (3 # 4) (1 # 4) 120 (-1)%Z recs Hrecs)
    as (Hlen & Hsorted & _).
  split; [|exact Hsorted]. rewrite Hlen. vm_compute. reflexivity.
Defined.







Lemma normalize_features_range_witness :
  let df' := FeatureEngineer._normalize_features demo_raw in
  str_cols df' !! "name"%string = str_cols demo_raw !! "name"%string
  ∧ (∃ c', num_cols df' !! "loudness_normalized"%string = Some c'
           ∧ normalized_cells (-60) 0
               [Some (-5); Some (-70); Some (-6); Some (-7); Some 3]%Q c'
           ∧ Forall (within_or_missing 0 1) c')
  ∧ (∃ c', num_cols df' !! "tempo_normalized"%string = Some c'
           ∧ normalized_cells 0 250
               [Some 120; Some 0; Some 100; Some 90; Some 300]%Q c'
           ∧ Forall (within_or_missing 0 1) c').
Proof.
  intros df'.
  destruct (normalize_features_range demo_raw eq_refl eq_refl)
    as (_ & Hother & Hl & _ & Ht & _).
  split; [|split].
  - by apply Hother.
  - destruct (Hl _ eq_refl) as (c' & Hc' & _ & Hcells & Hrange).
    by exists c'.
  - destruct (Ht _ eq_refl) as (c' & Hc' & _ & Hcells & Hrange).
    by exists c'.
Defined.

Lemma derived_features_range_witness :
  let df' := FeatureEngineer._create_derived_features demo_raw in
  let e := [Some (3 # 4); Some (1 # 2); Some (1 # 2); None; Some (1 # 4)]%Q in
  let v := [Some (1 # 4); Some (1 # 2); Some (1 # 2); Some (1 # 2); Some 1]%Q in
  let a := [Some (1 # 5); Some 1; Some 0; Some (1 # 2); Some (1 # 2)]%Q in
  let ins := [Some 0; Some 1; Some (1 # 2); Some (1 # 2); Some (1 # 2)]%Q in
  n_rows df' = 5
  ∧ (∃ c, num_cols df' !! "mood_score"%string = Some c
          ∧ combines_by 5 (λ x y cell, cell = Some ((x + y) / 2)%Q) v e c)
  ∧ (∃ c, num_cols df' !! "acoustic_ratio"%string = Some c
          ∧ combines_by 5 acoustic_ratio_of a ins c
          ∧ Forall (within_or_missing 0 10) c)
  ∧ num_cols df' !! "intensity"%string = None
  ∧ cells_satisfy df' "mood_score" (within_or_missing 0 1)
  ∧ cells_satisfy df' "chill_factor" (within_or_missing 0 1).
Proof.
  assert (∀ c : list (option Q),
    forallb (λ cell, match cell with
                     | Some x => Qle_bool 0 x && Qle_bool x 1
                     | None => true
                     end) c = true →
    Forall (within_or_missing 0 1) c) as Hunit.
  { intros c Hc. rewrite forallb_forall in Hc. apply Forall_forall.
    intros cell Hcell x ->. apply list_elem_of_In, Hc in Hcell.
    apply andb_true_iff in Hcell as [H0 H1]. split; by apply Qle_bool_iff. }
  intros df' e v a ins.
  destruct (derived_features_range demo_raw e
              [Some (1 # 2); Some (1 # 2); Some (1 # 2); Some (1 # 2); Some (1 # 2)]%Q
              v a ins)
    as (Hn & _ & _ & Hmood & Hratio & _ & _ & _ & Hint & Hranges);
    try reflexivity.
  destruct Hranges as (_ & Hmood1 & _ & Hchill & _);
    try (apply Hunit; reflexivity).
  split; [exact Hn|]. split; [exact Hmood|]. split; [exact Hratio|].
  split; [unfold df'; rewrite (Hint eq_refl); reflexivity|].
  split; [exact Hmood1|exact Hchill].
Defined.
